(** * tdocs7: documentation search pipeline

    A shallow embedding of the chunker, scorer, format detector, search
    orchestrator and smart-fetch pipeline of the tdocs7 MCP server, with the
    properties of its specification stated and settled against the code.

    Strings are JavaScript strings: sequences of UTF-16 code units, here
    [list N].  Regular expressions are kept as syntax trees that mirror the
    literals of [patterns.ts], and run by a small backtracking matcher with
    the priorities of the ECMAScript matcher (greedy and lazy quantifiers,
    ordered alternation, look-ahead, one-character look-behind, anchors and
    word boundaries).  Numbers that the code computes with weights 0.5, 1.2
    and 1.3 are rationals ([Q]). *)

From Stdlib Require Import List NArith ZArith QArith Lia Lqa Bool String Ascii.
From stdpp Require Import gmap.
Import ListNotations.

Local Open Scope nat_scope.

(** ** JavaScript strings *)

Module JS.

Abbreviation str := (list N).

(** A string literal of the source, as code units (ASCII only). *)
Fixpoint lit (s : string) : str :=
  match s with
  | EmptyString => []
  | String c s' => N_of_ascii c :: lit s'
  end.

Arguments lit : simpl never.

Definition chr (c : ascii) : N := N_of_ascii c.

Definition between (lo hi c : N) : bool := ((lo <=? c) && (c <=? hi))%N.

(** [LineTerminator]: LF, CR, LS, PS. *)
Definition is_line_terminator (c : N) : bool :=
  ((c =? 10) || (c =? 13) || (c =? 8232) || (c =? 8233))%N.

(** The class [\s], which is also what [trim] strips: [WhiteSpace] and
    [LineTerminator] code units. *)
Definition is_space (c : N) : bool :=
  (between 9 13 c || (c =? 32) || (c =? 160) || (c =? 5760)
   || between 8192 8202 c || (c =? 8232) || (c =? 8233) || (c =? 8239)
   || (c =? 8287) || (c =? 12288) || (c =? 65279))%N.

Definition is_digit (c : N) : bool := between 48 57 c.
Definition is_upper (c : N) : bool := between 65 90 c.
Definition is_lower (c : N) : bool := between 97 122 c.

(** The class [\w]: [A-Za-z0-9_]. *)
Definition is_word (c : N) : bool :=
  (is_upper c || is_lower c || is_digit c || (c =? 95))%N.

(** Case folding of the [i] flag.  For a code unit below 128 this is ASCII
    upper-casing; a code unit from 128 on is never identified with an ASCII
    one, and every pattern of the program is ASCII. *)
Definition canonicalize (c : N) : N := if is_lower c then (c - 32)%N else c.

Definition ch (x : ascii) (c : N) : bool := (c =? chr x)%N.
Definition ch_i (x : ascii) (c : N) : bool :=
  (canonicalize c =? canonicalize (chr x))%N.
Definition eq_i (x c : N) : bool := (canonicalize c =? canonicalize x)%N.

Fixpoint one_of (s : string) (c : N) : bool :=
  match s with
  | EmptyString => false
  | String x s' => ch x c || one_of s' c
  end.

Definition any (_ : N) : bool := true.
Definition dot (c : N) : bool := negb (is_line_terminator c).

(** [String.prototype.trim]. *)
Fixpoint trimStart (s : str) : str :=
  match s with
  | c :: s' => if is_space c then trimStart s' else s
  | [] => []
  end.

Definition trimEnd (s : str) : str := rev (trimStart (rev s)).
Definition trim (s : str) : str := trimEnd (trimStart s).

(** Truthiness of a string: non-empty. *)
Definition truthy (s : str) : bool :=
  match s with [] => false | _ => true end.

Fixpoint starts_with (p s : str) : bool :=
  match p, s with
  | [], _ => true
  | x :: p', c :: s' => (x =? c)%N && starts_with p' s'
  | _ :: _, [] => false
  end.

(** [String.prototype.includes]. *)
Fixpoint includes (s t : str) : bool :=
  starts_with t s || match s with [] => false | _ :: s' => includes s' t end.

(** [Array.prototype.join]. *)
Fixpoint join (sep : str) (l : list str) : str :=
  match l with
  | [] => []
  | [x] => x
  | x :: l' => x ++ sep ++ join sep l'
  end.

End JS.

(** ** Regular expressions *)

Module Regex.
Import JS.

(** The fragment of ECMAScript patterns that the program uses.  Quantifiers
    apply to a character class, which is the only way the program uses them;
    a back-reference [\1] to a group with finitely many texts is written as
    the alternation of its instances. *)
Inductive regex : Type :=
| Eps
| Chr (p : N -> bool)
| Seq (r1 r2 : regex)
| Alt (r1 r2 : regex)
| Rep (greedy : bool) (lo : nat) (hi : option nat) (p : N -> bool)
| Ahead (r : regex)
| Behind (p : N -> bool)
| Bol (multiline : bool)
| Eol (multiline : bool)
| WordB.

Definition orelse {A} (x y : option A) : option A :=
  match x with Some _ => x | None => y end.

(** A position in the subject is a zipper: the code units before it,
    nearest first, and the code units from it on. *)
Section Matcher.
Context {R : Type}.

Definition cont := list N -> list N -> option R.

(** [p{lo,hi}], greedy or lazy, followed by [k]. *)
Fixpoint rep (greedy : bool) (p : N -> bool) (lo : nat) (hi : option nat)
    (k : cont) (b a : list N) {struct a} : option R :=
  let stop := if (lo =? 0)%nat then k b a else None in
  let more :=
    match a with
    | c :: a' =>
        match hi with
        | Some O => None
        | _ => if p c then rep greedy p (pred lo) (option_map pred hi) k (c :: b) a'
               else None
        end
    | [] => None
    end in
  if greedy then orelse more stop else orelse stop more.

Definition at_bol (multiline : bool) (b : list N) : bool :=
  match b with
  | [] => true
  | c :: _ => multiline && is_line_terminator c
  end.

Definition at_eol (multiline : bool) (a : list N) : bool :=
  match a with
  | [] => true
  | c :: _ => multiline && is_line_terminator c
  end.

Definition head_is (p : N -> bool) (l : list N) : bool :=
  match l with c :: _ => p c | [] => false end.

Definition at_word_boundary (b a : list N) : bool :=
  xorb (head_is is_word b) (head_is is_word a).

End Matcher.

Fixpoint run {R : Type} (r : regex) (k : @cont R) (b a : list N) : option R :=
  match r with
  | Eps => k b a
  | Chr p =>
      match a with
      | c :: a' => if p c then k (c :: b) a' else None
      | [] => None
      end
  | Seq r1 r2 => run r1 (run r2 k) b a
  | Alt r1 r2 => orelse (run r1 k b a) (run r2 k b a)
  | Rep g lo hi p => rep g p lo hi k b a
  | Ahead r1 =>
      match run r1 (fun _ _ => Some tt) b a with
      | Some _ => k b a
      | None => None
      end
  | Behind p => if head_is p b then k b a else None
  | Bol m => if at_bol m b then k b a else None
  | Eol m => if at_eol m a then k b a else None
  | WordB => if at_word_boundary b a then k b a else None
  end.

(** A match anchored at the position: the number of code units it spans. *)
Definition exec (r : regex) (b a : list N) : option nat :=
  run r (fun _ a' => Some (length a - length a')) b a.

(** *** Pattern syntax *)

Fixpoint seq (l : list regex) : regex :=
  match l with
  | [] => Eps
  | [r] => r
  | r :: l' => Seq r (seq l')
  end.

Fixpoint alt (l : list regex) : regex :=
  match l with
  | [] => Rep true 1 (Some 0) any
  | [r] => r
  | r :: l' => Alt r (alt l')
  end.

(** A literal text, case-sensitive or under the [i] flag. *)
Definition text (s : str) : regex := seq (map (fun x => Chr (N.eqb x)) s).
Definition text_i (s : str) : regex := seq (map (fun x => Chr (eq_i x)) s).

Definition star p := Rep true 0 None p.
Definition plus p := Rep true 1 None p.
Definition lazy_star p := Rep false 0 None p.
Definition at_least n p := Rep true n None p.
Definition from_to n m p := Rep true n (Some m) p.

(** *** The operations of [RegExp] and [String] that take a pattern *)

(** Scanning keeps the zipper, and [skip] code units of a match still to
    pass over. *)

(** [s.match(r)] with the [g] flag: the texts of all matches, left to
    right, each search resuming where the last match ended (one code unit
    further after an empty match). *)
Fixpoint match_go (r : regex) (b a : list N) (skip : nat) {struct a} : list str :=
  match skip with
  | S n =>
      match a with
      | c :: a' => match_go r (c :: b) a' n
      | [] => []
      end
  | O =>
      match exec r b a with
      | Some len =>
          firstn len a ::
          match a with
          | c :: a' => match_go r (c :: b) a' (pred len)
          | [] => []
          end
      | None =>
          match a with
          | c :: a' => match_go r (c :: b) a' 0
          | [] => []
          end
      end
  end.

Definition match_all (r : regex) (s : str) : list str := match_go r [] s 0.

(** [r.test(s)] from [lastIndex = 0]: is there a match anywhere? *)
Fixpoint test_go (r : regex) (b a : list N) {struct a} : bool :=
  match exec r b a with
  | Some _ => true
  | None =>
      match a with
      | c :: a' => test_go r (c :: b) a'
      | [] => false
      end
  end.

Definition test (r : regex) (s : str) : bool := test_go r [] s.

(** [s.match(r)] without the [g] flag, for a pattern [pre(group)post] with
    one group: the text of the group in the first match. *)
Definition exec_group (p : regex * regex * regex) (b a : list N) : option str :=
  let '(pre, group, post) := p in
  run pre
    (fun b1 a1 =>
       run group
         (fun b2 a2 =>
            run post (fun _ _ => Some (firstn (length a1 - length a2) a1)) b2 a2)
         b1 a1)
    b a.

Fixpoint group_go (p : regex * regex * regex) (b a : list N) {struct a}
    : option str :=
  match exec_group p b a with
  | Some g => Some g
  | None =>
      match a with
      | c :: a' => group_go p (c :: b) a'
      | [] => None
      end
  end.

Definition match_group (p : regex * regex * regex) (s : str) : option str :=
  group_go p [] s.

(** [s.replace(r, by)] with the [g] flag and a replacement without [$]. *)
Fixpoint replace_go (r : regex) (by_ : str) (b a : list N) (skip : nat)
    {struct a} : str :=
  match skip with
  | S n =>
      match a with
      | c :: a' => replace_go r by_ (c :: b) a' n
      | [] => []
      end
  | O =>
      match exec r b a with
      | Some O =>
          by_ ++ match a with
                 | c :: a' => c :: replace_go r by_ (c :: b) a' 0
                 | [] => []
                 end
      | Some (S n) =>
          by_ ++ match a with
                 | c :: a' => replace_go r by_ (c :: b) a' n
                 | [] => []
                 end
      | None =>
          match a with
          | c :: a' => c :: replace_go r by_ (c :: b) a' 0
          | [] => []
          end
      end
  end.

Definition replace_all (r : regex) (by_ s : str) : str := replace_go r by_ [] s 0.

(** [s.split(r)] for a pattern without capturing groups.  [piece] holds the
    code units since the end [p] of the last separator, nearest first, and
    [at_p] tells whether the position is [p] itself: a match that ends at
    [p] is no separator. *)
Fixpoint split_go (r : regex) (b a : list N) (piece : list N) (at_p : bool)
    (skip : nat) {struct a} : list str :=
  match a with
  | [] => [rev piece]
  | c :: a' =>
      match skip with
      | S n => split_go r (c :: b) a' [] true n
      | O =>
          match exec r b a with
          | Some O =>
              if at_p then split_go r (c :: b) a' (c :: piece) false 0
              else rev piece :: split_go r (c :: b) a' [c] false 0
          | Some (S n) => rev piece :: split_go r (c :: b) a' [] true n
          | None => split_go r (c :: b) a' (c :: piece) false 0
          end
      end
  end.

Definition split (r : regex) (s : str) : list str :=
  match s with
  | [] => match exec r [] [] with Some _ => [] | None => [[]] end
  | _ => split_go r [] s [] true 0
  end.

(** [s.split(sep)] for a non-empty separator string. *)
Definition split_str (sep s : str) : list str := split (text sep) s.

End Regex.

Import JS Regex.

(** ** patterns.ts *)

Module Patterns.

Definition LF : N := 10%N.
Definition hash := ch "#".
Definition space := ch " ".
Definition not_space (c : N) : bool := negb (is_space c).

(** [headers: /(?=^#{1,6}\s+.+$)/gm] *)
Definition headers : regex :=
  Ahead (seq [Bol true; from_to 1 6 hash; plus is_space; plus dot; Eol true]).

(** [hasHeader: /^#{1,6}\s+/m] *)
Definition hasHeader : regex :=
  seq [Bol true; from_to 1 6 hash; plus is_space].

(** [horizontalRules: /(?:^---+$|^\*{3,}$|^={3,}$)/gm] *)
Definition horizontalRules : regex :=
  alt [seq [Bol true; text (lit "--"); plus (ch "-"); Eol true];
       seq [Bol true; at_least 3 (ch "*"); Eol true];
       seq [Bol true; at_least 3 (ch "="); Eol true]].

(** [paragraphs: /\n{2,}/] *)
Definition paragraphs : regex := at_least 2 (N.eqb LF).

(** [sentences: /(?<=[.!?])\s+/] *)
Definition sentences : regex := Seq (Behind (one_of ".!?")) (plus is_space).

(** [codeBlock: /```[\s\S]*?```|^ {4,}\S/m] *)
Definition codeBlock : regex :=
  Alt (seq [text (lit "```"); lazy_star any; text (lit "```")])
      (seq [Bol true; at_least 4 space; Chr not_space]).

Definition MAX_CHUNK_SIZE : nat := 2000.
Definition MIN_CHUNK_SIZE : nat := 10.
Definition MAX_CONTEXT_SIZE : nat := 3000.

End Patterns.

(** ** chunker.ts: the Markdown and plain-text path *)

Module Chunker.
Import Patterns.

(** The filter [(chunk) => chunk.trim()]. *)
Definition nonblank (chunk : str) : bool := truthy (trim chunk).

(** One turn of the loop of [splitBySentences]; the state is [result] and
    [currentChunk]. *)
Definition pack (st : list str * str) (sentence : str) : list str * str :=
  let '(result, currentChunk) := st in
  let wouldExceed :=
    (MAX_CHUNK_SIZE <? length (currentChunk ++ sentence)) && truthy currentChunk in
  if wouldExceed then (result ++ [trim currentChunk], sentence)
  else (result,
        currentChunk ++ (if truthy currentChunk then lit " " else []) ++ sentence).

Definition splitBySentences (chunk : str) : list str :=
  let sentences := split Patterns.sentences chunk in
  let '(result, currentChunk) := fold_left pack sentences ([], []) in
  if truthy (trim currentChunk) then result ++ [trim currentChunk] else result.

(** What [refineChunks] pushes for one chunk. *)
Definition refineChunk (chunk : str) : list str :=
  if length chunk <=? MAX_CHUNK_SIZE then [chunk]
  else
    let subChunks := List.filter nonblank (split paragraphs chunk) in
    if 1 <? length subChunks then subChunks
    else splitBySentences chunk.

Definition refineChunks (chunks : list str) : list str :=
  flat_map refineChunk chunks.

(** Steps 1 to 3 of [splitMarkdownDocument]: the first split, of headers,
    horizontal rules and paragraphs, that applies. *)
Definition initialChunks (document : str) : list str :=
  let headerSplit := List.filter nonblank (split headers document) in
  if 1 <? length headerSplit then headerSplit
  else
    let separatorSplit := List.filter nonblank (split horizontalRules document) in
    if 1 <? length separatorSplit then separatorSplit
    else List.filter nonblank (split paragraphs document).

Definition bigEnough (chunk : str) : bool :=
  MIN_CHUNK_SIZE <? length (trim chunk).

Definition splitMarkdownDocument (document : str) : list str :=
  let chunks := initialChunks document in
  let refinedChunks := refineChunks chunks in
  List.filter bigEnough refinedChunks.

(** [getExpandedContext]; an index out of range gives the empty string. *)
Definition getExpandedContext (chunks : list str) (targetIndex : nat) : str :=
  match nth_error chunks targetIndex with
  | None => []
  | Some targetChunk =>
      let result := [targetChunk] in
      let totalSize := length targetChunk in
      let prevChunk :=
        match targetIndex with
        | O => None
        | S i => nth_error chunks i
        end in
      let '(result, totalSize) :=
        match prevChunk with
        | Some prev =>
            if totalSize + length prev <? MAX_CONTEXT_SIZE
            then (prev :: result, totalSize + length prev)
            else (result, totalSize)
        | None => (result, totalSize)
        end in
      let result :=
        match nth_error chunks (S targetIndex) with
        | Some next =>
            if totalSize + length next <? MAX_CONTEXT_SIZE
            then result ++ [next] else result
        | None => result
        end in
      join (lit "

---

") result
  end.

End Chunker.

Import Patterns Chunker.

(** ** Exceptions

    A call either returns or throws; what is thrown is seen by the program
    only through [error instanceof Error ? error.message : ...], so a thrown
    value is the message of an [Error], or nothing. *)

Inductive result (A : Type) : Type :=
| Return (a : A)
| Throw (message : option str).

Arguments Return {A} a.
Arguments Throw {A} message.

Definition bind {A B} (m : result A) (k : A -> result B) : result B :=
  match m with
  | Return a => k a
  | Throw e => Throw e
  end.

(** [try { body } catch (error) { handler }] *)
Definition try_catch {A} (body : result A) (handler : option str -> A) : A :=
  match body with
  | Return a => a
  | Throw e => handler e
  end.

Declare Scope result_scope.
Delimit Scope result_scope with result.
Notation "x <- m ;; k" := (bind m (fun x => k))
  (at level 100, m at next level, right associativity) : result_scope.

(** ** The host

    What the program takes from the JavaScript runtime and from modules that
    are left out of this embedding, as the variables of one section:
    [JSON.parse], [String.prototype.toLowerCase] and
    [String.prototype.normalize("NFD")], whose tables are Unicode's, and the
    HTML chunker of [html-chunker.ts], on which no property below depends. *)

(** A value that [JSON.parse] returns; the fields of an object are in the
    order in which [Object.values] enumerates them. *)
#[warnings="-register-all"]
Inductive json : Type :=
| JNull
| JBool (b : bool)
| JNumber (q : Q)
| JString (s : str)
| JArray (items : list json)
| JObject (fields : list (str * json)).

Inductive DocumentFormat : Type := markdown | html | json_format | text_format.

Definition DocumentFormat_eqb (x y : DocumentFormat) : bool :=
  match x, y with
  | markdown, markdown | html, html | json_format, json_format
  | text_format, text_format => true
  | _, _ => false
  end.

(** The evidence listed in [indicators]; the program holds it as sentences
    for a human reader. *)
Inductive Indicator : Type :=
| StartsWithJsonChar
| JsonParsed
| JsonLikeButInvalid
| HtmlDoctypeOrMainTag
| HtmlTagsFound (tagCount : nat)
| HtmlHeaders
| HtmlParagraphs
| MarkdownHeaders
| FencedCodeBlocks (n : nat)
| ListItems (n : nat)
| MarkdownLinks (n : nat)
| Emphasis
| HorizontalRules
| NoSpecificFormat.

Record FormatDetectionResult : Type := {
  format : DocumentFormat;
  confidence : Q;
  indicators : list Indicator
}.

Module HtmlPatterns.

Definition not_ch (x : ascii) (c : N) : bool := negb (ch x c).
Definition ws0 : regex := star is_space.

(** [isHtml: /^\s*<!DOCTYPE\s+html|^\s*<html|^\s*<head|^\s*<body|^\s*<div|^\s*<article|^\s*<section/i] *)
Definition isHtml : regex :=
  alt [seq [Bol false; ws0; text_i (lit "<!DOCTYPE"); plus is_space; text_i (lit "html")];
       seq [Bol false; ws0; text_i (lit "<html")];
       seq [Bol false; ws0; text_i (lit "<head")];
       seq [Bol false; ws0; text_i (lit "<body")];
       seq [Bol false; ws0; text_i (lit "<div")];
       seq [Bol false; ws0; text_i (lit "<article")];
       seq [Bol false; ws0; text_i (lit "<section")]].

(** [allTags: /<[^>]+>/g] *)
Definition allTags : regex :=
  seq [Chr (ch "<"); plus (not_ch ">"); Chr (ch ">")].

(** [headerTags: /<h([1-6])[^>]*>([\s\S]*?)<\/h\1>/gi], one alternative for
    each digit that group 1 can hold. *)
Definition headerTag (d : ascii) : regex :=
  seq [text_i (lit "<h"); Chr (ch d); star (not_ch ">"); Chr (ch ">");
       lazy_star any; text_i (lit "</h"); Chr (ch d); Chr (ch ">")].

Definition headerTags : regex :=
  alt (map headerTag ["1"; "2"; "3"; "4"; "5"; "6"]%char).

(** [paragraphTags: /<p[^>]*>([\s\S]*?)<\/p>/gi] *)
Definition paragraphTags : regex :=
  seq [text_i (lit "<p"); star (not_ch ">"); Chr (ch ">");
       lazy_star any; text_i (lit "</p>")].

End HtmlPatterns.

Module MarkdownPatterns.
Import HtmlPatterns.

(** [/^\s*[[{]/] *)
Definition startsWithJsonChar : regex :=
  seq [Bol false; star is_space; Chr (one_of "[{")].

(** [/```[\s\S]*?```/g] *)
Definition fencedCodeBlocks : regex :=
  seq [text (lit "```"); lazy_star any; text (lit "```")].

(** [/^[\s]*[-*+]\s+/gm] *)
Definition listItems : regex :=
  seq [Bol true; star is_space; Chr (one_of "-*+"); plus is_space].

(** [/\[([^\]]+)\]\(([^)]+)\)/g] *)
Definition links : regex :=
  seq [Chr (ch "["); plus (not_ch "]"); Chr (ch "]");
       Chr (ch "("); plus (not_ch ")"); Chr (ch ")")].

(** [/(\*\*|__)[^*_]+\1|(\*|_)[^*_]+\2/g], one alternative for each text
    that a group can hold. *)
Definition emphasized (mark : string) : regex :=
  seq [text (lit mark); plus (fun c => negb (one_of "*_" c)); text (lit mark)].

Definition emphasis : regex :=
  alt [emphasized "**"; emphasized "__"; emphasized "*"; emphasized "_"].

End MarkdownPatterns.

(** [Math.min(confidence, 1)]. *)
Definition Qmin1 (confidence : Q) : Q :=
  if Qle_bool confidence 1 then confidence else 1%Q.

(** [x > y] on numbers. *)
Definition gt (x y : Q) : bool := negb (Qle_bool x y).

(** The weights of [scorer.ts]. *)
Module SCORE_WEIGHTS.
Definition exactMatch : Q := 10%Q.
Definition wordMatch : Q := 2%Q.
Definition partialMatch : Q := (1 # 2)%Q.
Definition codeBonus : Q := (12 # 10)%Q.
Definition headerBonus : Q := (13 # 10)%Q.
End SCORE_WEIGHTS.

(** ** smart-fetch: results, options and patterns *)

Inductive ContentType : Type :=
| ct_markdown | ct_html | ct_json | ct_openapi | ct_text | ct_unknown.

Inductive FetchMethod : Type := direct | openapi_spec | headless | html_extract.

Record SmartFetchResult : Type := {
  success : bool;
  fetched : option str;
  contentType : ContentType;
  method : FetchMethod;
  error : option str;
  url : str;
  specUrl : option str
}.

(** [Required<SmartFetchOptions>], without the request headers. *)
Record SmartFetchOptions : Type := {
  httpTimeout : Z;
  headlessTimeout : Z;
  tryOpenApiSpec : bool;
  useHeadlessFallback : bool;
  probeCommonEndpoints : bool
}.

Definition DEFAULT_OPTIONS : SmartFetchOptions :=
  {| httpTimeout := 10000; headlessTimeout := 30000; tryOpenApiSpec := true;
     useHeadlessFallback := true; probeCommonEndpoints := true |}.

Inductive SpecType : Type := spec_json | spec_yaml.

Record SwaggerDetectionResult : Type := {
  isSwagger : bool;
  detectedSpecUrl : option str;
  specType : option SpecType
}.

Record RenderResult : Type := {
  render_success : bool;
  render_html : option str;
  render_text : option str;
  render_error : option str
}.

(** Messages of the program that are not ASCII. *)
Definition a_tilde : N := 227%N.
Definition c_cedilla : N := 231%N.
Definition e_acute : N := 233%N.
Definition i_acute : N := 237%N.

Definition msg_not_swagger : str :=
  lit "N" ++ [a_tilde] ++ lit "o " ++ [e_acute] ++ lit " Swagger".
Definition msg_spec_not_found : str :=
  lit "Spec OpenAPI n" ++ [a_tilde] ++ lit "o encontrada".
Definition msg_no_puppeteer : str :=
  lit "Puppeteer n" ++ [a_tilde] ++ lit "o dispon" ++ [i_acute] ++ lit "vel".
Definition msg_render_failed : str :=
  lit "Falha na renderiza" ++ [c_cedilla; a_tilde] ++ lit "o".
Definition msg_unknown_error : str := lit "Erro desconhecido".

Module FetchPatterns.
Import HtmlPatterns.

Definition quote (c : N) : bool := ((c =? 34) || (c =? 39))%N.

(** [/<script[\s\S]*?<\/script>/gi] *)
Definition scripts : regex :=
  seq [text_i (lit "<script"); lazy_star any; text_i (lit "</script>")].

(** [/<style[\s\S]*?<\/style>/gi] *)
Definition styles : regex :=
  seq [text_i (lit "<style"); lazy_star any; text_i (lit "</style>")].

(** The five patterns of [spaIndicators]. *)
Definition spaIndicators : list regex :=
  [alt [text_i (lit "swagger-ui"); text_i (lit "SwaggerUIBundle")];
   alt [text_i (lit "react"); text_i (lit "vue"); text_i (lit "angular");
        text_i (lit "ember")];
   seq [text_i (lit "<div"); plus is_space; text_i (lit "id="); Chr quote;
        alt [text_i (lit "app"); text_i (lit "root")]; Chr quote];
   text_i (lit "window.__INITIAL_STATE__");
   alt [text_i (lit "data-reactroot"); text_i (lit "ng-app"); text_i (lit "v-app")]].

(** [/<(!DOCTYPE|html|head|body|div)/i] *)
Definition htmlMarker : regex :=
  Seq (Chr (ch "<"))
      (alt [text_i (lit "!DOCTYPE"); text_i (lit "html"); text_i (lit "head");
            text_i (lit "body"); text_i (lit "div")]).

(** [/^#{1,6}\s/m] *)
Definition headerLine : regex := seq [Bol true; from_to 1 6 hash; Chr is_space].

(** [swaggerUi], [redoc] and [stoplight] of [SWAGGER_PATTERNS]. *)
Definition swaggerUi : regex :=
  alt [text_i (lit "swagger-ui"); text_i (lit "swagger-ui-bundle");
       text_i (lit "SwaggerUIBundle")].
Definition redoc : regex := alt [text_i (lit "redoc"); text_i (lit "ReDoc")].
Definition stoplight : regex := text_i (lit "stoplight").

(** The six patterns of [specUrlPatterns], each with its one group set
    apart: what comes before the group, the group, what comes after. *)
Definition double_quote (c : N) : bool := (c =? 34)%N.
Definition quoted : regex := plus (fun c => negb (quote c)).
Definition colon : regex := seq [ws0; Chr (ch ":"); ws0].

Definition specUrlPatterns : list (regex * regex * regex) :=
  [(seq [text_i (lit "SwaggerUIBundle"); ws0; Chr (ch "("); ws0; Chr (ch "{");
         star (not_ch "}"); text_i (lit "url"); colon; Chr quote],
    quoted, Chr quote);
   (seq [text_i (lit "swagger-ui"); star (not_ch ">"); text_i (lit "url");
         ws0; Chr (ch "="); ws0; Chr quote],
    quoted, Chr quote);
   (seq [text_i (lit "spec"); colon; Chr quote], quoted, Chr quote);
   (seq [text_i (lit "configUrl"); colon; Chr quote], quoted, Chr quote);
   (seq [Chr double_quote; text_i (lit "url"); Chr double_quote; colon;
         Chr double_quote],
    seq [plus (fun c => negb (double_quote c)); Chr (ch ".");
         alt [text_i (lit "json"); text_i (lit "yaml"); text_i (lit "yml")]],
    Chr double_quote);
   (seq [text_i (lit "data-url"); ws0; Chr (ch "="); ws0; Chr quote],
    quoted, Chr quote)].

End FetchPatterns.

(** ** tools/search-docs.ts: configuration and output *)

Record MCPConfig : Type := {
  docsUrl : str;
  defaultMaxResults : Z
}.

Record SearchOutput : Type := {
  output_results : list str;
  total_chunks : nat;
  matched_chunks : nat;
  query : str;
  docs_url : str;
  output_error : option str
}.

(** What a call of the registered tool comes to: its arguments are checked
    against [inputSchema] before the handler runs. *)
Inductive ToolCall : Type :=
| InvalidArguments
| StructuredContent (output : SearchOutput).

Definition msg_no_results : str := lit "Nenhum resultado encontrado para a busca.".

Section Host.
Local Open Scope Q_scope.

Variable JSON_parse : str -> option json.
Variable toLowerCase : str -> str.
Variable normalizeNFD : str -> str.
Variable splitHtmlIntoChunks : str -> list str.
Variable htmlToSimpleMarkdown : str -> str.

(** *** format-detector.ts *)

Definition checkJson (content : str) : FormatDetectionResult :=
  let indicators := [] in
  let confidence := 0 in
  let startsWithJsonChar := test MarkdownPatterns.startsWithJsonChar content in
  let '(indicators, confidence) :=
    if startsWithJsonChar
    then (indicators ++ [StartsWithJsonChar], confidence + (3 # 10))
    else (indicators, confidence) in
  let '(indicators, confidence) :=
    match JSON_parse content with
    | Some _ => (indicators ++ [JsonParsed], confidence + (6 # 10))
    | None =>
        if startsWithJsonChar
        then (indicators ++ [JsonLikeButInvalid], 2 # 10)
        else (indicators, confidence)
    end in
  {| format := json_format; confidence := Qmin1 confidence; indicators := indicators |}.

Definition checkHtml (content : str) : FormatDetectionResult :=
  let indicators := [] in
  let confidence := 0 in
  let '(indicators, confidence) :=
    if test HtmlPatterns.isHtml content
    then (indicators ++ [HtmlDoctypeOrMainTag], confidence + (5 # 10))
    else (indicators, confidence) in
  let tagCount := length (match_all HtmlPatterns.allTags content) in
  let '(indicators, confidence) :=
    if (10 <? tagCount)%nat
    then (indicators ++ [HtmlTagsFound tagCount], confidence + (3 # 10))
    else if (3 <? tagCount)%nat
    then (indicators ++ [HtmlTagsFound tagCount], confidence + (15 # 100))
    else (indicators, confidence) in
  let '(indicators, confidence) :=
    if test HtmlPatterns.headerTags content
    then (indicators ++ [HtmlHeaders], confidence + (1 # 10))
    else (indicators, confidence) in
  let '(indicators, confidence) :=
    if test HtmlPatterns.paragraphTags content
    then (indicators ++ [HtmlParagraphs], confidence + (1 # 10))
    else (indicators, confidence) in
  {| format := html; confidence := Qmin1 confidence; indicators := indicators |}.

Definition checkMarkdown (content : str) : FormatDetectionResult :=
  let indicators := [] in
  let confidence := 0 in
  let '(indicators, confidence) :=
    if test Patterns.hasHeader content
    then (indicators ++ [MarkdownHeaders], confidence + (3 # 10))
    else (indicators, confidence) in
  let fencedCodeBlocks := match_all MarkdownPatterns.fencedCodeBlocks content in
  let '(indicators, confidence) :=
    if (0 <? length fencedCodeBlocks)%nat
    then (indicators ++ [FencedCodeBlocks (length fencedCodeBlocks)], confidence + (25 # 100))
    else (indicators, confidence) in
  let listItems := match_all MarkdownPatterns.listItems content in
  let '(indicators, confidence) :=
    if (2 <? length listItems)%nat
    then (indicators ++ [ListItems (length listItems)], confidence + (15 # 100))
    else (indicators, confidence) in
  let links := match_all MarkdownPatterns.links content in
  let '(indicators, confidence) :=
    if (0 <? length links)%nat
    then (indicators ++ [MarkdownLinks (length links)], confidence + (15 # 100))
    else (indicators, confidence) in
  let emphasis := match_all MarkdownPatterns.emphasis content in
  let '(indicators, confidence) :=
    if (0 <? length emphasis)%nat
    then (indicators ++ [Emphasis], confidence + (1 # 10))
    else (indicators, confidence) in
  let '(indicators, confidence) :=
    if test Patterns.horizontalRules content
    then (indicators ++ [HorizontalRules], confidence + (1 # 10))
    else (indicators, confidence) in
  {| format := markdown; confidence := Qmin1 confidence; indicators := indicators |}.

Definition textFallback : FormatDetectionResult :=
  {| format := text_format; confidence := 5 # 10; indicators := [NoSpecificFormat] |}.

Definition detectDocumentFormat (document : str) : FormatDetectionResult :=
  let trimmed := trim document in
  let jsonResult := checkJson trimmed in
  if gt (confidence jsonResult) (8 # 10) then jsonResult
  else
    let htmlResult := checkHtml trimmed in
    if gt (confidence htmlResult) (6 # 10) then htmlResult
    else
      let markdownResult := checkMarkdown trimmed in
      if gt (confidence markdownResult) (5 # 10) then markdownResult
      else textFallback.

(** *** chunker.ts: the choice of a chunking strategy *)

Record ChunkingOptions : Type := {
  forceFormat : option DocumentFormat;
  enableHtmlFallback : option bool;
  enableJsonFallback : option bool
}.

Definition default {A} (d : A) (o : option A) : A :=
  match o with Some x => x | None => d end.

Definition detectFormat (document : str) (enableHtml enableJson : bool) : DocumentFormat :=
  let detection := detectDocumentFormat document in
  if DocumentFormat_eqb (format detection) html && enableHtml
     && gt (confidence detection) (5 # 10)
  then html
  else if DocumentFormat_eqb (format detection) json_format && enableJson
          && gt (confidence detection) (7 # 10)
  then json_format
  else format detection.

Definition splitHtmlDocument (document : str) : list str :=
  let chunks := splitHtmlIntoChunks document in
  if (length chunks <=? 1)%nat && (MAX_CHUNK_SIZE <? length document)%nat
  then splitMarkdownDocument (htmlToSimpleMarkdown document)
  else chunks.

Definition json_truthy (v : json) : bool :=
  match v with
  | JNull => false
  | JBool b => b
  | JNumber q => negb (Qeq_bool q 0)
  | JString s => truthy s
  | JArray _ | JObject _ => true
  end.

Definition textFields : list str :=
  map lit ["content"; "text"; "body"; "description"; "summary"; "documentation";
           "docs"; "readme"; "markdown"; "html"; "title"; "name"]%string.

Definition str_eqb (x y : str) : bool :=
  (length x =? length y)%nat && starts_with x y.

Fixpoint property {A} (field : str) (record : list (str * A)) : option A :=
  match record with
  | [] => None
  | (k, v) :: record' => if str_eqb k field then Some v else property field record'
  end.

Definition paragraph_break : str := [LF; LF].

(** [extractJsonTextContent]; a field is read after the text of every value
    has been extracted, which for a function without effects is the same. *)
Fixpoint extractJsonTextContent (obj : json) (depth : nat) : str :=
  if (10 <? depth)%nat then []
  else
    match obj with
    | JString s => s
    | JArray items =>
        join paragraph_break
          (map (fun item => extractJsonTextContent item (S depth)) items)
    | JObject fields =>
        let contents :=
          map (fun kv => let '(k, v) := kv in
                         (k, (json_truthy v, extractJsonTextContent v (S depth))))
              fields in
        let known :=
          flat_map (fun field =>
                      match property field contents with
                      | Some (true, content) => if truthy content then [content] else []
                      | _ => []
                      end) textFields in
        let parts :=
          if (length known =? 0)%nat
          then List.filter truthy (map (fun kc => snd (snd kc)) contents)
          else known in
        join paragraph_break parts
    | _ => []
    end.

Definition splitJsonDocument (document : str) : list str :=
  match JSON_parse document with
  | Some parsed =>
      let textContent := extractJsonTextContent parsed 0 in
      if truthy textContent then splitMarkdownDocument textContent
      else splitMarkdownDocument document
  | None => splitMarkdownDocument document
  end.

Definition splitIntoChunks (document : str) (options : ChunkingOptions) : list str :=
  let format :=
    match forceFormat options with
    | Some f => f
    | None => detectFormat document (default true (enableHtmlFallback options))
                           (default true (enableJsonFallback options))
    end in
  match format with
  | html => splitHtmlDocument document
  | json_format => splitJsonDocument document
  | _ => splitMarkdownDocument document
  end.

(** *** scorer.ts *)

Definition num (n : nat) : Q := inject_Z (Z.of_nat n).

(** [[\u0300-\u036f]] *)
Definition combining_mark (c : N) : bool := between 768 879 c.

(** [[^\w\s]] *)
Definition punctuation (c : N) : bool := negb (is_word c || is_space c).

Definition normalizeText (text : str) : str :=
  trim
    (replace_all (plus is_space) (lit " ")
       (replace_all (Chr punctuation) (lit " ")
          (replace_all (Chr combining_mark) []
             (normalizeNFD (toLowerCase text))))).

(** [new RegExp(`\\b${escapeRegex(word)}\\b`, "gi")]: [escapeRegex] puts a
    backslash before each of the characters that a pattern reads as syntax,
    so that the pattern stands for the text of [word]. *)
Definition exactRegex (word : str) : regex := seq [WordB; text_i word; WordB].

(** [new RegExp(`\\b${escapeRegex(word)}`, "gi")] *)
Definition partialRegex (word : str) : regex := seq [WordB; text_i word].

Definition space_separator : str := lit " ".

Definition calculateWordMatchScore (normalizedChunk normalizedTerm : str) : Q :=
  let words := split_str space_separator normalizedTerm in
  fold_left
    (fun score word =>
       if (length word <? 2)%nat then score
       else
         let exactMatches := match_all (exactRegex word) normalizedChunk in
         let score := score + num (length exactMatches) * SCORE_WEIGHTS.wordMatch in
         let partialMatches := match_all (partialRegex word) normalizedChunk in
         score + num (length partialMatches) * SCORE_WEIGHTS.partialMatch)
    words 0.

Definition applyBonuses (chunk : str) (score : Q) : Q :=
  let finalScore := score in
  let finalScore :=
    if test Patterns.codeBlock chunk then finalScore * SCORE_WEIGHTS.codeBonus
    else finalScore in
  let finalScore :=
    if test Patterns.hasHeader chunk then finalScore * SCORE_WEIGHTS.headerBonus
    else finalScore in
  finalScore.

(** One turn of the loop over [searchTerms]. *)
Definition scoreTerm (normalizedChunk : str) (score : Q) (term : str) : Q :=
  let normalizedTerm := normalizeText term in
  if negb (truthy normalizedTerm) then score
  else
    let score :=
      if includes normalizedChunk normalizedTerm
      then score + SCORE_WEIGHTS.exactMatch
                   * num (length (split_str space_separator normalizedTerm))
      else score in
    score + calculateWordMatchScore normalizedChunk normalizedTerm.

Definition calculateRelevanceScore (chunk : str) (searchTerms : list str) : Q :=
  let normalizedChunk := normalizeText chunk in
  let score := fold_left (scoreTerm normalizedChunk) searchTerms 0 in
  applyBonuses chunk score.

Definition extractSearchTerms (query : str) : list str :=
  let words := List.filter (fun word => (2 <? length word)%nat)
                           (split (plus is_space) query) in
  query :: words.

(** *** index.ts *)

Record DocChunk : Type := {
  content : str;
  index : nat;
  score : Q
}.

Record SearchResult : Type := {
  results : list str;
  totalChunks : nat;
  matchedChunks : nat
}.

Record SearchOptions : Type := {
  maxResults : option Z;
  chunking : ChunkingOptions
}.

(** [chunks.map((content, index) => ...)] *)
Fixpoint mapi {A B} (f : A -> nat -> B) (i : nat) (l : list A) : list B :=
  match l with
  | [] => []
  | x :: l' => f x i :: mapi f (S i) l'
  end.

(** [sort((a, b) => b.score - a.score)]: a stable sort, highest score
    first. *)
Fixpoint insert_by_score (x : DocChunk) (sorted : list DocChunk) : list DocChunk :=
  match sorted with
  | [] => [x]
  | y :: sorted' =>
      if Qle_bool (score y) (score x) then x :: sorted
      else y :: insert_by_score x sorted'
  end.

Definition sort_by_score (l : list DocChunk) : list DocChunk :=
  fold_right insert_by_score [] l.

(** The state of the loop of [selectBestResults]. *)
Record Selecting : Type := {
  selected : list str;
  usedIndices : gset nat
}.

(** One turn of the loop; [None] is [break]. *)
Definition select (chunks : list str) (maxResults : Z) (st : Selecting)
    (chunk : DocChunk) : option Selecting :=
  if (maxResults <=? Z.of_nat (length (selected st)))%Z then None
  else if decide (index chunk ∈ usedIndices st) then Some st
  else
    let used := {[index chunk]} ∪ usedIndices st in
    let used := if (0 <? index chunk)%nat then {[(index chunk - 1)%nat]} ∪ used else used in
    let used :=
      if (index chunk <? length chunks - 1)%nat
      then {[(index chunk + 1)%nat]} ∪ used else used in
    Some {| selected := selected st ++ [getExpandedContext chunks (index chunk)];
            usedIndices := used |}.

Fixpoint selecting (chunks : list str) (maxResults : Z)
    (relevantChunks : list DocChunk) (st : Selecting) : Selecting :=
  match relevantChunks with
  | [] => st
  | chunk :: rest =>
      match select chunks maxResults st chunk with
      | None => st
      | Some st' => selecting chunks maxResults rest st'
      end
  end.

Definition selectBestResults (chunks : list str) (relevantChunks : list DocChunk)
    (maxResults : Z) : list str :=
  selected (selecting chunks maxResults relevantChunks
              {| selected := []; usedIndices := ∅ |}).

Definition scoredChunks (chunks : list str) (searchTerms : list str) : list DocChunk :=
  mapi (fun content index =>
          {| content := content; index := index;
             score := calculateRelevanceScore content searchTerms |}) 0 chunks.

Definition relevantChunks (chunks : list str) (searchTerms : list str) : list DocChunk :=
  sort_by_score (List.filter (fun chunk => gt (score chunk) 0)
                             (scoredChunks chunks searchTerms)).

Definition searchInDocs (document searchQuery : str) (options : SearchOptions)
    : SearchResult :=
  let maxResults := default 3%Z (maxResults options) in
  let chunks := splitIntoChunks document (chunking options) in
  let searchTerms := extractSearchTerms searchQuery in
  let relevant := relevantChunks chunks searchTerms in
  let results := selectBestResults chunks relevant maxResults in
  {| results := results;
     totalChunks := length chunks;
     matchedChunks := length relevant |}.

Definition noChunkingOptions : ChunkingOptions :=
  {| forceFormat := None; enableHtmlFallback := None; enableJsonFallback := None |}.

Definition searchInDocsLegacy (document searchQuery : str) (maxResults : option Z)
    : SearchResult :=
  searchInDocs document searchQuery
    {| maxResults := maxResults; chunking := noChunkingOptions |}.

(** *** smart-fetch: the decision pipeline of [smartFetch] *)

Section SmartFetch.
Local Open Scope result_scope.

(** The network and the modules around the pipeline.  A response body is a
    [json] value: a [JString] when the client hands over text. *)
Variable client_get : str -> Z -> result json.
Variable axios_get : str -> Z -> result json.
Variable JSON_stringify : json -> str.
Variable openApiToMarkdown : json -> result str.
Variable URL_href : str -> str -> option str.
Variable probeCommonSpecEndpoints : str -> Z -> result (option (str * SpecType)).
Variable isPuppeteerAvailable : bool.
Variable renderSwaggerPage : str -> Z -> RenderResult.

Definition isValidJson (s : str) : bool :=
  match JSON_parse s with Some _ => true | None => false end.

Definition detectContentType (content : str) : ContentType :=
  let trimmed := trim content in
  if (starts_with (lit "{") trimmed || starts_with (lit "[") trimmed)
     && isValidJson trimmed
  then ct_json
  else if test FetchPatterns.htmlMarker trimmed then ct_html
  else if test FetchPatterns.headerLine trimmed
          || test MarkdownPatterns.fencedCodeBlocks trimmed
  then ct_markdown
  else ct_text.

(** [obj.field], for a field that no prototype defines. *)
Definition field (name : string) (obj : json) : option json :=
  match obj with
  | JObject fields => property (lit name) fields
  | _ => None
  end.

Definition field_truthy (name : string) (obj : json) : bool :=
  match field name obj with Some v => json_truthy v | None => false end.

Definition version_field (name : string) (major : string) (obj : json) : bool :=
  match field name obj with
  | Some (JString s) => truthy s && starts_with (lit major) s
  | _ => false
  end.

Definition isValidOpenApiSpec (spec : json) : bool :=
  match spec with
  | JObject _ | JArray _ =>
      version_field "openapi" "3." spec
      || version_field "swagger" "2." spec
      || field_truthy "paths" spec || field_truthy "info" spec
      || field_truthy "components" spec || field_truthy "definitions" spec
  | _ => false
  end.

Definition is_object (data : json) : bool :=
  match data with
  | JNull | JArray _ | JObject _ => true
  | _ => false
  end.

Definition fetchWithHttp (url : str) (opts : SmartFetchOptions)
    : result SmartFetchResult :=
  data <- client_get url (httpTimeout opts) ;;
  if is_object data then
    if isValidOpenApiSpec data then
      markdown <- openApiToMarkdown data ;;
      Return {| success := true;
                fetched := Some (if truthy markdown then markdown
                                 else JSON_stringify data);
                contentType := ct_openapi; method := direct; error := None;
                url := url; specUrl := None |}
    else
      Return {| success := true; fetched := Some (JSON_stringify data);
                contentType := ct_json; method := direct; error := None;
                url := url; specUrl := None |}
  else
    match data with
    | JString text =>
        Return {| success := true; fetched := Some text;
                  contentType := detectContentType text; method := direct;
                  error := None; url := url; specUrl := None |}
    | _ => Throw (Some (lit "content.trim is not a function"))
    end.

Definition looksLikeSpa (html : str) : bool :=
  let withoutScripts := replace_all FetchPatterns.scripts [] html in
  let withoutStyles := replace_all FetchPatterns.styles [] withoutScripts in
  let textOnly :=
    trim (replace_all (plus is_space) (lit " ")
            (replace_all HtmlPatterns.allTags (lit " ") withoutStyles)) in
  (* ratio < 0.05, where ratio = textOnly.length / html.length is NaN for the
     empty string *)
  let ratio_below := (length textOnly * 20 <? length html)%nat in
  let hasSpaIndicator := existsb (fun pattern => test pattern html)
                                 FetchPatterns.spaIndicators in
  ratio_below || hasSpaIndicator.

(** [fetchOpenApiSpec] catches whatever its request throws. *)
Definition fetchOpenApiSpec (specUrl : str) (timeout : Z) : option json :=
  try_catch
    (data <- axios_get specUrl timeout ;;
     Return
       (if is_object data then
          match data with JNull => None | _ => Some data end
        else
          match data with
          | JString text =>
              match JSON_parse text with
              | Some parsed => Some parsed
              | None => Some (JObject [(lit "_rawYaml", JString text)])
              end
          | _ => None
          end))
    (fun _ => None).

(** [resolveUrl]: [new URL(url, baseUrl).href], or [url] as it is when that
    throws. *)
Definition resolveUrl (url baseUrl : str) : str :=
  default url (URL_href url baseUrl).

Definition ends_with (suffix s : str) : bool :=
  starts_with (rev suffix) (rev s).

Definition getSpecType (url : str) : SpecType :=
  if ends_with (lit ".yaml") url || ends_with (lit ".yml") url then spec_yaml
  else spec_json.

Definition extractSpecUrl (html pageUrl : str) : option (str * SpecType) :=
  match flat_map (fun pattern =>
                    match match_group pattern html with
                    | Some found => if truthy found then [found] else []
                    | None => []
                    end) FetchPatterns.specUrlPatterns with
  | found :: _ =>
      let specUrl := resolveUrl found pageUrl in
      Some (specUrl, getSpecType specUrl)
  | [] => None
  end.

Definition detectSwagger (html pageUrl : str) : SwaggerDetectionResult :=
  let isSwagger :=
    test FetchPatterns.swaggerUi html || test FetchPatterns.redoc html
    || test FetchPatterns.stoplight html in
  if negb isSwagger
  then {| isSwagger := false; detectedSpecUrl := None; specType := None |}
  else
    match extractSpecUrl html pageUrl with
    | Some (specUrl, specType) =>
        {| isSwagger := true; detectedSpecUrl := Some specUrl;
           specType := Some specType |}
    | None => {| isSwagger := true; detectedSpecUrl := None; specType := None |}
    end.

Definition failed (m : FetchMethod) (message : str) (url : str) : SmartFetchResult :=
  {| success := false; fetched := None; contentType := ct_unknown; method := m;
     error := Some message; url := url; specUrl := None |}.

Definition openapi_result (url : str) (markdown : str) (specUrl : str)
    : SmartFetchResult :=
  {| success := true; fetched := Some markdown; contentType := ct_openapi;
     method := openapi_spec; error := None; url := url; specUrl := Some specUrl |}.

(** The spec that [fetchOpenApiSpec] gave, when it is there and valid. *)
Definition valid_spec (spec : option json) : option json :=
  match spec with
  | Some s => if isValidOpenApiSpec s then Some s else None
  | None => None
  end.

Definition truthy_url (u : option str) : option str :=
  match u with
  | Some s => if truthy s then Some s else None
  | None => None
  end.

Definition tryProbe (url : str) (opts : SmartFetchOptions) : result SmartFetchResult :=
  if probeCommonEndpoints opts then
    probeResult <- probeCommonSpecEndpoints url (httpTimeout opts / 2) ;;
    match probeResult with
    | Some (probedUrl, _) =>
        match valid_spec (fetchOpenApiSpec probedUrl (httpTimeout opts)) with
        | Some spec =>
            markdown <- openApiToMarkdown spec ;;
            Return (openapi_result url markdown probedUrl)
        | None => Return (failed openapi_spec msg_spec_not_found url)
        end
    | None => Return (failed openapi_spec msg_spec_not_found url)
    end
  else Return (failed openapi_spec msg_spec_not_found url).

Definition trySwaggerExtraction (url html : str) (opts : SmartFetchOptions)
    : result SmartFetchResult :=
  let detection := detectSwagger html url in
  if negb (isSwagger detection) then Return (failed openapi_spec msg_not_swagger url)
  else
    match truthy_url (detectedSpecUrl detection) with
    | Some detectedUrl =>
        match valid_spec (fetchOpenApiSpec detectedUrl (httpTimeout opts)) with
        | Some spec =>
            markdown <- openApiToMarkdown spec ;;
            Return (openapi_result url markdown detectedUrl)
        | None => tryProbe url opts
        end
    | None => tryProbe url opts
    end.

Definition tryHeadlessRender (url : str) (opts : SmartFetchOptions)
    : result SmartFetchResult :=
  if negb isPuppeteerAvailable then Return (failed headless msg_no_puppeteer url)
  else
    let result := renderSwaggerPage url (headlessTimeout opts) in
    match render_success result, truthy_url (render_text result) with
    | true, Some text =>
        Return {| success := true; fetched := Some text; contentType := ct_text;
                  method := headless; error := None; url := url; specUrl := None |}
    | _, _ =>
        Return (failed headless
                  (default msg_render_failed (truthy_url (render_error result))) url)
    end.

(** [if (enabled) { const r = await strategy; if (r.success) return r; }]:
    the result that the pipeline returns at this step, if any. *)
Definition attempt (enabled : bool) (strategy : result SmartFetchResult)
    : result (option SmartFetchResult) :=
  if enabled then
    r <- strategy ;;
    Return (if success r then Some r else None)
  else Return None.

Definition ContentType_eqb (x y : ContentType) : bool :=
  match x, y with
  | ct_markdown, ct_markdown | ct_html, ct_html | ct_json, ct_json
  | ct_openapi, ct_openapi | ct_text, ct_text | ct_unknown, ct_unknown => true
  | _, _ => false
  end.

(** The body of the [try] of [smartFetch]. *)
Definition smartFetch_body (url : str) (opts : SmartFetchOptions)
    : result SmartFetchResult :=
  httpResult <- fetchWithHttp url opts ;;
  let html := default [] (fetched httpResult) in
  if negb (ContentType_eqb (contentType httpResult) ct_html)
     || negb (looksLikeSpa html)
  then Return httpResult
  else
    swaggerResult <-
      attempt (tryOpenApiSpec opts) (trySwaggerExtraction url html opts) ;;
    match swaggerResult with
    | Some r => Return r
    | None =>
        headlessResult <-
          attempt (useHeadlessFallback opts) (tryHeadlessRender url opts) ;;
        match headlessResult with
        | Some r => Return r
        | None => Return httpResult
        end
    end.

Definition smartFetch (url : str) (opts : SmartFetchOptions) : SmartFetchResult :=
  try_catch (smartFetch_body url opts)
    (fun thrown =>
       {| success := false; fetched := None; contentType := ct_unknown;
          method := direct; error := Some (default msg_unknown_error thrown);
          url := url; specUrl := None |}).

End SmartFetch.

(** *** tools/search-docs.ts *)

Section Tool.

Variable config : MCPConfig.
Variable fetchDocument : str -> result str.
Variable formatHttpError : option str -> str -> str.

(** A number where [searchInDocs] takes its options: the destructuring
    [{ maxResults = 3, ...chunkingOptions } = options] finds no property
    [maxResults] on it and no option of the chunking, whatever the number. *)
Definition options_of_number (n : Z) : SearchOptions :=
  {| maxResults := None; chunking := noChunkingOptions |}.

(** The handler registered for [search_docs]; of what it returns, the
    [structuredContent].  It calls [searchInDocs(document, search,
    maxResults)], with the number in the place of the options. *)
Definition search_docs_handler (search : str) (max_results : option Z) : SearchOutput :=
  let maxResults := default (defaultMaxResults config) max_results in
  let docsUrl := docsUrl config in
  try_catch
    (bind (fetchDocument docsUrl) (fun document =>
       let found := searchInDocs document search (options_of_number maxResults) in
       Return {| output_results :=
                   if (0 <? length (results found))%nat then results found
                   else [msg_no_results];
                 total_chunks := totalChunks found;
                 matched_chunks := matchedChunks found;
                 query := search;
                 docs_url := docsUrl;
                 output_error := None |}))
    (fun thrown =>
       {| output_results := []; total_chunks := 0; matched_chunks := 0;
          query := search; docs_url := docsUrl;
          output_error := Some (formatHttpError thrown docsUrl) |}).

(** [inputSchema]: [search: z.string().min(1)] and
    [max_results: z.number().min(1).max(10).optional()]. *)
Definition inputSchema (search : str) (max_results : option Z) : bool :=
  (1 <=? length search)%nat
  && match max_results with
     | Some n => (1 <=? n)%Z && (n <=? 10)%Z
     | None => true
     end.

Definition search_docs (search : str) (max_results : option Z) : ToolCall :=
  if inputSchema search max_results
  then StructuredContent (search_docs_handler search max_results)
  else InvalidArguments.

End Tool.

End Host.

(** ** A host for ASCII text

    On strings of code units below 128, [toLowerCase] maps [A-Z] to [a-z]
    and NFD normalization changes nothing.  This host does that on every
    string; it stands in where the program is run on ASCII text.  Its
    [JSON.parse] accepts nothing, and its HTML chunker cuts nothing. *)

Module AsciiHost.

Definition toLowerCase (s : str) : str :=
  map (fun c => if is_upper c then (c + 32)%N else c) s.

Definition normalizeNFD (s : str) : str := s.

Definition JSON_parse (s : str) : option json := None.

Definition splitHtmlIntoChunks (s : str) : list str := [s].

Definition htmlToSimpleMarkdown (s : str) : str := s.

Definition splitIntoChunks : str -> ChunkingOptions -> list str :=
  splitIntoChunks JSON_parse splitHtmlIntoChunks htmlToSimpleMarkdown.

Definition normalizeText : str -> str := normalizeText toLowerCase normalizeNFD.

Definition scoreTerm : str -> Q -> str -> Q := scoreTerm toLowerCase normalizeNFD.

Definition calculateRelevanceScore : str -> list str -> Q :=
  calculateRelevanceScore toLowerCase normalizeNFD.

Definition scoredChunks : list str -> list str -> list DocChunk :=
  scoredChunks toLowerCase normalizeNFD.

Definition relevantChunks : list str -> list str -> list DocChunk :=
  relevantChunks toLowerCase normalizeNFD.

Definition searchInDocs : str -> str -> SearchOptions -> SearchResult :=
  searchInDocs JSON_parse toLowerCase normalizeNFD splitHtmlIntoChunks
    htmlToSimpleMarkdown.

End AsciiHost.

(** * More of the code

    Functions of the files above, and of the configuration, the HTTP client
    and the Swagger detector, that the search and the fetch pipeline use or
    export. *)

(** ** format-detector.ts: the exported predicates *)

Section FormatPredicates.
Local Open Scope Q_scope.

Variable JSON_parse : str -> option json.

Definition isHtmlDocument (document : str) : bool :=
  let result := detectDocumentFormat JSON_parse document in
  DocumentFormat_eqb (format result) html && gt (confidence result) (5 # 10).

Definition isJsonDocument (document : str) : bool :=
  let result := detectDocumentFormat JSON_parse document in
  DocumentFormat_eqb (format result) json_format && gt (confidence result) (7 # 10).

Definition isMarkdownDocument (document : str) : bool :=
  let result := detectDocumentFormat JSON_parse document in
  DocumentFormat_eqb (format result) markdown && gt (confidence result) (4 # 10).

End FormatPredicates.

(** ** html-chunker.ts: grouping and tag stripping *)

Module HtmlChunker.

Inductive SectionType : Type :=
| header_section | paragraph_section | list_section | code_section | text_section.

(** [interface HtmlSection] *)
Record HtmlSection : Type := {
  type : SectionType;
  content : str;
  level : option nat
}.

(** [stripTags] *)
Definition stripTags (html : str) : str := replace_all HtmlPatterns.allTags [] html.

(** One turn of the loop of [groupTextIntoChunks]; the state is [chunks] and
    [currentChunk]. *)
Definition groupText (st : list str * str) (text : str) : list str * str :=
  let '(chunks, currentChunk) := st in
  let separator := if truthy currentChunk then lit " " else [] in
  let wouldExceed :=
    (MAX_CHUNK_SIZE <? length (currentChunk ++ separator ++ text))
    && truthy currentChunk in
  if wouldExceed then (chunks ++ [trim currentChunk], text)
  else (chunks, currentChunk ++ separator ++ text).

(** The last [push], of the chunk in hand when it is not blank. *)
Definition flush (st : list str * str) : list str :=
  let '(chunks, currentChunk) := st in
  if truthy (trim currentChunk) then chunks ++ [trim currentChunk] else chunks.

Definition groupTextIntoChunks (texts : list str) : list str :=
  flush (fold_left groupText texts ([], [])).

Definition subdivideContent (content : str) : list str :=
  let paragraphs := List.filter nonblank (split Patterns.paragraphs content) in
  if 1 <? length paragraphs then groupTextIntoChunks paragraphs
  else
    let sentences := List.filter nonblank (split Patterns.sentences content) in
    groupTextIntoChunks sentences.

(** One turn of the loop of [groupSectionsIntoChunks]. *)
Definition groupSection (st : list str * str) (section : HtmlSection)
    : list str * str :=
  let '(chunks, currentChunk) := st in
  let content := content section in
  if MAX_CHUNK_SIZE <? length content then
    let '(chunks, currentChunk) :=
      if truthy (trim currentChunk) then (chunks ++ [trim currentChunk], [])
      else (chunks, currentChunk) in
    (chunks ++ subdivideContent content, currentChunk)
  else
    let separator := if truthy currentChunk then [LF; LF] else [] in
    let wouldExceed :=
      MAX_CHUNK_SIZE <? length (currentChunk ++ separator ++ content) in
    if wouldExceed && truthy (trim currentChunk)
    then (chunks ++ [trim currentChunk], content)
    else (chunks, currentChunk ++ separator ++ content).

Definition groupSectionsIntoChunks (sections : list HtmlSection) : list str :=
  flush (fold_left groupSection sections ([], [])).

End HtmlChunker.

(** ** config/index.ts *)

Module Config.

(** A number that [parseInt] gives: an integer, or [NaN] ([None]).  An
    integer that no double holds stands for the double nearest to it; the
    comparisons below are with 1, 10 and 1000, which rounding leaves in
    place. *)
Definition number : Type := option Z.

Definition digits_value (digits : str) : Z :=
  fold_left (fun value d => (value * 10 + (Z.of_N d - 48))%Z) digits 0%Z.

(** The longest prefix of code units in a class. *)
Fixpoint leading (p : N -> bool) (s : str) : str :=
  match s with
  | c :: s' => if p c then c :: leading p s' else []
  | [] => []
  end.

(** [parseInt(s, 10)]: white space is skipped, then a sign is read, then the
    digits as far as they go; [NaN] when there is none. *)
Definition parseInt (s : str) : number :=
  let s := trimStart s in
  let '(sign, s) :=
    match s with
    | c :: s' => if ch "-" c then ((-1)%Z, s')
                 else if ch "+" c then (1%Z, s') else (1%Z, s)
    | [] => (1%Z, s)
    end in
  let digits := leading is_digit s in
  if truthy digits then Some (sign * digits_value digits)%Z else None.

(** [Math.max] and [Math.min]; [NaN] when an argument is. *)
Definition Math_max (x : number) (y : Z) : number := option_map (fun x => Z.max x y) x.
Definition Math_min (x : number) (y : Z) : number := option_map (fun x => Z.min x y) x.

Definition clamp (value : number) (min max : Z) : number :=
  Math_min (Math_max value min) max.

(** [maskToken] *)
Definition maskToken (token : str) : str :=
  if length token <=? 14 then lit "***"
  else firstn 10 token ++ lit "..." ++ skipn (length token - 4) token.

(** [interface MCPConfig] *)
Record MCPConfig : Type := {
  docsUrl : str;
  jwtToken : str;
  defaultMaxResults : number;
  requestTimeout : number
}.

(** The variables of [process.env] that [loadConfig] reads. *)
Record Environment : Type := {
  MCP_DOCS_URL : option str;
  MCP_JWT_TOKEN : option str;
  MCP_DEFAULT_MAX_RESULTS : option str;
  MCP_REQUEST_TIMEOUT : option str
}.

(** [value || fallback] on a string that may be [undefined]. *)
Definition or_else (value : option str) (fallback : str) : str :=
  match value with
  | Some s => if truthy s then s else fallback
  | None => fallback
  end.

Definition falsy (value : option str) : bool :=
  match value with Some s => negb (truthy s) | None => true end.

Definition err_docs_url : str :=
  lit "MCP_DOCS_URL n" ++ [a_tilde] ++ lit "o configurada - URL da documenta"
  ++ [c_cedilla; a_tilde] ++ lit "o".
Definition err_jwt_token : str :=
  lit "MCP_JWT_TOKEN n" ++ [a_tilde] ++ lit "o configurado - Token de autentica"
  ++ [c_cedilla; a_tilde] ++ lit "o".

(** What [loadConfig] does: it returns a configuration, or lists the errors
    on the console, in a frame, and calls [process.exit(1)]. *)
Inductive Loading : Type :=
| Exit (code : Z) (errors : list str)
| Loaded (config : MCPConfig).

Definition loadConfig (env : Environment) : Loading :=
  let docsUrl := MCP_DOCS_URL env in
  let jwtToken := MCP_JWT_TOKEN env in
  let defaultMaxResults := parseInt (or_else (MCP_DEFAULT_MAX_RESULTS env) (lit "3")) in
  let requestTimeout := parseInt (or_else (MCP_REQUEST_TIMEOUT env) (lit "10000")) in
  let errors := [] in
  let errors := if falsy docsUrl then errors ++ [err_docs_url] else errors in
  let errors := if falsy jwtToken then errors ++ [err_jwt_token] else errors in
  if 0 <? length errors then Exit 1 errors
  else
    Loaded {| docsUrl := default [] docsUrl;
              jwtToken := default [] jwtToken;
              defaultMaxResults := clamp defaultMaxResults 1 10;
              requestTimeout := Math_max requestTimeout 1000 |}.

End Config.

(** ** swagger-detector.ts: probing the common endpoints *)

Module SwaggerDetector.

(** Of a [URL], what the detector reads. *)
Record URL : Type := {
  origin : str;
  pathname : str
}.

Definition ROOT_SPEC_ENDPOINTS : list str :=
  map lit ["/swagger.json"; "/swagger.yaml"; "/openapi.json"; "/openapi.yaml";
           "/docs.json"; "/spec.json"; "/api-docs"; "/api-docs.json";
           "/api-docs.yaml"; "/v3/api-docs"; "/v3/api-docs.json"; "/v2/api-docs";
           "/v2/api-docs.json"; "/docs/openapi.json"; "/docs/swagger.json";
           "/api/swagger.json"; "/api/openapi.json"; "/api/docs.json";
           "/.well-known/openapi.json"; "/.well-known/openapi.yaml"]%string.

Definition RELATIVE_SPEC_SUFFIXES : list str :=
  map lit ["docs.json"; "swagger.json"; "openapi.json"; "spec.json";
           "api-docs.json"; "docs.yaml"; "swagger.yaml"; "openapi.yaml";
           "../swagger.json"; "../openapi.json"; "../docs.json";
           "../api-docs.json"]%string.

(** [[...new Set(urls)]]: the first occurrence of each string, in order. *)
Fixpoint unique (seen : list str) (l : list str) : list str :=
  match l with
  | [] => []
  | x :: l' =>
      if existsb (str_eqb x) seen then unique seen l'
      else x :: unique (x :: seen) l'
  end.

Definition slash : str := lit "/".

Definition generateSpecUrls (base : URL) : list str :=
  let origin := origin base in
  let pathname := pathname base in
  let pathname :=
    if (1 <? length pathname) && ends_with slash pathname
    then removelast pathname else pathname in
  let pathParts := List.filter truthy (split_str slash pathname) in
  let urls :=
    map (fun suffix =>
           if starts_with (lit "../") suffix then
             let parentPath := join slash (removelast pathParts) in
             let file := skipn 3 suffix in
             origin ++ slash ++ parentPath ++ slash ++ file
           else origin ++ pathname ++ slash ++ suffix)
        RELATIVE_SPEC_SUFFIXES in
  let urls :=
    if 0 <? length pathParts then
      let basePath := join slash (removelast pathParts) in
      urls ++ map (fun file => origin ++ slash ++ basePath ++ slash ++ file)
                  (map lit ["swagger.json"; "openapi.json"; "docs.json";
                            "api-docs.json"; "spec.json"]%string)
    else urls in
  let urls :=
    if 2 <=? length pathParts then
      let versionPath := join slash (firstn 2 pathParts) in
      urls ++ map (fun file => origin ++ slash ++ versionPath ++ slash ++ file)
                  (map lit ["swagger.json"; "openapi.json"; "docs.json";
                            "api-docs.json"]%string)
    else urls in
  unique [] urls.

Section Probe.

(** [axios.head(specUrl, { timeout, validateStatus })]: the [content-type]
    header of the response, if it has one; it throws when the request fails
    or the status is not 200. *)
Variable axios_head : str -> Z -> result (option str).

(** [new URL(baseUrl)], which throws on what is no URL. *)
Variable URL_parse : str -> option URL.

Definition tryFetchSpec (specUrl : str) (timeout : Z) : option (str * SpecType) :=
  try_catch
    (bind (axios_head specUrl timeout) (fun header =>
       let contentType := default [] header in
       Return
         (if includes contentType (lit "json") || includes contentType (lit "yaml")
             || includes contentType (lit "yml")
          then Some (specUrl,
                     if includes contentType (lit "yaml")
                        || includes contentType (lit "yml")
                     then spec_yaml else spec_json)
          else if ends_with (lit ".json") specUrl then Some (specUrl, spec_json)
          else if ends_with (lit ".yaml") specUrl || ends_with (lit ".yml") specUrl
          then Some (specUrl, spec_yaml)
          else None)))
    (fun _ => None).

(** [for (const specUrl of urls) { const result = await tryFetchSpec(...);
    if (result) return result; }] *)
Fixpoint firstSpec (urls : list str) (timeout : Z) : option (str * SpecType) :=
  match urls with
  | [] => None
  | specUrl :: rest =>
      match tryFetchSpec specUrl timeout with
      | Some found => Some found
      | None => firstSpec rest timeout
      end
  end.

Definition probeCommonSpecEndpoints (baseUrl : str) (timeout : Z)
    : result (option (str * SpecType)) :=
  match URL_parse baseUrl with
  | None => Throw (Some (lit "Invalid URL"))
  | Some base =>
      let urlsToTry := generateSpecUrls base in
      Return
        (match firstSpec urlsToTry timeout with
         | Some found => Some found
         | None =>
             firstSpec (map (fun endpoint => origin base ++ endpoint)
                            ROOT_SPEC_ENDPOINTS) timeout
         end)
  end.

End Probe.

End SwaggerDetector.

(** * Vocabulary of the properties

    The documents that the properties are tried on, and the notions in which
    they are stated and proved. *)

(** ** Documents *)

(** The document of the bearer-token scenario, and its second section. *)
Definition doc_intro_auth : str :=
  lit "# Intro
Hello world.

# Auth
Use a bearer token.".

Definition auth_section : str := lit "# Auth
Use a bearer token.".

(** A text for the normalizer. *)
Definition shouted : str := lit "  Use a  BEARER-token, now!  ".

Definition defaultSearch : SearchOptions :=
  {| maxResults := None; chunking := noChunkingOptions |}.

(** ** Runs, words and occurrences *)

(** The longest prefix of code units in a class. *)
Fixpoint run_length (p : N -> bool) (a : list N) : nat :=
  match a with
  | c :: a' => if p c then S (run_length p a') else 0
  | [] => 0
  end.

(** The words of a text: its maximal runs of code units that are not white
    space. *)
Fixpoint tokens_go (cur : list N) (s : str) : list str :=
  match s with
  | [] => match cur with [] => [] | _ => [rev cur] end
  | c :: s' =>
      if is_space c
      then match cur with
           | [] => tokens_go [] s'
           | _ => rev cur :: tokens_go [] s'
           end
      else tokens_go (c :: cur) s'
  end.

Definition tokens (s : str) : list str := tokens_go [] s.

(** Runs of white space, each replaced by one space. *)
Fixpoint collapse (in_run : bool) (s : str) : str :=
  match s with
  | [] => []
  | c :: s' =>
      if is_space c
      then if in_run then collapse true s' else 32%N :: collapse true s'
      else c :: collapse false s'
  end.

Module Words.

(** A word: not empty, no white space in it. *)
Definition word (w : str) : Prop :=
  w <> [] /\ Forall (fun c => is_space c = false) w.

(** [s.split(" ")] of words one space apart. *)
Fixpoint split_on (p : N -> bool) (piece : list N) (a : str) : list str :=
  match a with
  | [] => [rev piece]
  | c :: a' =>
      if p c then rev piece :: split_on p [] a' else split_on p (c :: piece) a'
  end.

End Words.

(** The number of positions of a text, from a position on, at which [f]
    holds. *)
Fixpoint occurrences (f : list N -> list N -> bool) (b a : list N) : nat :=
  (if f b a then 1 else 0)
  + match a with
    | c :: a' => occurrences f (c :: b) a'
    | [] => 0
    end.

(** The word stands at the position, between two word boundaries. *)
Definition occurs_exact (w : str) (b a : list N) : bool :=
  at_word_boundary b a && starts_with w a
  && at_word_boundary (rev (firstn (length w) a) ++ b) (skipn (length w) a).

(** The word stands at the position, after a word boundary. *)
Definition occurs_prefix (w : str) (b a : list N) : bool :=
  at_word_boundary b a && starts_with w a.

(** A pattern that reads neither the end of the text nor a word boundary. *)
Fixpoint open_ended (r : regex) : bool :=
  match r with
  | Eps | Chr _ | Rep _ _ _ _ | Behind _ | Bol _ => true
  | Seq r1 r2 | Alt r1 r2 => open_ended r1 && open_ended r2
  | Ahead r1 => open_ended r1
  | Eol _ | WordB => false
  end.

(** The same under the [i] flag, and what the proofs about the matcher
    speak of. *)
Module Matching.

Fixpoint starts_with_i (w a : str) : bool :=
  match w, a with
  | [], _ => true
  | x :: w', c :: a' => eq_i x c && starts_with_i w' a'
  | _ :: _, [] => false
  end.

Definition occurs_exact_i (w : str) (b a : list N) : bool :=
  at_word_boundary b a && starts_with_i w a
  && at_word_boundary (rev (firstn (length w) a) ++ b) (skipn (length w) a).

Definition occurs_prefix_i (w : str) (b a : list N) : bool :=
  at_word_boundary b a && starts_with_i w a.

(** [f] fails at the next [n] positions. *)
Fixpoint quiet (f : list N -> list N -> bool) (b a : list N) (n : nat) {struct n}
    : Prop :=
  match n with
  | O => True
  | S n' =>
      f b a = false /\
      match a with
      | c :: a' => quiet f (c :: b) a' n'
      | [] => True
      end
  end.

Definition rep_stop {R} (lo : nat) (k : @cont R) (b a : list N) : option R :=
  if lo =? 0 then k b a else None.

Definition rep_more {R} (g : bool) (p : N -> bool) (lo : nat) (hi : option nat)
    (k : @cont R) (b a : list N) : option R :=
  match a with
  | c :: a' =>
      match hi with
      | Some 0 => None
      | _ => if p c then rep g p (pred lo) (option_map pred hi) k (c :: b) a'
             else None
      end
  | [] => None
  end.

End Matching.

(** ** The chunker *)

Module SizeBound.

(** What a group of the sentence packer can be: one sentence, or a group so
    far and one more sentence that together, before the joining space is
    put between them, are within the cap. *)
Definition group (sentences : list str) (g : str) : Prop :=
  In g sentences \/
  exists g0 s, In s sentences /\ g = g0 ++ lit " " ++ s /\
               length (g0 ++ s) <= MAX_CHUNK_SIZE.

Definition packed (sentences : list str) (st : list str * str) : Prop :=
  (forall r, In r (fst st) -> exists g, group sentences g /\ r = trim g) /\
  (snd st = [] \/ group sentences (snd st)).

(** The paragraphs that [refineChunks] takes from an oversized chunk. *)
Definition paragraphsOf (chunk : str) : list str :=
  List.filter nonblank (split paragraphs chunk).

(** The ways a refined chunk can come about. *)
Definition refined_from (chunks : list str) (c : str) : Prop :=
  length c <= MAX_CHUNK_SIZE \/
  exists chunk, In chunk chunks /\ MAX_CHUNK_SIZE < length chunk /\
    ((1 < length (paragraphsOf chunk) /\ In c (paragraphsOf chunk)) \/
     (length (paragraphsOf chunk) <= 1 /\
      exists g, group (split sentences chunk) g /\ c = trim g)).

End SizeBound.

Module Coverage.

(** A text with its white space deleted. *)
Definition strip (s : str) : str := List.filter (fun c => negb (is_space c)) s.

Definition blank (s : str) : Prop := Forall (fun c => is_space c = true) s.

(** A pattern whose matches are white space only. *)
Definition blank_matches (r : regex) : Prop :=
  forall b a n, exec r b a = Some n -> n <= length a /\ blank (firstn n a).

(** The first split is the one at horizontal rules. *)
Definition splitsAtRules (document : str) : bool :=
  negb (1 <? length (List.filter nonblank (split headers document)))
  && (1 <? length (List.filter nonblank (split horizontalRules document))).

(** What the chunks stand for: the document, and when the first split is the
    one at horizontal rules, the document with every match of the pattern of
    rules taken out. *)
Definition covered (document : str) : str :=
  if splitsAtRules document then replace_all horizontalRules [] document
  else document.

(** [kept] is [chunks] in the same order without those of trimmed length
    [MIN_CHUNK_SIZE] or less, and with every other one. *)
Inductive left_out : list str -> list str -> Prop :=
| left_out_nil : left_out [] []
| left_out_keep chunk chunks kept :
    MIN_CHUNK_SIZE < length (trim chunk) -> left_out chunks kept ->
    left_out (chunk :: chunks) (chunk :: kept)
| left_out_drop chunk chunks kept :
    length (trim chunk) <= MIN_CHUNK_SIZE -> left_out chunks kept ->
    left_out (chunk :: chunks) kept.

End Coverage.

Module ChunkerCases.
Import Coverage.

(** [s.repeat(n)] *)
Fixpoint times (n : nat) (s : str) : str :=
  match n with
  | O => []
  | S n' => s ++ times n' s
  end.

(** A section of two paragraphs, the second of eighty sentences. *)
Definition long_paragraph : str := times 80 (lit "Lorem ipsum dolor sit amet. ").

Definition doc_long_paragraph : str :=
  lit "# Guide

Intro paragraph of the guide.

" ++ long_paragraph ++ lit "

# Next
Second section text here.".

(** The size bound as the specification states it: a chunk is within the cap
    unless it has no sentence boundary in it. *)
Definition size_bound_as_stated (document : str) : Prop :=
  forall c, In c (splitMarkdownDocument document) ->
            length c <= MAX_CHUNK_SIZE \/ test sentences c = false.

(** Two sentences that fill the cap between them, and a third. *)
Definition two_sentences : str :=
  times 999 (lit "a") ++ lit ". " ++ times 999 (lit "b") ++ lit "." ++ lit " c.".

(** Two parts with a horizontal rule between them. *)
Definition doc_with_rule : str :=
  lit "First part of the text.
---
Second part of the text.".

(** Coverage as the specification states it: the refined chunks, those that
    the floor then drops among them, make up the document but for white
    space. *)
Definition coverage_as_stated (document : str) : Prop :=
  strip (concat (refineChunks (initialChunks document))) = strip document.

End ChunkerCases.

(** ** Result selection *)

(** The indices of the chunks that the loop of [selectBestResults] selects,
    in the order of selection. *)
Fixpoint sources (chunks : list str) (maxResults : Z)
    (relevant : list DocChunk) (st : Selecting) : list nat :=
  match relevant with
  | [] => []
  | chunk :: rest =>
      match select chunks maxResults st chunk with
      | None => []
      | Some st' =>
          (if decide (index chunk ∈ usedIndices st) then [] else [index chunk])
          ++ sources chunks maxResults rest st'
      end
  end.

Definition nothing_selected : Selecting := {| selected := []; usedIndices := ∅ |}.

(** Two indices that are neither equal nor neighbours. *)
Definition apart (a b : nat) : Prop := a + 1 < b \/ b + 1 < a.

(** ** ASCII text and sums *)

(** A code unit below 128. *)
Definition is_ascii (c : N) : bool := (c <? 128)%N.

(** Tab, line feed, vertical tab, form feed, carriage return, space. *)
Definition ascii_space (c : N) : bool := is_space c && is_ascii c.

Definition all_ascii (l : list str) : bool := forallb (forallb is_ascii) l.

(** The sum of a list of numbers. *)
Fixpoint sumQ (l : list Q) : Q :=
  match l with
  | [] => 0%Q
  | x :: l' => (x + sumQ l')%Q
  end.

(** ** The score and the format, as the specification words them *)

Section HostVocabulary.
Local Open Scope Q_scope.

Variable JSON_parse : str -> option json.
Variable toLowerCase : str -> str.
Variable normalizeNFD : str -> str.

Local Abbreviation normalizeText := (normalizeText toLowerCase normalizeNFD).

(** The text before its white space is squeezed: lower-cased, decomposed,
    without combining marks, punctuation turned into spaces. *)
Definition raw (s : str) : str :=
  map (fun c => if punctuation c then 32%N else c)
      (List.filter (fun c => negb (combining_mark c))
                   (normalizeNFD (toLowerCase s))).

(** A word of a normalized text: not empty, of [a-z], [0-9] and [_]. *)
Definition plain_word (w : str) : Prop :=
  Words.word w /\
  Forall (fun c => is_word c = true) w /\
  Forall (fun c => is_upper c = false) w.

(** What one term adds: ten times the number of its words if the normalized
    chunk contains the normalized term, and for every word of at least two
    code units, twice its exact occurrences and half its prefix
    occurrences. *)
Definition referenceTermScore (normalizedChunk term : str) : Q :=
  let normalizedTerm := normalizeText term in
  let words := tokens normalizedTerm in
  (if includes normalizedChunk normalizedTerm
   then 10 * num (length words) else 0)
  + sumQ (map (fun word =>
                 2 * num (occurrences (occurs_exact word) [] normalizedChunk)
                 + (1 # 2) * num (occurrences (occurs_prefix word) [] normalizedChunk))
              (List.filter (fun word => (2 <=? length word)%nat) words)).

(** The sum over the terms, and the two bonuses applied once to it. *)
Definition referenceScore (chunk : str) (searchTerms : list str) : Q :=
  sumQ (map (referenceTermScore (normalizeText chunk)) searchTerms)
  * (if test codeBlock chunk then 12 # 10 else 1)
  * (if test hasHeader chunk then 13 # 10 else 1).

(** The first of the checks whose confidence is above its threshold. *)
Fixpoint first_above (checks : list (FormatDetectionResult * Q))
    (otherwise : FormatDetectionResult) : FormatDetectionResult :=
  match checks with
  | [] => otherwise
  | (result, threshold) :: rest =>
      if gt (confidence result) threshold then result
      else first_above rest otherwise
  end.

(** The confidence of the JSON check, from whether the text starts with a
    brace or a bracket and whether it parses. *)
Definition jsonConfidence (starts parses : bool) : Q :=
  if parses then (if starts then 3 # 10 else 0) + (6 # 10)
  else if starts then 2 # 10 else 0.

Definition parses (content : str) : bool :=
  match JSON_parse content with Some _ => true | None => false end.

End HostVocabulary.

(** ** Two runs of the program *)

(** A Swagger UI page whose spec has a path item that is [null]. *)
Module BrokenSpec.

Definition url : str := lit "https://api.example.com/docs".

Definition page : str :=
  lit "<html><body><div id='swagger-ui'></div><script>SwaggerUIBundle({url:'/openapi.json'})</script></body></html>".

Definition spec : json :=
  JObject [(lit "openapi", JString (lit "3.0.0"));
           (lit "paths", JObject [(lit "/pets", JNull)])].

Definition client_get (u : str) (timeout : Z) : result json :=
  if str_eqb u url then Return (JString page)
  else Throw (Some (lit "Request failed with status code 404")).

Definition axios_get (u : str) (timeout : Z) : result json :=
  if str_eqb u (lit "https://api.example.com/openapi.json") then Return spec
  else Throw (Some (lit "Request failed with status code 404")).

(** [new URL(url, baseUrl).href] for a path from the root of this site. *)
Definition URL_href (u base : str) : option str :=
  Some (lit "https://api.example.com" ++ u).

Definition is_null (v : json) : bool :=
  match v with JNull => true | _ => false end.

(** A rendering that, as [formatPaths] does, reads [pathItem[method]] of
    every path item, which throws a [TypeError] on [null]. *)
Definition openApiToMarkdown (s : json) : result str :=
  match field "paths" s with
  | Some (JObject items) =>
      if existsb (fun kv => is_null (snd kv)) items
      then Throw (Some (lit "Cannot read properties of null (reading 'get')"))
      else Return (lit "## Endpoints")
  | _ => Return []
  end.

(** Not reached on this run: the spec is rendered, not printed; the probe
    comes after the rendering that throws; no browser is installed. *)
Definition JSON_stringify (v : json) : str := lit "{}".

Definition probeCommonSpecEndpoints (u : str) (timeout : Z)
    : result (option (str * SpecType)) := Return None.

Definition renderSwaggerPage (u : str) (timeout : Z) : RenderResult :=
  {| render_success := false; render_html := None; render_text := None;
     render_error := None |}.

Definition fetchWithHttp (JSON_parse : str -> option json)
    : str -> SmartFetchOptions -> result SmartFetchResult :=
  fetchWithHttp JSON_parse client_get JSON_stringify openApiToMarkdown.

Definition smartFetch (JSON_parse : str -> option json)
    : str -> SmartFetchOptions -> SmartFetchResult :=
  smartFetch JSON_parse client_get axios_get JSON_stringify
    openApiToMarkdown URL_href probeCommonSpecEndpoints false renderSwaggerPage.

End BrokenSpec.

(** A tool that serves the document of two sections. *)
Module GuideTool.

Definition config : MCPConfig :=
  {| docsUrl := lit "https://docs.example.com/guide.md"; defaultMaxResults := 3 |}.

Definition fetchDocument (u : str) : result str := Return doc_intro_auth.

Definition formatHttpError (thrown : option str) (u : str) : str :=
  default msg_unknown_error thrown.

Definition search_docs_handler : str -> option Z -> SearchOutput :=
  search_docs_handler AsciiHost.JSON_parse AsciiHost.toLowerCase
    AsciiHost.normalizeNFD AsciiHost.splitHtmlIntoChunks
    AsciiHost.htmlToSimpleMarkdown config fetchDocument formatHttpError.

Definition search_docs : str -> option Z -> ToolCall :=
  search_docs AsciiHost.JSON_parse AsciiHost.toLowerCase AsciiHost.normalizeNFD
    AsciiHost.splitHtmlIntoChunks AsciiHost.htmlToSimpleMarkdown config
    fetchDocument formatHttpError.

End GuideTool.

(** [longer] is [chunk] with one more occurrence of [term] in it, and all
    else equal. *)
Definition adds_occurrence (term chunk longer : str) : Prop :=
  exists before after, chunk = before ++ after /\ longer = before ++ term ++ after.

(** C5 as the specification states it: wherever the occurrence is added, the
    score for the term is no lower. *)
Definition monotone_as_stated (score : str -> list str -> Q) : Prop :=
  forall chunk longer term,
    adds_occurrence term chunk longer -> (score chunk [term] <= score longer [term])%Q.

(** The last part of C8 as the specification states it: called with the
    empty query, the tool answers with the sentence that nothing was
    found. *)
Definition answers_empty_query (tool : str -> option Z -> ToolCall) : Prop :=
  exists output,
    tool [] None = StructuredContent output /\
    output_results output = [msg_no_results].

(** ** Ranking *)

(** [a] comes before [b] in the ranking: a higher score, or the same score
    and an earlier place in the document. *)
Definition ranks_before (a b : DocChunk) : Prop :=
  (score b < score a)%Q \/ ((score b == score a)%Q /\ index a < index b).

(** ** Groups of the HTML chunker *)

Module HtmlGrouping.

(** A chunk within the cap, or one text on its own. *)
Definition grouped (texts : list str) (c : str) : Prop :=
  length c <= MAX_CHUNK_SIZE \/ exists text, In text texts /\ c = trim text.

End HtmlGrouping.

Module HtmlSections.

(** A chunk of [groupSectionsIntoChunks]: within the cap, or a paragraph or
    a sentence, trimmed, of a section over the cap, that is over the cap by
    itself. *)
Definition sectioned (sections : list HtmlChunker.HtmlSection) (chunk : str) : Prop :=
  length chunk <= MAX_CHUNK_SIZE \/
  exists section text,
    In section sections /\
    MAX_CHUNK_SIZE < length (HtmlChunker.content section) /\
    MAX_CHUNK_SIZE < length text /\ chunk = trim text /\
    (In text (split Patterns.paragraphs (HtmlChunker.content section)) \/
     In text (split Patterns.sentences (HtmlChunker.content section))).

End HtmlSections.

(** ** Tags *)

Module Tags.
Import HtmlPatterns.

(** The length of the tag that starts a text, if one does: [<], one code
    unit or more other than [>], and [>]. *)
Definition tag_length (a : str) : option nat :=
  match a with
  | c :: d :: a2 =>
      if ch "<" c && not_ch ">" d then
        match skipn (run_length (not_ch ">") a2) a2 with
        | g :: _ => if ch ">" g then Some (3 + run_length (not_ch ">") a2) else None
        | [] => None
        end
      else None
  | _ => None
  end.

(** A [>] occurs in the text. *)
Definition closes (s : str) : bool := existsb (ch ">") s.

End Tags.

(** ** Results of the smart fetch *)

(** A successful result, as each stage builds it: it has content, no error,
    a content type, the address asked for, and a spec URL exactly when the
    method is [openapi_spec]. *)
Definition well_formed (by_method : FetchMethod -> Prop) (pageUrl : str)
    (r : SmartFetchResult) : Prop :=
  success r = true ->
  url r = pageUrl /\ error r = None /\ (exists content, fetched r = Some content) /\
  contentType r <> ct_unknown /\ (specUrl r <> None <-> method r = openapi_spec) /\
  by_method (method r).

(** ** scorer.ts: [escapeRegex] *)

(** [s.replace(r, by)] with the [g] flag, for a replacement that is computed
    from the matched text, as a replacement pattern with [$&] is. *)
Fixpoint replace_with_go (r : regex) (by_ : str -> str) (b a : list N) (skip : nat)
    {struct a} : str :=
  match skip with
  | S n =>
      match a with
      | c :: a' => replace_with_go r by_ (c :: b) a' n
      | [] => []
      end
  | O =>
      match exec r b a with
      | Some O =>
          by_ [] ++ match a with
                    | c :: a' => c :: replace_with_go r by_ (c :: b) a' 0
                    | [] => []
                    end
      | Some (S n) =>
          by_ (firstn (S n) a) ++ match a with
                                  | c :: a' => replace_with_go r by_ (c :: b) a' n
                                  | [] => []
                                  end
      | None =>
          match a with
          | c :: a' => c :: replace_with_go r by_ (c :: b) a' 0
          | [] => []
          end
      end
  end.

Definition replace_with (r : regex) (by_ : str -> str) (s : str) : str :=
  replace_with_go r by_ [] s 0.

Definition backslash : N := 92.

(** [[.*+?^${}()|[\]\\]] *)
Definition regex_syntax (c : N) : bool := one_of ".*+?^${}()|[]\" c.

(** [str.replace(/[.*+?^${}()|[\]\\]/g, "\\$&")] *)
Definition escapeRegex (s : str) : str :=
  replace_with (Chr regex_syntax) (fun found => backslash :: found) s.

(** * Properties *)

(** ** The matcher and the chunker at work *)

Example split_chars : split (Chr (ch ",")) (lit "a,b,,c") = [lit "a"; lit "b"; []; lit "c"].
Proof. reflexivity. Qed.

Example split_intro_auth :
  splitMarkdownDocument doc_intro_auth =
  [lit "# Intro
Hello world.

"; lit "# Auth
Use a bearer token."].
Proof. vm_compute. reflexivity. Qed.

(** ** Facts about the matcher *)

Module RegexFacts.

Lemma orelse_Some {A} (x y : option A) (v : A) :
  orelse x y = Some v -> x = Some v \/ (x = None /\ y = Some v).
Proof. destruct x; simpl; intros H; [left | right]; auto. Qed.

Lemma orelse_None {A} (x y : option A) :
  orelse x y = None <-> x = None /\ y = None.
Proof. destruct x; simpl; split; intros H; try discriminate; tauto. Qed.

Lemma run_length_le p a : run_length p a <= length a.
Proof. induction a as [| c a IH]; simpl; [lia |]. destruct (p c); simpl; lia. Qed.

Lemma run_length_firstn p a : Forall (fun c => p c = true) (firstn (run_length p a) a).
Proof.
  induction a as [| c a IH]; simpl; [constructor |].
  destruct (p c) eqn:E; simpl; [constructor; assumption | constructor].
Qed.

(** A greedy [p{lo,}] before a continuation that cannot fail takes the whole
    run. *)
Lemma rep_greedy_total {R} p lo (k : @cont R) :
  (forall b a, k b a <> None) ->
  forall a b,
    rep true p lo None k b a =
    if lo <=? run_length p a
    then k (rev (firstn (run_length p a) a) ++ b) (skipn (run_length p a) a)
    else None.
Proof.
  intros Hk a. revert lo. induction a as [| c a IH]; intros lo b; simpl.
  - destruct lo; simpl; reflexivity.
  - destruct (p c) eqn:E.
    + rewrite IH. simpl. rewrite <- app_assoc. simpl.
      destruct lo as [| lo]; simpl.
      * destruct (k (rev (firstn (run_length p a) a) ++ c :: b) _) eqn:Ek;
          [reflexivity | now apply Hk in Ek].
      * destruct (lo <=? run_length p a); simpl; [| reflexivity].
        destruct (k _ _); reflexivity.
    + simpl. destruct lo; reflexivity.
Qed.

Lemma sub_skipn_length (a : list N) n :
  n <= length a -> length a - length (skipn n a) = n.
Proof. intros H. rewrite length_skipn. lia. Qed.

Lemma exec_plus p b a :
  exec (plus p) b a =
  if 1 <=? run_length p a then Some (run_length p a) else None.
Proof.
  unfold exec, plus. cbn [run]. rewrite rep_greedy_total by discriminate.
  destruct (1 <=? run_length p a); [| reflexivity].
  now rewrite sub_skipn_length by apply run_length_le.
Qed.

Lemma exec_at_least n p b a :
  exec (at_least n p) b a =
  if n <=? run_length p a then Some (run_length p a) else None.
Proof.
  unfold exec, at_least. cbn [run]. rewrite rep_greedy_total by discriminate.
  destruct (n <=? run_length p a); [| reflexivity].
  now rewrite sub_skipn_length by apply run_length_le.
Qed.

Lemma exec_Chr p b a :
  exec (Chr p) b a =
  match a with
  | c :: _ => if p c then Some 1 else None
  | [] => None
  end.
Proof.
  unfold exec. simpl. destruct a as [| c a]; [reflexivity |].
  destruct (p c); [| reflexivity]. f_equal. simpl. lia.
Qed.

Lemma exec_Ahead r b a n : exec (Ahead r) b a = Some n -> n = 0.
Proof.
  unfold exec. simpl. destruct (run r _ b a); [| discriminate].
  intros [= <-]. lia.
Qed.

Lemma exec_sentences b a :
  exec Patterns.sentences b a =
  if head_is (one_of ".!?") b && (1 <=? run_length is_space a)
  then Some (run_length is_space a) else None.
Proof.
  unfold exec, Patterns.sentences. cbn [run].
  destruct (head_is (one_of ".!?") b); [| reflexivity].
  apply (exec_plus is_space b a).
Qed.

End RegexFacts.

(** ** The size of refined chunks *)

Module SizeBoundFacts.
Import SizeBound.

Lemma pack_packed sentences st s :
  In s sentences -> packed sentences st -> packed sentences (pack st s).
Proof.
  intros Hs [Hres Hcur]. destruct st as [result cur]. simpl in *.
  unfold pack.
  destruct ((MAX_CHUNK_SIZE <? length (cur ++ s)) && truthy cur) eqn:E.
  - apply andb_true_iff in E as [_ Hne].
    split; simpl.
    + intros r Hr. apply in_app_or in Hr as [Hr | [<- | []]]; [auto |].
      exists cur. split; [| reflexivity].
      destruct Hcur as [-> | Hg]; [discriminate | exact Hg].
    + right. left. exact Hs.
  - split; simpl; [exact Hres |].
    right. destruct cur as [| c cur'].
    + left. exact Hs.
    + right. exists (c :: cur'), s. repeat split; [exact Hs |].
      simpl truthy in E. rewrite andb_true_r in E.
      apply Nat.ltb_ge in E. exact E.
Qed.

Lemma fold_pack_packed sentences l st :
  incl l sentences -> packed sentences st ->
  packed sentences (fold_left pack l st).
Proof.
  revert st. induction l as [| s l IH]; intros st Hl Hst; simpl; [exact Hst |].
  apply IH.
  - intros x Hx. apply Hl. now right.
  - apply pack_packed; [apply Hl; now left | exact Hst].
Qed.

Lemma splitBySentences_groups chunk c :
  In c (splitBySentences chunk) ->
  exists g, group (split sentences chunk) g /\ c = trim g.
Proof.
  unfold splitBySentences.
  pose proof (fold_pack_packed (split sentences chunk) (split sentences chunk) ([], []))
    as H.
  destruct (fold_left pack (split sentences chunk) ([], [])) as [result cur].
  destruct H as [Hres Hcur].
  - apply incl_refl.
  - split; simpl; [intros r [] | now left].
  - simpl in *. destruct (truthy (trim cur)) eqn:E; [| apply Hres].
    intros Hc. apply in_app_or in Hc as [Hc | [<- | []]]; [auto |].
    exists cur. split; [| reflexivity].
    destruct Hcur as [-> | Hg]; [discriminate | exact Hg].
Qed.

Lemma refineChunks_refined_from chunks c :
  In c (refineChunks chunks) -> refined_from chunks c.
Proof.
  unfold refineChunks. intros H. apply in_flat_map in H as (chunk & Hin & Hc).
  unfold refineChunk in Hc.
  destruct (length chunk <=? MAX_CHUNK_SIZE) eqn:E.
  - destruct Hc as [<- | []]. left. now apply Nat.leb_le.
  - apply Nat.leb_gt in E. right. exists chunk. split; [exact Hin |]. split; [exact E |].
    fold (paragraphsOf chunk) in Hc.
    destruct (1 <? length (paragraphsOf chunk)) eqn:E2.
    + left. split; [now apply Nat.ltb_lt | exact Hc].
    + right. split; [now apply Nat.ltb_ge |].
      now apply splitBySentences_groups.
Qed.

End SizeBoundFacts.

(** ** Coverage of the document by its chunks *)

Module CoverageFacts.
Import RegexFacts Coverage.

Lemma strip_app x y : strip (x ++ y) = strip x ++ strip y.
Proof. apply List.filter_app. Qed.

Lemma strip_blank s : blank s -> strip s = [].
Proof.
  induction 1 as [| c s Hc _ IH]; simpl; [reflexivity |]. now rewrite Hc.
Qed.

Lemma strip_rev s : strip (rev s) = rev (strip s).
Proof.
  induction s as [| c s IH]; simpl; [reflexivity |].
  rewrite strip_app, IH. simpl. destruct (is_space c); simpl; [now rewrite app_nil_r | reflexivity].
Qed.

Lemma strip_trimStart s : strip (trimStart s) = strip s.
Proof.
  induction s as [| c s IH]; simpl; [reflexivity |].
  destruct (is_space c) eqn:E; simpl; [exact IH | now rewrite E].
Qed.

Lemma strip_trim s : strip (trim s) = strip s.
Proof.
  unfold trim, trimEnd.
  now rewrite strip_rev, strip_trimStart, strip_rev, rev_involutive, strip_trimStart.
Qed.

Lemma strip_not_nonblank s : nonblank s = false -> strip s = [].
Proof.
  unfold nonblank. intros H. rewrite <- strip_trim.
  destruct (trim s); [reflexivity | discriminate].
Qed.

Lemma strip_concat_filter_nonblank l :
  strip (concat (List.filter nonblank l)) = strip (concat l).
Proof.
  induction l as [| x l IH]; simpl; [reflexivity |].
  destruct (nonblank x) eqn:E; simpl; rewrite !strip_app, IH; [reflexivity |].
  now rewrite (strip_not_nonblank x E).
Qed.

Lemma split_go_strip r (Hr : blank_matches r) a :
  forall b piece at_p skip,
    skip = 0 \/ piece = [] -> skip <= length a -> blank (firstn skip a) ->
    strip (concat (split_go r b a piece at_p skip)) = strip (rev piece ++ a).
Proof.
  induction a as [| c a IH]; intros b piece at_p skip Hs Hlen Hblank; simpl.
  - now rewrite !app_nil_r.
  - destruct skip as [| n].
    + destruct (exec r b (c :: a)) as [[| n] |] eqn:E.
      * destruct at_p.
        -- rewrite IH; [| now left | lia | constructor].
           simpl. now rewrite <- app_assoc.
        -- simpl. rewrite strip_app, IH; [| now left | lia | constructor].
           now rewrite <- strip_app.
      * apply Hr in E as [Hn Hb]. simpl in Hn, Hb. inversion Hb; subst.
        simpl. rewrite strip_app, IH; [| now right | lia | assumption].
        simpl. rewrite !strip_app. f_equal. simpl.
        match goal with H : is_space c = true |- _ => now rewrite H end.
      * rewrite IH; [| now left | lia | constructor].
        simpl. now rewrite <- app_assoc.
    + destruct Hs as [Hs | ->]; [discriminate |].
      simpl in Hlen, Hblank. inversion Hblank; subst.
      rewrite IH; [| now right | lia | assumption].
      simpl. match goal with H : is_space c = true |- _ => now rewrite H end.
Qed.

Lemma split_strip r s : blank_matches r -> strip (concat (split r s)) = strip s.
Proof.
  intros Hr. unfold split. destruct s as [| c s].
  - destruct (exec r [] []); reflexivity.
  - rewrite split_go_strip; [reflexivity | exact Hr | now left | simpl; lia | constructor].
Qed.

Lemma blank_run (p : N -> bool) a :
  (forall c, p c = true -> is_space c = true) -> blank (firstn (run_length p a) a).
Proof.
  intros Hp. eapply List.Forall_impl; [| apply run_length_firstn]. exact Hp.
Qed.

Lemma paragraphs_blank : blank_matches paragraphs.
Proof.
  intros b a n H. unfold paragraphs in H. rewrite exec_at_least in H.
  destruct (2 <=? run_length (N.eqb LF) a); [| discriminate].
  injection H as <-. split; [apply run_length_le |].
  apply blank_run. intros c Hc. apply N.eqb_eq in Hc. now subst.
Qed.

Lemma sentences_blank : blank_matches sentences.
Proof.
  intros b a n H. rewrite exec_sentences in H.
  destruct (head_is (one_of ".!?") b && (1 <=? run_length is_space a)); [| discriminate].
  injection H as <-. split; [apply run_length_le |].
  apply blank_run. auto.
Qed.

Lemma headers_blank : blank_matches headers.
Proof.
  intros b a n H. apply exec_Ahead in H. subst. split; [lia | constructor].
Qed.

(** The sentence packer loses nothing but white space. *)
Lemma pack_strip st s :
  strip (concat (fst (pack st s)) ++ snd (pack st s)) =
  strip (concat (fst st) ++ snd st) ++ strip s.
Proof.
  destruct st as [result cur]. unfold pack.
  destruct ((MAX_CHUNK_SIZE <? length (cur ++ s)) && truthy cur); simpl.
  - rewrite concat_app. simpl. rewrite !strip_app, strip_trim. simpl.
    now rewrite !app_nil_r.
  - rewrite !strip_app. destruct (truthy cur).
    + change (strip (lit " ")) with (@nil N). simpl. now rewrite <- app_assoc.
    + simpl. now rewrite <- app_assoc.
Qed.

Lemma fold_pack_strip l st :
  strip (concat (fst (fold_left pack l st)) ++ snd (fold_left pack l st)) =
  strip (concat (fst st) ++ snd st) ++ strip (concat l).
Proof.
  revert st. induction l as [| s l IH]; intros st; simpl.
  - now rewrite app_nil_r.
  - rewrite IH, pack_strip, !strip_app, <- !app_assoc. reflexivity.
Qed.

Lemma splitBySentences_strip chunk :
  strip (concat (splitBySentences chunk)) = strip chunk.
Proof.
  unfold splitBySentences.
  pose proof (fold_pack_strip (split sentences chunk) ([], [])) as H.
  destruct (fold_left pack (split sentences chunk) ([], [])) as [result cur].
  simpl in H. rewrite split_strip in H by apply sentences_blank.
  rewrite <- H, strip_app.
  destruct (truthy (trim cur)) eqn:E.
  - rewrite concat_app. simpl. now rewrite strip_app, app_nil_r, strip_trim.
  - rewrite (strip_not_nonblank cur E). now rewrite app_nil_r.
Qed.

Lemma refineChunk_strip chunk : strip (concat (refineChunk chunk)) = strip chunk.
Proof.
  unfold refineChunk. destruct (length chunk <=? MAX_CHUNK_SIZE).
  - simpl. now rewrite app_nil_r.
  - destruct (1 <? length (List.filter nonblank (split paragraphs chunk))).
    + rewrite strip_concat_filter_nonblank. apply split_strip, paragraphs_blank.
    + apply splitBySentences_strip.
Qed.

Lemma refineChunks_strip chunks :
  strip (concat (refineChunks chunks)) = strip (concat chunks).
Proof.
  unfold refineChunks. induction chunks as [| c l IH]; simpl; [reflexivity |].
  now rewrite concat_app, !strip_app, IH, refineChunk_strip.
Qed.

Lemma initialChunks_strip document :
  splitsAtRules document = false ->
  strip (concat (initialChunks document)) = strip document.
Proof.
  unfold splitsAtRules, initialChunks. intros H.
  destruct (1 <? length (List.filter nonblank (split headers document))).
  - rewrite strip_concat_filter_nonblank. apply split_strip, headers_blank.
  - simpl in H. rewrite H.
    rewrite strip_concat_filter_nonblank. apply split_strip, paragraphs_blank.
Qed.

(** The pieces of a split, end to end, are the text with the matches of the
    separator taken out. *)
Lemma split_go_concat r a : forall b piece at_p skip,
  skip = 0 \/ piece = [] ->
  concat (split_go r b a piece at_p skip) = rev piece ++ replace_go r [] b a skip.
Proof.
  induction a as [| c a IH]; intros b piece at_p skip Hs.
  - cbn [split_go concat]. rewrite app_nil_r.
    destruct skip as [| n]; cbn [replace_go]; [| now rewrite app_nil_r].
    destruct (exec r b []) as [[| n] |]; now rewrite app_nil_r.
  - cbn [split_go replace_go]. destruct skip as [| n].
    + destruct (exec r b (c :: a)) as [[| n] |].
      * destruct at_p; cbn [concat app]; rewrite IH by (now left);
          cbn [rev app]; now rewrite <- ?app_assoc.
      * cbn [concat app]. rewrite IH by (now right). reflexivity.
      * rewrite IH by (now left). cbn [rev]. now rewrite <- app_assoc.
    + destruct Hs as [Hs | ->]; [discriminate |].
      rewrite IH by (now right). reflexivity.
Qed.

Lemma split_concat r s : concat (split r s) = replace_all r [] s.
Proof.
  unfold split, replace_all. destruct s as [| c s].
  - cbn [replace_go]. destruct (exec r [] []) as [[| n] |]; reflexivity.
  - rewrite split_go_concat by (now left). reflexivity.
Qed.

Lemma initialChunks_covered document :
  strip (concat (initialChunks document)) = strip (covered document).
Proof.
  unfold covered. destruct (splitsAtRules document) eqn:E.
  - unfold splitsAtRules in E. apply andb_true_iff in E as [Eh Er].
    apply negb_true_iff in Eh. unfold initialChunks. rewrite Eh, Er.
    now rewrite strip_concat_filter_nonblank, split_concat.
  - now apply initialChunks_strip.
Qed.

Lemma filter_left_out chunks : left_out chunks (List.filter bigEnough chunks).
Proof.
  induction chunks as [| c chunks IH]; cbn [List.filter]; [constructor |].
  unfold bigEnough at 1. destruct (MIN_CHUNK_SIZE <? length (trim c)) eqn:E.
  - apply left_out_keep; [now apply Nat.ltb_lt | exact IH].
  - apply left_out_drop; [now apply Nat.ltb_ge | exact IH].
Qed.

End CoverageFacts.

(** ** The chunker: size bound and coverage *)

Module ChunkerProperties.
Import SizeBound SizeBoundFacts Coverage CoverageFacts ChunkerCases.

Lemma doc_long_paragraph_chunks :
  splitMarkdownDocument doc_long_paragraph =
  [lit "Intro paragraph of the guide."; long_paragraph;
   lit "# Next
Second section text here."].
Proof. vm_compute. reflexivity. Qed.

(** [splitIntoChunks] takes this document, which is not JSON, down the
    Markdown and plain-text path. *)
Example doc_long_paragraph_path :
  AsciiHost.splitIntoChunks doc_long_paragraph noChunkingOptions
  = splitMarkdownDocument doc_long_paragraph.
Proof. vm_compute. reflexivity. Qed.

(** C1, as stated, fails: the second paragraph of the section above is
    returned whole, 2240 code units long and full of sentence boundaries. *)
Lemma size_bound_counterexample : ~ size_bound_as_stated doc_long_paragraph.
Proof.
  intros H. specialize (H long_paragraph).
  rewrite doc_long_paragraph_chunks in H.
  destruct H as [H | H]; [right; left; reflexivity | |].
  - vm_compute in H. lia.
  - vm_compute in H. discriminate.
Qed.

(** C1, amended: a chunk that [splitMarkdownDocument] returns is within
    [MAX_CHUNK_SIZE] unless it comes from an oversized chunk of the first
    split, either as one of its several paragraphs, which are passed on
    without being divided further, or, when it is a single paragraph, as a
    group of the sentence packer, trimmed: one sentence, or a group and a
    further sentence that were within the cap before the space that joins
    them was added. *)
Theorem refined_chunk_sizes (document c : str) :
  In c (splitMarkdownDocument document) ->
  refined_from (initialChunks document) c.
Proof.
  unfold splitMarkdownDocument. intros H.
  apply List.filter_In in H as [H _].
  now apply refineChunks_refined_from.
Qed.

Lemma refined_chunk_sizes_witness :
  In long_paragraph (splitMarkdownDocument doc_long_paragraph) /\
  refined_from (initialChunks doc_long_paragraph) long_paragraph.
Proof.
  assert (H : In long_paragraph (splitMarkdownDocument doc_long_paragraph)).
  { rewrite doc_long_paragraph_chunks. right. left. reflexivity. }
  split; [exact H | exact (refined_chunk_sizes doc_long_paragraph long_paragraph H)].
Defined.

(** The packer joins a group that fills the cap and one more sentence into a
    chunk of [MAX_CHUNK_SIZE + 1] code units. *)
Example packer_exceeds_cap_by_one :
  map (@length N) (splitBySentences two_sentences) = [2001; 2].
Proof. vm_compute. reflexivity. Qed.

Lemma doc_with_rule_chunks :
  refineChunks (initialChunks doc_with_rule) =
    [lit "First part of the text.
"; lit "
Second part of the text."] /\
  splitMarkdownDocument doc_with_rule = refineChunks (initialChunks doc_with_rule).
Proof. split; vm_compute; reflexivity. Qed.

Example doc_with_rule_path :
  AsciiHost.splitIntoChunks doc_with_rule noChunkingOptions
  = splitMarkdownDocument doc_with_rule.
Proof. vm_compute. reflexivity. Qed.

(** C3, as stated, fails: a document split at a horizontal rule loses the
    rule, and no chunk of it is below the floor. *)
Lemma coverage_counterexample : ~ coverage_as_stated doc_with_rule.
Proof.
  unfold coverage_as_stated. intros H. vm_compute in H. discriminate.
Qed.

(** What is left out of this document is the rule and nothing else: the two
    line ends around it stay. *)
Example doc_with_rule_covered :
  splitsAtRules doc_with_rule = true /\
  replace_all horizontalRules [] doc_with_rule =
    lit "First part of the text.

Second part of the text.".
Proof. split; vm_compute; reflexivity. Qed.

(** C3, amended: for every document, the refined chunks joined end to end
    are, but for white space, the document, or, when the first split is the
    one at horizontal rules, the document with the matches of the pattern of
    rules taken out and nothing else; the chunks returned are the refined
    chunks, in their order, without those of trimmed length at most
    [MIN_CHUNK_SIZE]. *)
Theorem chunks_cover_document (document : str) :
  let refined := refineChunks (initialChunks document) in
  strip (concat refined)
  = strip (if splitsAtRules document
           then replace_all horizontalRules [] document else document) /\
  left_out refined (splitMarkdownDocument document).
Proof.
  intros refined. split.
  - unfold refined. rewrite refineChunks_strip. apply initialChunks_covered.
  - apply filter_left_out.
Qed.

End ChunkerProperties.

(** ** Normalized text *)

Module NormalFacts.
Import RegexFacts Coverage CoverageFacts Words.

Lemma replace_class p by_ : forall a b,
  replace_go (Chr p) by_ b a 0 = flat_map (fun c => if p c then by_ else [c]) a.
Proof.
  induction a as [| c a IH]; intros b; simpl.
  - reflexivity.
  - rewrite exec_Chr. destruct (p c); simpl; now rewrite IH.
Qed.

Lemma replace_remove p s :
  replace_all (Chr p) [] s = List.filter (fun c => negb (p c)) s.
Proof.
  unfold replace_all. rewrite replace_class.
  induction s as [| c s IH]; simpl; [reflexivity |].
  destruct (p c); simpl; now rewrite IH.
Qed.

Lemma replace_subst p x s :
  replace_all (Chr p) [x] s = map (fun c => if p c then x else c) s.
Proof.
  unfold replace_all. rewrite replace_class.
  induction s as [| c s IH]; simpl; [reflexivity |].
  destruct (p c); simpl; now rewrite IH.
Qed.

Lemma replace_spaces_go a : forall b,
  replace_go (plus is_space) (lit " ") b a 0 = collapse false a /\
  (1 <= run_length is_space a ->
   replace_go (plus is_space) (lit " ") b a (run_length is_space a) = collapse true a).
Proof.
  change (lit " ") with [32%N].
  induction a as [| c a IH]; intros b.
  - split; [reflexivity | simpl; lia].
  - destruct (IH (c :: b)) as [IH0 IHrun].
    assert (Hend : run_length is_space a = 0 -> collapse true a = collapse false a).
    { destruct a as [| d a']; [reflexivity |]. simpl.
      destruct (is_space d); [discriminate | reflexivity]. }
    split.
    + cbn [replace_go]. rewrite exec_plus. cbn [run_length collapse].
      destruct (is_space c) eqn:E.
      * change (1 <=? S (run_length is_space a)) with true. cbn iota.
        destruct (Nat.eq_dec (run_length is_space a) 0) as [En | En].
        -- rewrite En, IH0, Hend by exact En. reflexivity.
        -- rewrite IHrun by lia. reflexivity.
      * change (1 <=? 0) with false. cbn iota. now rewrite IH0.
    + cbn [run_length]. destruct (is_space c) eqn:E; [| lia]. intros _.
      cbn [replace_go collapse]. rewrite E.
      destruct (Nat.eq_dec (run_length is_space a) 0) as [En | En].
      * rewrite En, IH0, Hend by exact En. reflexivity.
      * apply IHrun. lia.
Qed.

Lemma replace_spaces s :
  replace_all (plus is_space) (lit " ") s = collapse false s.
Proof. apply replace_spaces_go. Qed.

Lemma tokens_go_words s : forall cur,
  Forall (fun c => is_space c = false) cur ->
  Forall word (tokens_go cur s).
Proof.
  induction s as [| c s IH]; intros cur Hcur; simpl.
  - destruct cur as [| d cur]; constructor; [| constructor].
    split; [| now apply Forall_rev].
    intros H. apply (f_equal (@length N)) in H. rewrite length_rev in H. discriminate.
  - destruct (is_space c) eqn:E.
    + destruct cur as [| d cur]; [apply IH; constructor |].
      constructor; [| apply IH; constructor].
      split; [| now apply Forall_rev].
      intros H. apply (f_equal (@length N)) in H. rewrite length_rev in H. discriminate.
    + apply IH. constructor; assumption.
Qed.

Lemma tokens_words s : Forall word (tokens s).
Proof. apply tokens_go_words. constructor. Qed.

Lemma join_cons2 (w w' : str) (ws : list str) :
  join (lit " ") (w :: w' :: ws) = w ++ lit " " ++ join (lit " ") (w' :: ws).
Proof. reflexivity. Qed.

(** [collapse] and [tokens] go through the text alike. *)
Lemma collapse_tokens s :
  (forall cur, cur <> [] ->
     exists r, blank r /\
       rev cur ++ collapse false s = join (lit " ") (tokens_go cur s) ++ r) /\
  (exists r, blank r /\ collapse true s = join (lit " ") (tokens_go [] s) ++ r) /\
  (exists l r, blank l /\ blank r /\
     collapse false s = l ++ join (lit " ") (tokens_go [] s) ++ r).
Proof.
  induction s as [| c s (IHcur & IHrun & IH0)].
  - split; [| split].
    + intros cur Hcur. exists []. split; [constructor |].
      simpl. destruct cur; [contradiction | reflexivity].
    + exists []. split; [constructor | reflexivity].
    + exists [], []. repeat split; constructor.
  - simpl. destruct (is_space c) eqn:E.
    + destruct IHrun as (r & Hr & Hrun). split; [| split].
      * intros cur Hcur. destruct cur as [| d cur]; [contradiction |].
        rewrite Hrun. destruct (tokens_go [] s) as [| t ts] eqn:Et.
        -- exists (32%N :: r). split; [constructor; [reflexivity | exact Hr] |].
           reflexivity.
        -- exists r. split; [exact Hr |].
           rewrite join_cons2. now rewrite <- !app_assoc.
      * exists r. auto.
      * exists [32%N], r. repeat split; [constructor; [reflexivity | constructor] | exact Hr |].
        now rewrite Hrun.
    + destruct (IHcur [c]) as (r & Hr & Hc); [discriminate |]. simpl in Hc.
      split; [| split].
      * intros cur Hcur. destruct (IHcur (c :: cur)) as (r' & Hr' & Hc'); [discriminate |].
        exists r'. split; [exact Hr' |]. simpl in Hc'. now rewrite <- app_assoc in Hc'.
      * exists r. auto.
      * exists [], r. repeat split; [constructor | exact Hr | exact Hc].
Qed.

Lemma trimStart_blank l s : blank l -> trimStart (l ++ s) = trimStart s.
Proof. induction 1 as [| c l Hc _ IH]; simpl; [reflexivity | now rewrite Hc]. Qed.

Lemma trimStart_all_blank l : blank l -> trimStart l = [].
Proof. induction 1 as [| c l Hc _ IH]; simpl; [reflexivity | now rewrite Hc]. Qed.

Lemma blank_rev l : blank l -> blank (rev l).
Proof. apply Forall_rev. Qed.

Lemma trim_between l m r c d m' m'' :
  blank l -> blank r ->
  m = c :: m' -> is_space c = false ->
  m = m'' ++ [d] -> is_space d = false ->
  trim (l ++ m ++ r) = m.
Proof.
  intros Hl Hr Hm Hc Hm2 Hd. unfold trim, trimEnd.
  rewrite trimStart_blank by exact Hl.
  assert (Hs : trimStart (m ++ r) = m ++ r).
  { rewrite Hm. simpl. now rewrite Hc. }
  rewrite Hs, rev_app_distr, trimStart_blank by now apply blank_rev.
  rewrite Hm2 at 1. rewrite rev_app_distr. simpl. rewrite Hd. simpl.
  now rewrite rev_involutive, <- Hm2.
Qed.

Lemma join_words_first ws :
  Forall word ws -> ws <> [] ->
  exists c m, join (lit " ") ws = c :: m /\ is_space c = false.
Proof.
  intros H Hne. destruct ws as [| w ws]; [contradiction |].
  inversion H as [| ? ? [Hw Hchars] _]; subst.
  destruct w as [| c w]; [contradiction |].
  inversion Hchars; subst.
  exists c. destruct ws; simpl; eauto.
Qed.

Lemma join_words_last ws :
  Forall word ws -> ws <> [] ->
  exists m d, join (lit " ") ws = m ++ [d] /\ is_space d = false.
Proof.
  induction 1 as [| w ws [Hw Hchars] Hws IH]; intros Hne; [contradiction |].
  destruct ws as [| w' ws'].
  - simpl. destruct (exists_last Hw) as (m & d & ->).
    exists m, d. split; [reflexivity |].
    apply Forall_app in Hchars as [_ Hd]. now inversion Hd.
  - destruct IH as (m & d & Hj & Hd); [discriminate |].
    exists (w ++ lit " " ++ m), d. split; [| exact Hd].
    rewrite join_cons2, Hj. now rewrite <- !app_assoc.
Qed.

Lemma trim_join_words l r ws :
  blank l -> blank r -> Forall word ws ->
  trim (l ++ join (lit " ") ws ++ r) = join (lit " ") ws.
Proof.
  intros Hl Hr Hws. destruct ws as [| w ws'] eqn:Ews.
  - simpl. unfold trim, trimEnd.
    rewrite (trimStart_blank l r Hl), (trimStart_all_blank r Hr). reflexivity.
  - rewrite <- Ews in *.
    assert (Hne : ws <> []) by now rewrite Ews.
    destruct (join_words_first ws Hws Hne) as (c & m & Hc & Hcs).
    destruct (join_words_last ws Hws Hne) as (m' & d & Hd & Hds).
    eapply trim_between; eauto.
Qed.

(** White space squeezed and trimmed leaves the words, one space apart. *)
Lemma squeeze_tokens s :
  trim (replace_all (plus is_space) (lit " ") s) = join (lit " ") (tokens s).
Proof.
  rewrite replace_spaces.
  destruct (collapse_tokens s) as (_ & _ & l & r & Hl & Hr & ->).
  apply trim_join_words; [assumption | assumption | apply tokens_words].
Qed.

(** *** Words of a text put together from words *)

Lemma tokens_go_word w : forall cur s,
  Forall (fun c => is_space c = false) w ->
  tokens_go cur (w ++ s) = tokens_go (rev w ++ cur) s.
Proof.
  induction w as [| c w IH]; intros cur s Hw; [reflexivity |].
  inversion Hw as [| ? ? Hc Hw']; subst. simpl. rewrite Hc, IH by exact Hw'.
  now rewrite <- app_assoc.
Qed.

Lemma tokens_join ws : Forall word ws -> tokens (join (lit " ") ws) = ws.
Proof.
  unfold tokens. induction 1 as [| w ws [Hne Hw] Hws IH]; [reflexivity |].
  destruct ws as [| w' ws'].
  - simpl. rewrite <- (app_nil_r w) at 1. rewrite tokens_go_word by exact Hw.
    simpl. rewrite app_nil_r.
    destruct (rev w) eqn:E; [| now rewrite <- E, rev_involutive].
    apply (f_equal (@rev N)) in E. rewrite rev_involutive in E. contradiction.
  - rewrite join_cons2, tokens_go_word by exact Hw.
    change (lit " " ++ join (lit " ") (w' :: ws'))
      with (32%N :: join (lit " ") (w' :: ws')).
    cbn [tokens_go]. change (is_space 32) with true. cbn iota.
    rewrite app_nil_r, IH.
    destruct (rev w) eqn:E; [| now rewrite <- E, rev_involutive].
    apply (f_equal (@rev N)) in E. rewrite rev_involutive in E. contradiction.
Qed.

Lemma tokens_go_app x : forall cur w y,
  is_space w = true ->
  tokens_go cur (x ++ w :: y) = tokens_go cur x ++ tokens y.
Proof.
  induction x as [| c x IH]; intros cur w y Hw; simpl.
  - rewrite Hw. destruct cur; reflexivity.
  - destruct (is_space c).
    + destruct cur; [now apply IH | simpl; f_equal; now apply IH].
    + now apply IH.
Qed.

Lemma tokens_app x w y :
  is_space w = true -> tokens (x ++ w :: y) = tokens x ++ tokens y.
Proof. apply tokens_go_app. Qed.

Lemma tokens_blank_app sep y : blank sep -> tokens (sep ++ y) = tokens y.
Proof.
  induction 1 as [| c sep Hc _ IH]; [reflexivity |].
  unfold tokens in *. simpl. now rewrite Hc.
Qed.

Lemma tokens_go_Forall (P : N -> Prop) s : forall cur,
  Forall P s -> Forall P cur -> Forall (Forall P) (tokens_go cur s).
Proof.
  induction s as [| c s IH]; intros cur Hs Hcur; simpl.
  - destruct cur; constructor; [now apply Forall_rev | constructor].
  - inversion Hs; subst. destruct (is_space c).
    + destruct cur; [apply IH; [assumption | constructor] |].
      constructor; [now apply Forall_rev | apply IH; [assumption | constructor]].
    + apply IH; [assumption | constructor; assumption].
Qed.

Lemma tokens_Forall (P : N -> Prop) s : Forall P s -> Forall (Forall P) (tokens s).
Proof. intros H. apply tokens_go_Forall; [exact H | constructor]. Qed.

Lemma split_go_class p a : forall b piece at_p,
  split_go (Chr p) b a piece at_p 0 = split_on p piece a.
Proof.
  induction a as [| c a IH]; intros b piece at_p; [reflexivity |].
  cbn [split_go split_on]. rewrite exec_Chr.
  destruct (p c); now rewrite IH.
Qed.

Lemma split_on_word p w : forall piece s,
  Forall (fun c => p c = false) w ->
  split_on p piece (w ++ s) = split_on p (rev w ++ piece) s.
Proof.
  induction w as [| c w IH]; intros piece s Hw; [reflexivity |].
  inversion Hw as [| ? ? Hc Hw']; subst. simpl. rewrite Hc, IH by exact Hw'.
  now rewrite <- app_assoc.
Qed.

Lemma split_on_join ws :
  Forall (Forall (fun c => N.eqb 32 c = false)) ws -> ws <> [] ->
  split_on (N.eqb 32) [] (join (lit " ") ws) = ws.
Proof.
  induction 1 as [| w ws Hw Hws IH]; intros Hne; [contradiction |].
  destruct ws as [| w' ws'].
  - simpl. rewrite <- (app_nil_r w) at 1. rewrite split_on_word by exact Hw.
    simpl. now rewrite app_nil_r, rev_involutive.
  - rewrite join_cons2, split_on_word by exact Hw.
    change (lit " " ++ join (lit " ") (w' :: ws'))
      with (32%N :: join (lit " ") (w' :: ws')).
    cbn [split_on]. change (N.eqb 32 32) with true. cbn iota.
    rewrite app_nil_r, rev_involutive, IH by discriminate. reflexivity.
Qed.

Lemma word_no_space w : word w -> Forall (fun c => N.eqb 32 c = false) w.
Proof.
  intros [_ H]. eapply List.Forall_impl; [| exact H].
  intros c Hc. destruct (N.eqb_spec 32 c) as [<- |]; [discriminate | reflexivity].
Qed.

Lemma join_words_nonempty ws : Forall word ws -> ws <> [] -> join (lit " ") ws <> [].
Proof.
  intros H Hne. destruct (join_words_first ws H Hne) as (c & m & -> & _). discriminate.
Qed.

Lemma split_str_join ws :
  Forall word ws -> ws <> [] ->
  split_str (lit " ") (join (lit " ") ws) = ws.
Proof.
  intros H Hne. unfold split_str, split.
  pose proof (join_words_nonempty ws H Hne) as Hj.
  destruct (join (lit " ") ws) as [| c s] eqn:E; [contradiction |].
  change (text (lit " ")) with (Chr (N.eqb 32)).
  rewrite split_go_class, <- E. apply split_on_join; [| exact Hne].
  eapply List.Forall_impl; [| exact H]. apply word_no_space.
Qed.

End NormalFacts.

(** ** Occurrences of a word *)

Module ScorerFacts.
Import RegexFacts Matching.

(** *** The patterns built from a word *)

Lemma run_seq_cons {R} r l (k : @cont R) b a :
  run (seq (r :: l)) k b a = run r (run (seq l) k) b a.
Proof. destruct l; reflexivity. Qed.

Lemma run_text_i {R} w : forall (k : @cont R) b a,
  run (text_i w) k b a =
  if starts_with_i w a
  then k (rev (firstn (length w) a) ++ b) (skipn (length w) a)
  else None.
Proof.
  unfold text_i. induction w as [| x w IH]; intros k b a; [reflexivity |].
  cbn [map]. rewrite run_seq_cons. cbn [run starts_with_i length].
  destruct a as [| c a]; [reflexivity |].
  destruct (eq_i x c); [| reflexivity].
  rewrite IH. cbn [firstn skipn rev andb]. now rewrite <- app_assoc.
Qed.

Lemma starts_with_i_length w : forall a,
  starts_with_i w a = true -> length w <= length a.
Proof.
  induction w as [| x w IH]; intros a H; simpl; [lia |].
  destruct a as [| c a]; [discriminate |]. simpl in H.
  apply andb_true_iff in H as [_ H]. apply IH in H. simpl. lia.
Qed.

Lemma exec_exactRegex w b a :
  exec (exactRegex w) b a =
  if occurs_exact_i w b a then Some (length w) else None.
Proof.
  unfold exec, exactRegex, occurs_exact_i. cbn [seq run].
  destruct (at_word_boundary b a); [| reflexivity].
  rewrite run_text_i. cbn [run andb].
  destruct (starts_with_i w a) eqn:E; [| reflexivity].
  cbn [andb]. destruct (at_word_boundary _ _); [| reflexivity].
  f_equal. apply sub_skipn_length. now apply starts_with_i_length.
Qed.

Lemma exec_partialRegex w b a :
  exec (partialRegex w) b a =
  if occurs_prefix_i w b a then Some (length w) else None.
Proof.
  unfold exec, partialRegex, occurs_prefix_i. cbn [seq run].
  destruct (at_word_boundary b a); [| reflexivity].
  rewrite run_text_i. cbn [andb].
  destruct (starts_with_i w a) eqn:E; [| reflexivity].
  f_equal. apply sub_skipn_length. now apply starts_with_i_length.
Qed.

(** *** Scanning for matches, and counting positions *)

Lemma match_go_count r (f : list N -> list N -> bool) len :
  (forall b a, exec r b a = if f b a then Some (S len) else None) ->
  (forall b c a, f b (c :: a) = true -> quiet f (c :: b) a len) ->
  forall a b n, quiet f b a n ->
    length (match_go r b a n) = occurrences f b a.
Proof.
  intros Hexec Hquiet. induction a as [| c a IH]; intros b n Hn.
  - destruct n as [| n]; simpl.
    + rewrite Hexec. destruct (f b []); reflexivity.
    + destruct Hn as [-> _]. reflexivity.
  - destruct n as [| n]; cbn [match_go occurrences].
    + rewrite Hexec. destruct (f b (c :: a)) eqn:E.
      * cbn [length pred]. rewrite IH by now apply Hquiet. reflexivity.
      * rewrite (IH (c :: b) 0 I). reflexivity.
    + destruct Hn as [-> Hn]. now rewrite IH.
Qed.

Lemma inside_word_quiet (f : list N -> list N -> bool) :
  (forall b a, f b a = true -> at_word_boundary b a = true) ->
  forall m b c rest,
    is_word c = true -> Forall (fun d => is_word d = true) m ->
    quiet f (c :: b) (m ++ rest) (length m).
Proof.
  intros Hf. induction m as [| d m IH]; intros b c rest Hc Hm; simpl; [exact I |].
  inversion Hm; subst. split; [| now apply IH].
  destruct (f (c :: b) (d :: m ++ rest)) eqn:E; [| reflexivity].
  apply Hf in E. unfold at_word_boundary in E. simpl in E.
  rewrite Hc in E. match goal with H : is_word d = true |- _ => rewrite H in E end.
  discriminate.
Qed.

Lemma between_spec lo hi c : between lo hi c = true <-> (lo <= c <= hi)%N.
Proof.
  unfold between. rewrite andb_true_iff, !N.leb_le. tauto.
Qed.

Lemma between_false lo hi c : between lo hi c = false <-> ~ (lo <= c <= hi)%N.
Proof.
  rewrite <- between_spec. destruct (between lo hi c); split; congruence.
Qed.

Lemma is_word_spec c :
  is_word c = true <->
  (65 <= c <= 90 \/ 97 <= c <= 122 \/ 48 <= c <= 57 \/ c = 95)%N.
Proof.
  unfold is_word, is_upper, is_lower, is_digit.
  rewrite !orb_true_iff, !between_spec, N.eqb_eq. tauto.
Qed.

Lemma canonicalize_spec c :
  ((97 <= c <= 122)%N /\ canonicalize c = (c - 32)%N) \/
  (~ (97 <= c <= 122)%N /\ canonicalize c = c).
Proof.
  unfold canonicalize, is_lower. destruct (between 97 122 c) eqn:E.
  - left. split; [now apply between_spec | reflexivity].
  - right. split; [now apply between_false | reflexivity].
Qed.

Lemma eq_i_word x c : eq_i x c = true -> is_word x = true -> is_word c = true.
Proof.
  unfold eq_i. rewrite N.eqb_eq, !is_word_spec. intros H Hx.
  destruct (canonicalize_spec x) as [[? Ex] | [? Ex]];
    destruct (canonicalize_spec c) as [[? Ec] | [? Ec]];
    rewrite Ex, Ec in H; lia.
Qed.

Lemma eq_i_lower x c :
  is_upper x = false -> is_upper c = false -> eq_i x c = (x =? c)%N.
Proof.
  unfold eq_i, is_upper. rewrite !between_false. intros Hx Hc.
  destruct (N.eqb_spec x c) as [-> | Hne]; [apply N.eqb_refl |].
  apply N.eqb_neq.
  destruct (canonicalize_spec x) as [[? Ex] | [? Ex]];
    destruct (canonicalize_spec c) as [[? Ec] | [? Ec]];
    rewrite Ex, Ec; lia.
Qed.

Lemma starts_with_i_words w : forall a,
  starts_with_i w a = true -> Forall (fun d => is_word d = true) w ->
  Forall (fun d => is_word d = true) (firstn (length w) a).
Proof.
  induction w as [| x w IH]; intros a H Hw; simpl; [constructor |].
  destruct a as [| c a]; [discriminate |]. simpl in H.
  apply andb_true_iff in H as [Hxc H]. inversion Hw; subst.
  constructor; [eapply eq_i_word; eauto | now apply IH].
Qed.

Lemma starts_with_i_lower w : forall a,
  Forall (fun d => is_upper d = false) w ->
  Forall (fun d => is_upper d = false) a ->
  starts_with_i w a = starts_with w a.
Proof.
  induction w as [| x w IH]; intros a Hw Ha; [reflexivity |].
  destruct a as [| c a]; [reflexivity |]. simpl.
  inversion Hw; inversion Ha; subst.
  rewrite IH, eq_i_lower by assumption. reflexivity.
Qed.

Lemma quiet_after_match (f : list N -> list N -> bool) w :
  (forall b a, f b a = true -> at_word_boundary b a = true /\ starts_with_i w a = true) ->
  Forall (fun d => is_word d = true) w ->
  forall b c a, f b (c :: a) = true -> quiet f (c :: b) a (pred (length w)).
Proof.
  intros Hf Hw b c a H. apply Hf in H as [_ H].
  pose proof (starts_with_i_words w (c :: a) H Hw) as Hm.
  destruct w as [| x w]; [exact I |].
  simpl in Hm, H |- *. apply andb_true_iff in H as [_ H].
  inversion Hm; subst.
  rewrite <- (firstn_skipn (length w) a) at 1.
  replace (length w) with (length (firstn (length w) a)) at 3.
  - apply inside_word_quiet; [| assumption | assumption].
    intros b' a' H'. now apply Hf in H'.
  - apply firstn_length_le. now apply starts_with_i_length.
Qed.

Lemma occurrences_ext (f g : list N -> list N -> bool) (P : N -> Prop) :
  (forall b a, Forall P a -> f b a = g b a) ->
  forall a b, Forall P a -> occurrences f b a = occurrences g b a.
Proof.
  intros H. induction a as [| c a IH]; intros b Ha; simpl.
  - now rewrite H.
  - rewrite H by exact Ha. inversion Ha; subst. now rewrite IH.
Qed.

Lemma firstn_lower (P : N -> Prop) n (a : list N) : Forall P a -> Forall P (firstn n a).
Proof.
  revert a. induction n as [| n IH]; intros a Ha; [constructor |].
  destruct Ha; simpl; constructor; auto.
Qed.

(** The matches of the exact pattern of a word are its exact occurrences. *)
Lemma exact_matches w s :
  w <> [] -> Forall (fun d => is_word d = true) w ->
  Forall (fun d => is_upper d = false) w ->
  Forall (fun d => is_upper d = false) s ->
  length (match_all (exactRegex w) s) = occurrences (occurs_exact w) [] s.
Proof.
  intros Hne Hw Hlw Hls. unfold match_all.
  rewrite (match_go_count (exactRegex w) (occurs_exact_i w) (pred (length w))).
  - apply (occurrences_ext _ _ (fun d => is_upper d = false)); [| exact Hls].
    intros b a Ha. unfold occurs_exact_i, occurs_exact.
    now rewrite starts_with_i_lower.
  - intros b a. rewrite exec_exactRegex.
    destruct w; [contradiction | reflexivity].
  - apply quiet_after_match; [| exact Hw].
    intros b a H. unfold occurs_exact_i in H.
    apply andb_true_iff in H as [H _]. now apply andb_true_iff in H.
  - exact I.
Qed.

Lemma partial_matches w s :
  w <> [] -> Forall (fun d => is_word d = true) w ->
  Forall (fun d => is_upper d = false) w ->
  Forall (fun d => is_upper d = false) s ->
  length (match_all (partialRegex w) s) = occurrences (occurs_prefix w) [] s.
Proof.
  intros Hne Hw Hlw Hls. unfold match_all.
  rewrite (match_go_count (partialRegex w) (occurs_prefix_i w) (pred (length w))).
  - apply (occurrences_ext _ _ (fun d => is_upper d = false)); [| exact Hls].
    intros b a Ha. unfold occurs_prefix_i, occurs_prefix.
    now rewrite starts_with_i_lower.
  - intros b a. rewrite exec_partialRegex.
    destruct w; [contradiction | reflexivity].
  - apply quiet_after_match; [| exact Hw].
    intros b a H. unfold occurs_prefix_i in H. now apply andb_true_iff in H.
  - exact I.
Qed.

(** *** Appending to the text *)

Lemma occurrences_app (f : list N -> list N -> bool) t :
  (forall b a, f b a = true -> f b (a ++ t) = true) ->
  forall a b, occurrences f b a <= occurrences f b (a ++ t).
Proof.
  intros Hf. induction a as [| c a IH]; intros b.
  - simpl. destruct (f b []) eqn:E.
    + apply Hf in E. simpl in E. destruct t; simpl; rewrite E; lia.
    + lia.
  - simpl. specialize (IH (c :: b)).
    destruct (f b (c :: a)) eqn:E.
    + apply Hf in E. simpl in E. rewrite E. lia.
    + destruct (f b (c :: a ++ t)); lia.
Qed.

Lemma starts_with_app w : forall a t,
  starts_with w a = true -> starts_with w (a ++ t) = true.
Proof.
  induction w as [| x w IH]; intros a t H; [reflexivity |].
  destruct a as [| c a]; [discriminate |]. simpl in *.
  apply andb_true_iff in H as [-> H]. now apply IH.
Qed.

Lemma starts_with_length w : forall a,
  starts_with w a = true -> length w <= length a.
Proof.
  induction w as [| x w IH]; intros a H; simpl; [lia |].
  destruct a as [| c a]; [discriminate |]. simpl in H.
  apply andb_true_iff in H as [_ H]. apply IH in H. simpl. lia.
Qed.

Lemma head_is_app p (a t : list N) : a <> [] -> head_is p (a ++ t) = head_is p a.
Proof. destruct a; [contradiction | reflexivity]. Qed.

Lemma head_is_app_nonword (a y : list N) :
  head_is is_word (a ++ 32%N :: y) = head_is is_word a.
Proof. destruct a; reflexivity. Qed.

Lemma occurs_prefix_app w y b a :
  w <> [] -> occurs_prefix w b a = true ->
  occurs_prefix w b (a ++ 32%N :: y) = true.
Proof.
  unfold occurs_prefix, at_word_boundary. intros Hw H.
  apply andb_true_iff in H as [Hb Hs].
  assert (Ha : a <> []).
  { intros ->. destruct w; [contradiction | discriminate]. }
  rewrite head_is_app by exact Ha. rewrite Hb. now apply starts_with_app.
Qed.

Lemma occurs_exact_app w y b a :
  w <> [] -> occurs_exact w b a = true ->
  occurs_exact w b (a ++ 32%N :: y) = true.
Proof.
  unfold occurs_exact. intros Hw H.
  apply andb_true_iff in H as [H He]. pose proof H as Hp.
  apply andb_true_iff in H as [_ Hs].
  apply (occurs_prefix_app w y b a Hw) in Hp. unfold occurs_prefix in Hp.
  rewrite Hp. simpl. apply starts_with_length in Hs.
  rewrite firstn_app, skipn_app.
  replace (length w - length a) with 0 by lia. simpl. rewrite app_nil_r.
  unfold at_word_boundary in *. now rewrite head_is_app_nonword.
Qed.

Lemma starts_with_refl t : starts_with t t = true.
Proof. induction t as [| c t IH]; simpl; [reflexivity |]. now rewrite N.eqb_refl. Qed.

Lemma includes_self t : includes t t = true.
Proof. destruct t; simpl; [reflexivity |]. now rewrite N.eqb_refl, starts_with_refl. Qed.

Lemma includes_app_r x t : includes (x ++ t) t = true.
Proof.
  induction x as [| c x IH]; [apply includes_self |].
  simpl. rewrite IH. apply orb_true_r.
Qed.

(** A pattern that is open-ended still matches when the text goes on. *)
Lemma orelse_not_None {A} (x y : option A) :
  orelse x y <> None <-> x <> None \/ y <> None.
Proof.
  destruct x as [v |]; simpl.
  - split; [intros _; left; discriminate | intros _; discriminate].
  - split; [intros H; now right | intros [H | H]; [contradiction | exact H]].
Qed.

Lemma rep_not_None {R} g p lo hi (k : @cont R) b a :
  rep g p lo hi k b a <> None <->
  rep_stop lo k b a <> None \/ rep_more g p lo hi k b a <> None.
Proof.
  unfold rep_stop, rep_more.
  destruct a as [| c a]; destruct g; cbn [rep]; rewrite orelse_not_None; tauto.
Qed.

Lemma rep_extend {R R'} g p t (k : @cont R) (k' : @cont R') :
  (forall b a, k b a <> None -> k' b (a ++ t) <> None) ->
  forall a lo hi b,
    rep g p lo hi k b a <> None -> rep g p lo hi k' b (a ++ t) <> None.
Proof.
  intros Hk. induction a as [| c a IH]; intros lo hi b H;
    apply rep_not_None in H; apply rep_not_None;
    destruct H as [H | H].
  - left. unfold rep_stop in *. destruct (lo =? 0); [now apply Hk | contradiction].
  - simpl in H. contradiction.
  - left. unfold rep_stop in *. destruct (lo =? 0); [now apply Hk | contradiction].
  - right. simpl in *.
    destruct hi as [[| n] |]; [contradiction | |];
      (destruct (p c); [now apply IH | contradiction]).
Qed.

Lemma run_extend r t : open_ended r = true ->
  forall R R' (k : @cont R) (k' : @cont R') b a,
    (forall b1 a1, k b1 a1 <> None -> k' b1 (a1 ++ t) <> None) ->
    run r k b a <> None -> run r k' b (a ++ t) <> None.
Proof.
  induction r as [| p | r1 IH1 r2 IH2 | r1 IH1 r2 IH2 | g lo hi p | r1 IH1 | p | m | m |];
    intros Hr R R' k k' b a Hk H; simpl in Hr; try discriminate.
  - now apply Hk.
  - simpl in *. destruct a as [| c a]; [contradiction |]. simpl.
    destruct (p c); [now apply Hk | contradiction].
  - apply andb_true_iff in Hr as [Hr1 Hr2]. simpl in *.
    eapply IH1; [exact Hr1 | | exact H].
    intros b1 a1. now apply IH2.
  - apply andb_true_iff in Hr as [Hr1 Hr2]. simpl in *.
    intros Hn. apply orelse_None in Hn as [Hn1 Hn2]. apply H. apply orelse_None.
    split.
    + destruct (run r1 k b a) eqn:E; [| reflexivity].
      exfalso. eapply (IH1 Hr1 R R' k k'); [exact Hk | rewrite E; discriminate | exact Hn1].
    + destruct (run r2 k b a) eqn:E; [| reflexivity].
      exfalso. eapply (IH2 Hr2 R R' k k'); [exact Hk | rewrite E; discriminate | exact Hn2].
  - simpl in *. now apply (rep_extend g p t k k').
  - simpl in *.
    destruct (run r1 (fun _ _ => Some tt) b a) eqn:E; [| contradiction].
    destruct (run r1 (fun _ _ => Some tt) b (a ++ t)) eqn:E'; [now apply Hk |].
    exfalso.
    eapply (IH1 Hr unit unit (fun _ _ => Some tt) (fun _ _ => Some tt));
      [discriminate | rewrite E; discriminate | exact E'].
  - simpl in *. destruct (head_is p b); [now apply Hk | contradiction].
  - simpl in *. destruct (at_bol m b); [now apply Hk | contradiction].
Qed.

Lemma test_go_here r b a : exec r b a <> None -> test_go r b a = true.
Proof.
  intros H. destruct a; simpl; destruct (exec r b _); congruence.
Qed.

Lemma exec_extend r t b a :
  open_ended r = true -> exec r b a <> None -> exec r b (a ++ t) <> None.
Proof.
  intros Hr H. unfold exec in *.
  eapply run_extend; [exact Hr | | exact H]. discriminate.
Qed.

Lemma test_extend r t s :
  open_ended r = true -> test r s = true -> test r (s ++ t) = true.
Proof.
  intros Hr. unfold test. generalize (@nil N) as b.
  induction s as [| c s IH]; intros b H.
  - apply test_go_here, exec_extend; [exact Hr |].
    simpl in H. destruct (exec r b []); [discriminate | discriminate].
  - cbn [test_go] in H. destruct (exec r b (c :: s)) eqn:E.
    + apply test_go_here, exec_extend; [exact Hr | rewrite E; discriminate].
    + cbn [test_go app]. destruct (exec r b (c :: s ++ t)); [reflexivity | now apply IH].
Qed.

End ScorerFacts.

(** ** Result selection *)

Module Selection.

Lemma select_grows chunks m st chunk st' :
  select chunks m st chunk = Some st' ->
  usedIndices st ⊆ usedIndices st' /\
  (index chunk ∈ usedIndices st -> st' = st).
Proof.
  unfold select. destruct (m <=? Z.of_nat (length (selected st)))%Z; [discriminate |].
  destruct (decide (index chunk ∈ usedIndices st)) as [Hin | Hout].
  - intros [= <-]. split; [set_solver | reflexivity].
  - intros [= <-]. simpl. split; [| contradiction].
    destruct (0 <? index chunk); destruct (index chunk <? length chunks - 1); set_solver.
Qed.

Lemma select_claims chunks m st chunk st' :
  select chunks m st chunk = Some st' ->
  index chunk ∉ usedIndices st ->
  index chunk ∈ usedIndices st' /\
  (0 < index chunk -> index chunk - 1 ∈ usedIndices st') /\
  (index chunk + 1 < length chunks -> index chunk + 1 ∈ usedIndices st').
Proof.
  unfold select. destruct (m <=? Z.of_nat (length (selected st)))%Z; [discriminate |].
  destruct (decide (index chunk ∈ usedIndices st)) as [Hin | Hout]; [contradiction |].
  intros [= <-] _. simpl.
  destruct (0 <? index chunk) eqn:E1; destruct (index chunk <? length chunks - 1) eqn:E2;
    (repeat split; [set_solver | intros H | intros H]);
    try (apply Nat.ltb_ge in E1; lia); try (apply Nat.ltb_ge in E2; lia);
    set_solver.
Qed.

Lemma selected_sources chunks m relevant : forall st,
  selected (selecting chunks m relevant st) =
  selected st ++ map (getExpandedContext chunks) (sources chunks m relevant st).
Proof.
  induction relevant as [| chunk rest IH]; intros st; simpl.
  - now rewrite app_nil_r.
  - destruct (select chunks m st chunk) as [st' |] eqn:E; [| now rewrite app_nil_r].
    rewrite IH. unfold select in E.
    destruct (m <=? Z.of_nat (length (selected st)))%Z; [discriminate |].
    destruct (decide (index chunk ∈ usedIndices st)); injection E as <-; simpl.
    + reflexivity.
    + now rewrite <- app_assoc.
Qed.

Lemma sources_unclaimed chunks m relevant : forall st x,
  In x (sources chunks m relevant st) -> x ∉ usedIndices st.
Proof.
  induction relevant as [| chunk rest IH]; intros st x; simpl; [tauto |].
  destruct (select chunks m st chunk) as [st' |] eqn:E; [| simpl; tauto].
  intros H. apply in_app_or in H as [H | H].
  - destruct (decide (index chunk ∈ usedIndices st)) as [| Hout]; [destruct H |].
    destruct H as [<- | []]. exact Hout.
  - apply IH in H. apply select_grows in E as [Hsub _]. set_solver.
Qed.

Lemma sources_relevant chunks m relevant : forall st x,
  In x (sources chunks m relevant st) -> exists c, In c relevant /\ index c = x.
Proof.
  induction relevant as [| chunk rest IH]; intros st x; simpl; [tauto |].
  destruct (select chunks m st chunk) as [st' |]; [| simpl; tauto].
  intros H. apply in_app_or in H as [H | H].
  - destruct (decide (index chunk ∈ usedIndices st)); [destruct H |].
    destruct H as [<- | []]. exists chunk. auto.
  - apply IH in H as (c & Hc & <-). exists c. auto.
Qed.

Lemma sources_apart chunks m relevant :
  (forall c, In c relevant -> index c < length chunks) ->
  forall st, ForallOrdPairs apart (sources chunks m relevant st).
Proof.
  induction relevant as [| chunk rest IH]; intros Hvalid st; simpl; [constructor |].
  destruct (select chunks m st chunk) as [st' |] eqn:E; [| constructor].
  assert (Hrest : ForallOrdPairs apart (sources chunks m rest st')).
  { apply IH. intros c Hc. apply Hvalid. now right. }
  destruct (decide (index chunk ∈ usedIndices st)) as [| Hout]; [exact Hrest |].
  simpl. constructor; [| exact Hrest].
  apply List.Forall_forall. intros b Hb.
  pose proof (sources_unclaimed _ _ _ _ _ Hb) as Hfree.
  apply sources_relevant in Hb as (c & Hc & <-).
  assert (Hlt : index c < length chunks) by (apply Hvalid; now right).
  destruct (select_claims _ _ _ _ _ E Hout) as (H0 & Hprev & Hnext).
  unfold apart.
  destruct (Nat.lt_total (index chunk) (index c)) as [Hlt' | [Heq | Hgt]].
  - destruct (Nat.eq_dec (index c) (index chunk + 1)) as [Heq | Hne]; [| lia].
    exfalso. apply Hfree. rewrite Heq. apply Hnext. lia.
  - exfalso. apply Hfree. now rewrite <- Heq.
  - destruct (Nat.eq_dec (index c) (index chunk - 1)) as [Heq | Hne]; [| lia].
    exfalso. apply Hfree. rewrite Heq. apply Hprev. lia.
Qed.

Lemma mapi_index {A} (f : A -> nat -> DocChunk) (l : list A) :
  (forall x i, index (f x i) = i) ->
  forall i c, In c (mapi f i l) -> i <= index c < i + length l.
Proof.
  intros Hf. induction l as [| x l IH]; intros i c; simpl; [tauto |].
  intros [<- | H].
  - rewrite Hf. lia.
  - apply IH in H. lia.
Qed.

Lemma insert_by_score_In x l c :
  In c (insert_by_score x l) -> c = x \/ In c l.
Proof.
  induction l as [| y l IH]; simpl.
  - intros [<- | []]. now left.
  - destruct (Qle_bool (score y) (score x)); simpl.
    + intros [<- | H]; [now left | now right].
    + intros [<- | H]; [right; now left |].
      apply IH in H as [-> | H]; [now left | right; now right].
Qed.

Lemma sort_by_score_In l c : In c (sort_by_score l) -> In c l.
Proof.
  unfold sort_by_score. induction l as [| x l IH]; simpl; [tauto |].
  intros H. apply insert_by_score_In in H as [-> | H]; [now left | right; auto].
Qed.

End Selection.

(** ** Properties of the scorer and of the search, for every host

    What is assumed of [toLowerCase] and of NFD normalization is stated
    where it is used, as a hypothesis of the section; all of it holds of the
    Unicode tables, and [AsciiHost] satisfies it. *)

Section HostProperties.
Local Open Scope Q_scope.

Variable JSON_parse : str -> option json.
Variable toLowerCase : str -> str.
Variable normalizeNFD : str -> str.
Variable splitHtmlIntoChunks : str -> list str.
Variable htmlToSimpleMarkdown : str -> str.

Local Abbreviation splitIntoChunks :=
  (splitIntoChunks JSON_parse splitHtmlIntoChunks htmlToSimpleMarkdown).
Local Abbreviation detectDocumentFormat := (detectDocumentFormat JSON_parse).
Local Abbreviation checkJson := (checkJson JSON_parse).
Local Abbreviation normalizeText := (normalizeText toLowerCase normalizeNFD).
Local Abbreviation scoreTerm := (scoreTerm toLowerCase normalizeNFD).
Local Abbreviation calculateRelevanceScore :=
  (calculateRelevanceScore toLowerCase normalizeNFD).
Local Abbreviation scoredChunks := (scoredChunks toLowerCase normalizeNFD).
Local Abbreviation relevantChunks := (relevantChunks toLowerCase normalizeNFD).
Local Abbreviation searchInDocs :=
  (searchInDocs JSON_parse toLowerCase normalizeNFD splitHtmlIntoChunks
     htmlToSimpleMarkdown).
Local Abbreviation raw := (raw toLowerCase normalizeNFD).
Local Abbreviation referenceTermScore :=
  (referenceTermScore toLowerCase normalizeNFD).
Local Abbreviation referenceScore := (referenceScore toLowerCase normalizeNFD).
Local Abbreviation parses := (parses JSON_parse).
Local Abbreviation searchInDocsLegacy :=
  (searchInDocsLegacy JSON_parse toLowerCase normalizeNFD splitHtmlIntoChunks
     htmlToSimpleMarkdown).

(** Lower-casing leaves no [A-Z], and the canonical decomposition of what it
    gives has none either. *)
Hypothesis no_upper :
  forall s, Forall (fun c => is_upper c = false) (normalizeNFD (toLowerCase s)).

(** On ASCII text, lower-casing maps [A-Z] to [a-z] and NFD changes
    nothing. *)
Hypothesis lower_ascii :
  forall s, Forall (fun c => is_ascii c = true) s ->
            toLowerCase s = AsciiHost.toLowerCase s.
Hypothesis nfd_ascii :
  forall s, Forall (fun c => is_ascii c = true) s -> normalizeNFD s = s.

(** ASCII white space between two texts keeps them apart: each is
    lower-cased, and decomposed, as it is on its own. *)
Hypothesis lower_space :
  forall x sep y, sep <> [] -> Forall (fun c => ascii_space c = true) sep ->
    toLowerCase (x ++ sep ++ y) = toLowerCase x ++ sep ++ toLowerCase y.
Hypothesis nfd_space :
  forall x sep y, sep <> [] -> Forall (fun c => ascii_space c = true) sep ->
    normalizeNFD (x ++ sep ++ y) = normalizeNFD x ++ sep ++ normalizeNFD y.

(** *** The shape of a normalized text *)

Lemma normalizeText_words s : normalizeText s = join (lit " ") (tokens (raw s)).
Proof.
  unfold normalizeText, raw.
  rewrite NormalFacts.replace_remove.
  change (lit " ") with [32%N] at 2.
  rewrite NormalFacts.replace_subst.
  apply NormalFacts.squeeze_tokens.
Qed.

Lemma raw_chars s :
  Forall (fun c => is_space c = false -> is_word c = true) (raw s).
Proof.
  unfold raw. apply List.Forall_forall. intros c Hc.
  apply in_map_iff in Hc as (d & <- & _).
  unfold punctuation. destruct (is_word d) eqn:Ew; simpl.
  - auto.
  - destruct (is_space d) eqn:Es; simpl; [congruence | discriminate].
Qed.

Lemma raw_lower s : Forall (fun c => is_upper c = false) (raw s).
Proof using no_upper.
  unfold raw. apply List.Forall_forall. intros c Hc.
  apply in_map_iff in Hc as (d & <- & Hd).
  apply List.filter_In in Hd as [Hd _].
  pose proof (no_upper s) as H. rewrite List.Forall_forall in H. apply H in Hd.
  destruct (punctuation d); [reflexivity | exact Hd].
Qed.

Lemma tokens_raw_plain s : Forall plain_word (tokens (raw s)).
Proof using no_upper.
  pose proof (NormalFacts.tokens_words (raw s)) as Hw.
  pose proof (NormalFacts.tokens_Forall _ _ (raw_chars s)) as Hc.
  pose proof (NormalFacts.tokens_Forall _ _ (raw_lower s)) as Hl.
  rewrite List.Forall_forall in *. intros w Hin.
  specialize (Hw w Hin). specialize (Hc w Hin). specialize (Hl w Hin).
  split; [exact Hw | split; [| exact Hl]].
  destruct Hw as [_ Hns]. rewrite List.Forall_forall in *.
  intros c Hcw. apply Hc; [exact Hcw | now apply Hns].
Qed.

Lemma Forall_join (P : N -> Prop) ws :
  P 32%N -> Forall (Forall P) ws -> Forall P (join (lit " ") ws).
Proof.
  intros Hsp. induction 1 as [| w ws Hw Hws IH]; [constructor |].
  destruct ws as [| w' ws']; [exact Hw |].
  rewrite NormalFacts.join_cons2. apply Forall_app. split; [exact Hw |].
  constructor; [exact Hsp | exact IH].
Qed.

Lemma normalizeText_lower s : Forall (fun c => is_upper c = false) (normalizeText s).
Proof using no_upper.
  rewrite normalizeText_words. apply Forall_join; [reflexivity |].
  eapply List.Forall_impl; [| apply tokens_raw_plain]. intros w H. apply H.
Qed.

Lemma word_char_ascii c : is_word c = true -> is_ascii c = true.
Proof.
  rewrite ScorerFacts.is_word_spec. unfold is_ascii. rewrite N.ltb_lt. lia.
Qed.

Lemma word_char_kept c :
  is_word c = true -> negb (combining_mark c) = true /\ punctuation c = false.
Proof.
  intros H. unfold punctuation. rewrite H. split; [| reflexivity].
  apply ScorerFacts.is_word_spec in H. unfold combining_mark.
  destruct (between 768 879 c) eqn:E; [| reflexivity].
  apply ScorerFacts.between_spec in E. lia.
Qed.

Lemma ascii_lower_fixed s :
  Forall (fun c => is_upper c = false) s -> AsciiHost.toLowerCase s = s.
Proof.
  unfold AsciiHost.toLowerCase. induction 1 as [| c s Hc _ IH]; [reflexivity |].
  simpl. now rewrite Hc, IH.
Qed.

Lemma kept_fixed l :
  Forall (fun c => negb (combining_mark c) = true /\ punctuation c = false) l ->
  map (fun c => if punctuation c then 32%N else c)
      (List.filter (fun c => negb (combining_mark c)) l) = l.
Proof.
  induction 1 as [| c l [Hc Hp] _ IH]; [reflexivity |].
  simpl. rewrite Hc. simpl. now rewrite Hp, IH.
Qed.

(** A text of plain words one space apart is its own normal form. *)
Lemma normalizeText_plain ws :
  Forall plain_word ws -> normalizeText (join (lit " ") ws) = join (lit " ") ws.
Proof using lower_ascii nfd_ascii.
  intros Hws.
  assert (Hascii : Forall (fun c => is_ascii c = true) (join (lit " ") ws)).
  { apply Forall_join; [reflexivity |].
    eapply List.Forall_impl; [| exact Hws]. intros w (_ & Hw & _).
    eapply List.Forall_impl; [| exact Hw]. apply word_char_ascii. }
  assert (Hlower : Forall (fun c => is_upper c = false) (join (lit " ") ws)).
  { apply Forall_join; [reflexivity |].
    eapply List.Forall_impl; [| exact Hws]. intros w H. apply H. }
  assert (Hkept : Forall (fun c => negb (combining_mark c) = true /\ punctuation c = false)
                         (join (lit " ") ws)).
  { apply Forall_join; [split; reflexivity |].
    eapply List.Forall_impl; [| exact Hws]. intros w (_ & Hw & _).
    eapply List.Forall_impl; [| exact Hw]. apply word_char_kept. }
  rewrite normalizeText_words. unfold raw.
  rewrite lower_ascii, ascii_lower_fixed, nfd_ascii by assumption.
  rewrite (kept_fixed _ Hkept). f_equal. apply NormalFacts.tokens_join.
  eapply List.Forall_impl; [| exact Hws]. intros w H. apply H.
Qed.

(** C10: normalizing a normalized text changes nothing. *)
Theorem normalizeText_idempotent (s : str) :
  normalizeText (normalizeText s) = normalizeText s.
Proof using no_upper lower_ascii nfd_ascii.
  rewrite (normalizeText_words s). apply normalizeText_plain, tokens_raw_plain.
Qed.

(** *** The score, as the specification words it *)

Lemma fold_left_sumQ {A} (step : Q -> A -> Q) (g : A -> Q) :
  (forall acc x, step acc x == acc + g x) ->
  forall l init, fold_left step l init == init + sumQ (map g l).
Proof.
  intros Hstep. induction l as [| x l IH]; intros init; simpl.
  - ring.
  - rewrite IH, Hstep. ring.
Qed.

Lemma sumQ_filter {A} (keep : A -> bool) (g : A -> Q) l :
  sumQ (map (fun x => if keep x then g x else 0) l)
  == sumQ (map g (List.filter keep l)).
Proof.
  induction l as [| x l IH]; simpl; [reflexivity |].
  destruct (keep x); simpl; rewrite IH; ring.
Qed.

Lemma num_nonneg n : 0 <= num n.
Proof.
  unfold num, Qle. simpl. lia.
Qed.

Lemma Qadd_nonneg (a b : Q) : 0 <= a -> 0 <= b -> 0 <= a + b.
Proof. intros Ha Hb. lra. Qed.

Lemma sumQ_nonneg l : Forall (fun x => 0 <= x) l -> 0 <= sumQ l.
Proof.
  induction 1 as [| x l Hx _ IH]; simpl; [apply Qle_refl |].
  now apply Qadd_nonneg.
Qed.

Lemma sumQ_le {A} (f g : A -> Q) l :
  (forall x, In x l -> f x <= g x) -> sumQ (map f l) <= sumQ (map g l).
Proof.
  induction l as [| x l IH]; intros H; simpl; [apply Qle_refl |].
  apply Qplus_le_compat; [apply H; now left | apply IH; intros y Hy; apply H; now right].
Qed.

(** The word matches of the code are the occurrences of the words. *)
Lemma calculateWordMatchScore_words normalizedChunk ws :
  Forall plain_word ws -> ws <> [] ->
  Forall (fun c => is_upper c = false) normalizedChunk ->
  calculateWordMatchScore normalizedChunk (join (lit " ") ws) ==
  sumQ (map (fun word =>
               2 * num (occurrences (occurs_exact word) [] normalizedChunk)
               + (1 # 2) * num (occurrences (occurs_prefix word) [] normalizedChunk))
            (List.filter (fun word => (2 <=? length word)%nat) ws)).
Proof.
  intros Hws Hne Hchunk. unfold calculateWordMatchScore.
  rewrite NormalFacts.split_str_join; [| | exact Hne].
  2: { eapply List.Forall_impl; [| exact Hws]. intros w H. apply H. }
  rewrite <- sumQ_filter.
  assert (Hgen : forall init,
    fold_left
      (fun score word =>
         if (length word <? 2)%nat then score
         else score + num (length (match_all (exactRegex word) normalizedChunk))
                      * SCORE_WEIGHTS.wordMatch
              + num (length (match_all (partialRegex word) normalizedChunk))
                * SCORE_WEIGHTS.partialMatch) ws init ==
    init + sumQ (map (fun word =>
      if (2 <=? length word)%nat
      then 2 * num (occurrences (occurs_exact word) [] normalizedChunk)
           + (1 # 2) * num (occurrences (occurs_prefix word) [] normalizedChunk)
      else 0) ws)).
  { clear Hne. induction Hws as [| w ws (Hw & Hword & Hlow) _ IH]; intros init;
      cbn [fold_left map sumQ].
    - ring.
    - rewrite IH. destruct (Nat.ltb_spec (length w) 2) as [Hlt | Hge].
      + destruct (Nat.leb_spec 2 (length w)) as [? | _]; [lia | ring].
      + destruct (Nat.leb_spec 2 (length w)) as [_ | ?]; [| lia].
        rewrite ScorerFacts.exact_matches, ScorerFacts.partial_matches;
          try assumption; try apply Hw.
        unfold SCORE_WEIGHTS.wordMatch, SCORE_WEIGHTS.partialMatch. ring. }
  rewrite Hgen. ring.
Qed.

Lemma scoreTerm_reference normalizedChunk score term :
  Forall (fun c => is_upper c = false) normalizedChunk ->
  scoreTerm normalizedChunk score term
  == score + referenceTermScore normalizedChunk term.
Proof using no_upper.
  intros Hchunk. unfold scoreTerm, referenceTermScore.
  rewrite normalizeText_words.
  pose proof (tokens_raw_plain term) as Hws.
  assert (Hwords : Forall Words.word (tokens (raw term))).
  { eapply List.Forall_impl; [| exact Hws]. intros w H. apply H. }
  rewrite (NormalFacts.tokens_join _ Hwords).
  destruct (tokens (raw term)) as [| w ws] eqn:E.
  - simpl. destruct (includes normalizedChunk []); unfold num; simpl; ring.
  - rewrite <- E in *.
    assert (Hne : tokens (raw term) <> []) by (rewrite E; discriminate).
    pose proof (NormalFacts.join_words_nonempty _ Hwords Hne) as Hj.
    assert (Ht : truthy (join (lit " ") (tokens (raw term))) = true).
    { destruct (join (lit " ") (tokens (raw term))); [contradiction | reflexivity]. }
    rewrite Ht. cbn [negb].
    rewrite NormalFacts.split_str_join by assumption.
    unfold SCORE_WEIGHTS.exactMatch.
    destruct (includes normalizedChunk (join (lit " ") (tokens (raw term))));
      rewrite calculateWordMatchScore_words by assumption; ring.
Qed.

Lemma applyBonuses_factors chunk score :
  applyBonuses chunk score
  == score * (if test codeBlock chunk then 12 # 10 else 1)
     * (if test hasHeader chunk then 13 # 10 else 1).
Proof.
  unfold applyBonuses, SCORE_WEIGHTS.codeBonus, SCORE_WEIGHTS.headerBonus.
  destruct (test codeBlock chunk); destruct (test hasHeader chunk); ring.
Qed.

Lemma score_is_reference chunk searchTerms :
  calculateRelevanceScore chunk searchTerms == referenceScore chunk searchTerms.
Proof using no_upper.
  unfold calculateRelevanceScore, referenceScore.
  rewrite applyBonuses_factors.
  rewrite (fold_left_sumQ _ (referenceTermScore (normalizeText chunk))).
  - ring.
  - intros acc x. apply scoreTerm_reference, normalizeText_lower.
Qed.

Lemma referenceTermScore_nonneg normalizedChunk term :
  0 <= referenceTermScore normalizedChunk term.
Proof.
  unfold referenceTermScore. apply Qadd_nonneg.
  - destruct (includes _ _); [| apply Qle_refl].
    apply Qmult_le_0_compat; [discriminate | apply num_nonneg].
  - apply sumQ_nonneg. apply List.Forall_forall. intros x Hx.
    apply in_map_iff in Hx as (w & <- & _).
    apply Qadd_nonneg;
      (apply Qmult_le_0_compat; [discriminate | apply num_nonneg]).
Qed.

Lemma referenceScore_nonneg chunk searchTerms : 0 <= referenceScore chunk searchTerms.
Proof.
  unfold referenceScore.
  repeat apply Qmult_le_0_compat.
  - apply sumQ_nonneg. apply List.Forall_forall. intros x Hx.
    apply in_map_iff in Hx as (t & <- & _). apply referenceTermScore_nonneg.
  - destruct (test codeBlock chunk); discriminate.
  - destruct (test hasHeader chunk); discriminate.
Qed.

(** C4: the score that the code computes is the score as the specification
    words it, and is not negative. *)
Theorem score_refines_reference (chunk : str) (searchTerms : list str) :
  calculateRelevanceScore chunk searchTerms == referenceScore chunk searchTerms /\
  0 <= calculateRelevanceScore chunk searchTerms.
Proof using no_upper.
  split; [apply score_is_reference |].
  rewrite score_is_reference. apply referenceScore_nonneg.
Qed.

(** *** More occurrences of the term *)

Lemma ascii_space_kept c :
  ascii_space c = true ->
  is_space c = true /\ negb (combining_mark c) = true /\ punctuation c = false.
Proof.
  unfold ascii_space, is_ascii. intros H. apply andb_true_iff in H as [Hs Ha].
  split; [exact Hs |]. split.
  - unfold combining_mark. destruct (between 768 879 c) eqn:E; [| reflexivity].
    apply ScorerFacts.between_spec in E. apply N.ltb_lt in Ha. lia.
  - unfold punctuation. rewrite Hs. now rewrite orb_true_r.
Qed.

Lemma raw_append x sep y :
  sep <> [] -> Forall (fun c => ascii_space c = true) sep ->
  raw (x ++ sep ++ y) = raw x ++ sep ++ raw y.
Proof using lower_space nfd_space.
  intros Hne Hsep. unfold raw.
  rewrite lower_space, nfd_space by assumption.
  rewrite !List.filter_app, !map_app. f_equal. f_equal.
  clear Hne. induction Hsep as [| c sep Hc _ IH]; [reflexivity |].
  apply ascii_space_kept in Hc as (_ & Hc & Hp).
  simpl. rewrite Hc. simpl. now rewrite Hp, IH.
Qed.

Lemma tokens_raw_append x sep y :
  sep <> [] -> Forall (fun c => ascii_space c = true) sep ->
  tokens (raw (x ++ sep ++ y)) = tokens (raw x) ++ tokens (raw y).
Proof using lower_space nfd_space.
  intros Hne Hsep. rewrite raw_append by assumption.
  destruct sep as [| w sep']; [contradiction |].
  inversion Hsep as [| ? ? Hw Hsep']; subst.
  apply ascii_space_kept in Hw as (Hw & _).
  change ((w :: sep') ++ raw y) with (w :: (sep' ++ raw y)).
  rewrite NormalFacts.tokens_app by exact Hw.
  rewrite NormalFacts.tokens_blank_app; [reflexivity |].
  eapply List.Forall_impl; [| exact Hsep']. intros c Hc.
  now apply ascii_space_kept in Hc.
Qed.

Lemma join_app (l1 l2 : list str) :
  l1 <> [] -> l2 <> [] ->
  join (lit " ") (l1 ++ l2) = join (lit " ") l1 ++ 32%N :: join (lit " ") l2.
Proof.
  intros H1 H2. induction l1 as [| w l1 IH]; [contradiction |].
  destruct l1 as [| w' l1'].
  - destruct l2 as [| v l2]; [contradiction | reflexivity].
  - change ((w :: w' :: l1') ++ l2) with (w :: w' :: (l1' ++ l2)).
    rewrite !NormalFacts.join_cons2.
    change (w' :: l1' ++ l2) with ((w' :: l1') ++ l2).
    rewrite IH by discriminate. now rewrite <- !app_assoc.
Qed.

(** A term scores no less against a normalized chunk that contains it
    wherever the other does, and has no fewer occurrences of each word. *)
Lemma referenceTermScore_le n n' term :
  (includes n (normalizeText term) = true ->
   includes n' (normalizeText term) = true) ->
  (forall w, w <> [] ->
     (occurrences (occurs_exact w) [] n <= occurrences (occurs_exact w) [] n')%nat /\
     (occurrences (occurs_prefix w) [] n <= occurrences (occurs_prefix w) [] n')%nat) ->
  referenceTermScore n term <= referenceTermScore n' term.
Proof.
  intros Hinc Hocc. unfold referenceTermScore.
  apply Qplus_le_compat.
  - destruct (includes n (normalizeText term)).
    + rewrite Hinc by reflexivity. apply Qle_refl.
    + destruct (includes n' (normalizeText term)); [| apply Qle_refl].
      apply Qmult_le_0_compat; [discriminate | apply num_nonneg].
  - apply sumQ_le. intros w Hw.
    apply List.filter_In in Hw as [_ Hlen].
    assert (Hne : w <> []) by (intros ->; discriminate).
    destruct (Hocc w Hne) as [He Hp].
    assert (H1 : num (occurrences (occurs_exact w) [] n)
                 <= num (occurrences (occurs_exact w) [] n')).
    { unfold num, Qle. simpl. lia. }
    assert (H2 : num (occurrences (occurs_prefix w) [] n)
                 <= num (occurrences (occurs_prefix w) [] n')).
    { unfold num, Qle. simpl. lia. }
    lra.
Qed.

Lemma occurrences_nil w :
  w <> [] ->
  occurrences (occurs_exact w) [] [] = 0%nat /\
  occurrences (occurs_prefix w) [] [] = 0%nat.
Proof. intros H. destruct w; [contradiction | split; reflexivity]. Qed.

Lemma includes_nil_l t : t <> [] -> includes [] t = false.
Proof. destruct t; [contradiction | reflexivity]. Qed.

Lemma normalized_append chunk sep term :
  sep <> [] -> Forall (fun c => ascii_space c = true) sep ->
  normalizeText term <> [] ->
  referenceTermScore (normalizeText chunk) term
  <= referenceTermScore (normalizeText (chunk ++ sep ++ term)) term.
Proof using no_upper lower_space nfd_space.
  intros Hne Hsep Hterm.
  rewrite (normalizeText_words (chunk ++ sep ++ term)), tokens_raw_append by assumption.
  rewrite (normalizeText_words chunk).
  assert (Ht : tokens (raw term) <> []).
  { intros E. apply Hterm. rewrite normalizeText_words, E. reflexivity. }
  destruct (tokens (raw chunk)) as [| w ws] eqn:E.
  - cbn [join app]. apply referenceTermScore_le.
    + rewrite includes_nil_l by exact Hterm. discriminate.
    + intros v Hv. destruct (occurrences_nil v Hv) as [-> ->]. simpl. lia.
  - rewrite join_app by (discriminate || assumption).
    apply referenceTermScore_le.
    + intros _. rewrite (normalizeText_words term).
      change (join (lit " ") (w :: ws) ++ 32%N :: join (lit " ") (tokens (raw term)))
        with (join (lit " ") (w :: ws) ++ [32%N] ++ join (lit " ") (tokens (raw term))).
      rewrite app_assoc. apply ScorerFacts.includes_app_r.
    + intros v Hv. split; apply ScorerFacts.occurrences_app; intros b a.
      * now apply ScorerFacts.occurs_exact_app.
      * now apply ScorerFacts.occurs_prefix_app.
Qed.

Lemma bonus_grows (r : regex) (hi : Q) chunk more :
  open_ended r = true -> 1 <= hi ->
  1 <= (if test r chunk then hi else 1) /\
  (if test r chunk then hi else 1) <= (if test r (chunk ++ more) then hi else 1).
Proof.
  intros Hr Hhi. destruct (test r chunk) eqn:E.
  - rewrite (ScorerFacts.test_extend r more chunk Hr E). split; [exact Hhi | apply Qle_refl].
  - split; [apply Qle_refl |]. destruct (test r (chunk ++ more)); [exact Hhi | apply Qle_refl].
Qed.

Lemma Qmult_grows (a a' b b' : Q) :
  0 <= a -> a <= a' -> 1 <= b -> b <= b' -> a * b <= a' * b'.
Proof.
  intros Ha Haa Hb Hbb.
  apply Qle_trans with (a' * b).
  - apply Qmult_le_compat_r; [exact Haa | lra].
  - rewrite (Qmult_comm a' b), (Qmult_comm a' b').
    apply Qmult_le_compat_r; [exact Hbb | lra].
Qed.

Lemma score_grows_appending (chunk term sep : str) :
  sep <> [] -> Forall (fun c => ascii_space c = true) sep ->
  calculateRelevanceScore chunk [term]
  <= calculateRelevanceScore (chunk ++ sep ++ term) [term].
Proof using no_upper lower_space nfd_space.
  intros Hne Hsep. rewrite !score_is_reference. unfold referenceScore.
  cbn [map sumQ].
  destruct (bonus_grows codeBlock (12 # 10) chunk (sep ++ term)) as [Hc1 Hc2];
    [reflexivity | discriminate |].
  destruct (bonus_grows hasHeader (13 # 10) chunk (sep ++ term)) as [Hh1 Hh2];
    [reflexivity | discriminate |].
  assert (Hterm :
    referenceTermScore (normalizeText chunk) term
    <= referenceTermScore (normalizeText (chunk ++ sep ++ term)) term).
  { destruct (normalizeText term) as [| c l] eqn:E.
    - unfold referenceTermScore. rewrite E. simpl.
      destruct (includes _ []); destruct (includes _ []); apply Qle_refl.
    - apply normalized_append; try assumption. rewrite E. discriminate. }
  pose proof (referenceTermScore_nonneg (normalizeText chunk) term) as H0.
  apply Qmult_grows; [| | exact Hh1 | exact Hh2].
  - apply Qmult_le_0_compat; lra.
  - apply Qmult_grows; [lra | lra | exact Hc1 | exact Hc2].
Qed.

(** C5, amended: a chunk to which the term is appended after white space,
    once or several times over, scores, for that term, no less than the
    chunk. *)
Theorem score_grows_with_occurrences (chunk term : str) (seps : list str) :
  Forall (fun sep => sep <> [] /\ Forall (fun c => ascii_space c = true) sep) seps ->
  calculateRelevanceScore chunk [term]
  <= calculateRelevanceScore
       (fold_left (fun longer sep => longer ++ sep ++ term) seps chunk) [term].
Proof using no_upper lower_space nfd_space.
  intros Hseps. revert chunk.
  induction Hseps as [| sep seps [Hne Hsep] _ IH]; intros chunk; cbn [fold_left].
  - apply Qle_refl.
  - eapply Qle_trans; [| apply IH]. now apply score_grows_appending.
Qed.

(** *** The search *)

Lemma relevantChunks_valid chunks searchTerms c :
  In c (relevantChunks chunks searchTerms) -> (index c < length chunks)%nat.
Proof.
  unfold relevantChunks. intros H.
  apply Selection.sort_by_score_In in H.
  apply List.filter_In in H as [H _].
  apply Selection.mapi_index in H; [lia | reflexivity].
Qed.

(** C2: the results of [searchInDocs] are the expanded contexts of chunks
    whose indices, two by two, differ by more than 1; in each turn of the
    selection loop the set of used indices grows or stays, and a chunk whose
    index is in it already leaves the state as it is. *)
Theorem selected_chunks_do_not_overlap (document searchQuery : str)
    (options : SearchOptions) :
  let chunks := splitIntoChunks document (chunking options) in
  let relevant := relevantChunks chunks (extractSearchTerms searchQuery) in
  let limit := default 3%Z (maxResults options) in
  let picked := sources chunks limit relevant nothing_selected in
  results (searchInDocs document searchQuery options) =
    map (getExpandedContext chunks) picked /\
  ForallOrdPairs apart picked /\
  (forall st chunk st',
     select chunks limit st chunk = Some st' ->
     usedIndices st ⊆ usedIndices st' /\
     (index chunk ∈ usedIndices st -> st' = st)).
Proof using Type.
  intros chunks relevant limit picked. split; [| split].
  - unfold searchInDocs, selectBestResults. simpl.
    fold chunks. fold relevant. fold limit.
    now rewrite Selection.selected_sources.
  - apply Selection.sources_apart. intros c Hc.
    now apply relevantChunks_valid in Hc.
  - intros st chunk st'. apply Selection.select_grows.
Qed.

(** *** The program on ASCII text *)

Lemma ascii_lower_ascii s :
  Forall (fun c => is_ascii c = true) s ->
  Forall (fun c => is_ascii c = true) (AsciiHost.toLowerCase s).
Proof.
  unfold AsciiHost.toLowerCase. induction 1 as [| c s Hc _ IH]; simpl; constructor; auto.
  destruct (is_upper c) eqn:E; [| exact Hc].
  unfold is_upper in E. apply ScorerFacts.between_spec in E.
  unfold is_ascii. apply N.ltb_lt. lia.
Qed.

Lemma normalizeText_ascii s :
  Forall (fun c => is_ascii c = true) s ->
  normalizeText s = AsciiHost.normalizeText s.
Proof using lower_ascii nfd_ascii.
  intros H. unfold AsciiHost.normalizeText, normalizeText, AsciiHost.normalizeNFD.
  rewrite (lower_ascii s H), nfd_ascii by now apply ascii_lower_ascii.
  reflexivity.
Qed.

Lemma fold_left_ext_In {A B} (f g : A -> B -> A) (l : list B) :
  (forall acc x, In x l -> f acc x = g acc x) ->
  forall init, fold_left f l init = fold_left g l init.
Proof.
  induction l as [| x l IH]; intros H init; [reflexivity |].
  simpl. rewrite H by now left. apply IH. intros acc y Hy. apply H. now right.
Qed.

Lemma calculateRelevanceScore_ascii chunk searchTerms :
  Forall (fun c => is_ascii c = true) chunk ->
  Forall (Forall (fun c => is_ascii c = true)) searchTerms ->
  calculateRelevanceScore chunk searchTerms =
  AsciiHost.calculateRelevanceScore chunk searchTerms.
Proof using lower_ascii nfd_ascii.
  intros Hc Ht. unfold AsciiHost.calculateRelevanceScore, calculateRelevanceScore.
  fold (AsciiHost.normalizeText chunk). rewrite (normalizeText_ascii chunk Hc).
  f_equal. apply fold_left_ext_In. intros acc term Hin.
  unfold scoreTerm. fold (AsciiHost.normalizeText term).
  rewrite List.Forall_forall in Ht. now rewrite (normalizeText_ascii term (Ht term Hin)).
Qed.

Lemma mapi_ext_In {A B} (f g : A -> nat -> B) (l : list A) :
  (forall x i, In x l -> f x i = g x i) -> forall i, mapi f i l = mapi g i l.
Proof.
  induction l as [| x l IH]; intros H i; [reflexivity |].
  simpl. rewrite H by now left. f_equal. apply IH. intros y j Hy. apply H. now right.
Qed.

Lemma relevantChunks_ascii chunks searchTerms :
  Forall (Forall (fun c => is_ascii c = true)) chunks ->
  Forall (Forall (fun c => is_ascii c = true)) searchTerms ->
  relevantChunks chunks searchTerms = AsciiHost.relevantChunks chunks searchTerms.
Proof using lower_ascii nfd_ascii.
  intros Hc Ht. unfold AsciiHost.relevantChunks, relevantChunks, scoredChunks.
  do 2 f_equal. apply mapi_ext_In. intros x i Hx.
  rewrite List.Forall_forall in Hc.
  fold (AsciiHost.calculateRelevanceScore x searchTerms).
  now rewrite calculateRelevanceScore_ascii by auto.
Qed.

Lemma all_ascii_Forall l :
  all_ascii l = true -> Forall (Forall (fun c => is_ascii c = true)) l.
Proof.
  unfold all_ascii. intros H. apply List.Forall_forall. intros s Hs.
  apply List.Forall_forall. intros c Hc.
  rewrite forallb_forall in H. specialize (H s Hs).
  rewrite forallb_forall in H. now apply H.
Qed.

(** *** The scenarios of the specification *)

Lemma trim_doc_intro_auth : trim doc_intro_auth = doc_intro_auth.
Proof. vm_compute. reflexivity. Qed.

Lemma intro_auth_chunks :
  JSON_parse doc_intro_auth = None ->
  splitIntoChunks doc_intro_auth noChunkingOptions =
  [lit "# Intro
Hello world.

"; auth_section].
Proof.
  intros HJ. unfold splitIntoChunks, detectFormat, detectDocumentFormat, checkJson.
  rewrite trim_doc_intro_auth, HJ. vm_compute. reflexivity.
Qed.

(** C7: for the document of two sections and the query [bearer token],
    [searchInDocs] returns one result, which contains the section [Auth];
    one chunk of the two matches. *)
Theorem bearer_token_scenario :
  JSON_parse doc_intro_auth = None ->
  let found := searchInDocs doc_intro_auth (lit "bearer token") defaultSearch in
  (exists result, results found = [result] /\ includes result auth_section = true) /\
  matchedChunks found = 1%nat /\ totalChunks found = 2%nat.
Proof using lower_ascii nfd_ascii.
  intros HJ. unfold searchInDocs. cbn [chunking defaultSearch].
  rewrite (intro_auth_chunks HJ).
  rewrite relevantChunks_ascii by (apply all_ascii_Forall; vm_compute; reflexivity).
  cbv zeta. split; [| split; vm_compute; reflexivity].
  eexists. split; [vm_compute; reflexivity | vm_compute; reflexivity].
Qed.

(** *** Format detection *)

Lemma rep_greedy_disjoint {R} p (k : @cont R) :
  (forall b c a, p c = true -> k b (c :: a) = None) ->
  forall a b,
    rep true p 0 None k b a =
    k (rev (firstn (run_length p a) a) ++ b)
      (skipn (run_length p a) a).
Proof.
  intros Hk. induction a as [| c a IH]; intros b; [reflexivity |].
  cbn [rep run_length]. destruct (p c) eqn:E.
  - rewrite IH. cbn [Nat.eqb pred option_map firstn skipn rev].
    rewrite (Hk b c a E), <- app_assoc. simpl.
    now destruct (k _ _).
  - reflexivity.
Qed.

Lemma skipn_run_length s : skipn (run_length is_space s) s = trimStart s.
Proof.
  induction s as [| c s IH]; [reflexivity |].
  simpl. destruct (is_space c); [exact IH | reflexivity].
Qed.

Lemma bracket_not_space c : is_space c = true -> one_of "[{" c = false.
Proof.
  intros H. unfold one_of, ch. rewrite orb_false_r.
  destruct (N.eqb_spec c (chr "[")) as [-> |]; [discriminate |].
  destruct (N.eqb_spec c (chr "{")) as [-> |]; [discriminate | reflexivity].
Qed.

Lemma anchored_fails_later (r : regex) a : forall b,
  b <> [] -> test_go (Seq (Bol false) r) b a = false.
Proof.
  induction a as [| c a IH]; intros b Hb; cbn [test_go];
    unfold exec; cbn [run]; destruct b as [| d b]; try contradiction; cbn [at_bol andb].
  - reflexivity.
  - now apply IH.
Qed.

Lemma startsWithJsonChar_head s :
  test MarkdownPatterns.startsWithJsonChar s = head_is (one_of "[{") (trimStart s).
Proof.
  unfold test, MarkdownPatterns.startsWithJsonChar. cbn [seq].
  assert (Hexec : exec (Seq (Bol false) (Seq (star is_space) (Chr (one_of "[{")))) [] s
                  = if head_is (one_of "[{") (trimStart s)
                    then Some (length s - length (tl (trimStart s)))%nat else None).
  { unfold exec. cbn [run at_bol]. unfold star. cbn [run].
    rewrite rep_greedy_disjoint.
    - rewrite skipn_run_length. destruct (trimStart s) as [| c t]; [reflexivity |].
      simpl. now destruct (one_of "[{" c).
    - intros b c a Hc. now rewrite (bracket_not_space c Hc). }
  destruct s as [| c s]; cbn [test_go]; rewrite Hexec.
  - reflexivity.
  - destruct (head_is (one_of "[{") (trimStart (c :: s))); [reflexivity |].
    now apply anchored_fails_later.
Qed.

Lemma trimStart_fixed s : head_is is_space s = false -> trimStart s = s.
Proof. destruct s as [| c s]; simpl; [reflexivity |]. now intros ->. Qed.

Lemma trimStart_head s : head_is is_space (trimStart s) = false.
Proof.
  induction s as [| c s IH]; [reflexivity |].
  simpl. destruct (is_space c) eqn:E; [exact IH | exact E].
Qed.

Lemma trimStart_trim s : trimStart (trim s) = trim s.
Proof.
  apply trimStart_fixed. unfold trim, trimEnd.
  pose proof (trimStart_head s) as H.
  destruct (trimStart s) as [| c t] eqn:E; [reflexivity |].
  simpl in H.
  destruct (trimStart (rev (c :: t))) as [| d u] eqn:E2; [reflexivity |].
  assert (Hsuffix : exists pre, rev (c :: t) = pre ++ d :: u).
  { clear -E2. generalize dependent (rev (c :: t)). intros l.
    induction l as [| x l IH]; simpl; [discriminate |].
    destruct (is_space x).
    - intros H. destruct (IH H) as [pre ->]. now exists (x :: pre).
    - intros [= -> ->]. now exists []. }
  destruct Hsuffix as [pre Hpre].
  apply (f_equal (@rev N)) in Hpre. rewrite rev_involutive, rev_app_distr in Hpre.
  simpl in Hpre.
  destruct (rev u) as [| y v] eqn:Eu.
  - simpl in Hpre. simpl.
    apply (f_equal (@rev N)) in Eu. rewrite rev_involutive in Eu. subst u.
    simpl. injection Hpre as -> _. exact H.
  - simpl in Hpre. injection Hpre as -> _.
    change (rev (d :: u)) with (rev u ++ [d]). rewrite Eu. simpl. exact H.
Qed.

Lemma checkJson_confidence content :
  confidence (checkJson content)
  == jsonConfidence (test MarkdownPatterns.startsWithJsonChar content) (parses content).
Proof.
  unfold checkJson, jsonConfidence, parses.
  destruct (test MarkdownPatterns.startsWithJsonChar content);
    destruct (JSON_parse content); reflexivity.
Qed.

(** C6: [detectDocumentFormat] returns the first of the JSON, HTML and
    Markdown checks, in that order, whose confidence is above 0.8, 0.6 and
    0.5, and otherwise [text] with confidence 0.5; the confidence of the JSON
    check is 0.3 for a trimmed text that starts with a brace or a bracket
    plus 0.6 when it parses, and 0.2 when it starts so and does not parse. *)
Theorem detection_order_and_json_confidence (document : str) :
  let trimmed := trim document in
  detectDocumentFormat document =
    first_above [(checkJson trimmed, 8 # 10);
                 (checkHtml trimmed, 6 # 10);
                 (checkMarkdown trimmed, 5 # 10)] textFallback /\
  format textFallback = text_format /\
  confidence textFallback == 5 # 10 /\
  format (checkJson trimmed) = json_format /\
  confidence (checkJson trimmed)
  == jsonConfidence (head_is (one_of "[{") trimmed) (parses trimmed).
Proof using Type.
  intros trimmed. split; [| split; [| split; [| split]]].
  - unfold detectDocumentFormat. fold trimmed. cbn [first_above].
    destruct (gt (confidence (checkJson trimmed)) (8 # 10)); [reflexivity |].
    destruct (gt (confidence (checkHtml trimmed)) (6 # 10)); [reflexivity |].
    destruct (gt (confidence (checkMarkdown trimmed)) (5 # 10)); reflexivity.
  - reflexivity.
  - reflexivity.
  - unfold checkJson.
    destruct (test MarkdownPatterns.startsWithJsonChar trimmed);
      destruct (JSON_parse trimmed); reflexivity.
  - rewrite checkJson_confidence, startsWithJsonChar_head.
    unfold trimmed. now rewrite trimStart_trim.
Qed.

(** *** The empty query *)

Local Abbreviation search_docs_handler :=
  (search_docs_handler JSON_parse toLowerCase normalizeNFD splitHtmlIntoChunks
     htmlToSimpleMarkdown).
Local Abbreviation search_docs :=
  (search_docs JSON_parse toLowerCase normalizeNFD splitHtmlIntoChunks
     htmlToSimpleMarkdown).

Lemma normalizeText_empty : normalizeText [] = [].
Proof using lower_ascii nfd_ascii.
  rewrite normalizeText_ascii by constructor. reflexivity.
Qed.

Lemma empty_term_scores_nothing chunk : calculateRelevanceScore chunk [[]] == 0.
Proof using lower_ascii nfd_ascii.
  unfold calculateRelevanceScore. cbn [fold_left]. unfold scoreTerm.
  rewrite normalizeText_empty. cbn [truthy negb].
  rewrite applyBonuses_factors. ring.
Qed.

Lemma filter_mapi_none {A B} (keep : B -> bool) (f : A -> nat -> B) l :
  (forall x i, keep (f x i) = false) -> forall i, List.filter keep (mapi f i l) = [].
Proof.
  intros H. induction l as [| x l IH]; intros i; [reflexivity |].
  simpl. now rewrite H, IH.
Qed.

Lemma nothing_relevant_for_empty_term chunks : relevantChunks chunks [[]] = [].
Proof using lower_ascii nfd_ascii.
  unfold relevantChunks, scoredChunks. rewrite filter_mapi_none; [reflexivity |].
  intros x i. cbn [score]. unfold gt.
  assert (H : Qle_bool (calculateRelevanceScore x [[]]) 0 = true).
  { apply Qle_bool_iff. rewrite empty_term_scores_nothing. apply Qle_refl. }
  now rewrite H.
Qed.

Lemma empty_query_finds_nothing document options :
  searchInDocs document [] options =
  {| results := [];
     totalChunks := length (splitIntoChunks document (chunking options));
     matchedChunks := 0 |}.
Proof using lower_ascii nfd_ascii.
  unfold searchInDocs. change (extractSearchTerms []) with [@nil N].
  rewrite nothing_relevant_for_empty_term. reflexivity.
Qed.

(** C8, amended: for the empty query [extractSearchTerms] gives the one
    empty term, every chunk scores 0, and [searchInDocs] returns no result
    and no matched chunk; the handler of the tool, given an empty list of
    results, puts the one sentence that says so in its place; the tool
    itself turns the empty query down, since its input schema wants a search
    text of at least one code unit. *)
Theorem empty_query_scenario (config : MCPConfig)
    (fetchDocument : str -> result str) (formatHttpError : option str -> str -> str)
    (max_results : option Z) (document : str) :
  fetchDocument (docsUrl config) = Return document ->
  extractSearchTerms [] = [[]] /\
  (forall chunk, calculateRelevanceScore chunk [[]] == 0) /\
  (forall options,
     results (searchInDocs document [] options) = [] /\
     matchedChunks (searchInDocs document [] options) = 0%nat) /\
  (forall search,
     results (searchInDocs document search
                (options_of_number (default (defaultMaxResults config) max_results)))
     = [] ->
     output_results
       (search_docs_handler config fetchDocument formatHttpError search max_results)
     = [msg_no_results]) /\
  output_results
    (search_docs_handler config fetchDocument formatHttpError [] max_results)
  = [msg_no_results] /\
  search_docs config fetchDocument formatHttpError [] max_results = InvalidArguments.
Proof using lower_ascii nfd_ascii.
  intros Hfetch. split; [reflexivity |]. split; [apply empty_term_scores_nothing |].
  split; [intros options; now rewrite empty_query_finds_nothing |].
  assert (Hsentinel : forall search,
    results (searchInDocs document search
               (options_of_number (default (defaultMaxResults config) max_results)))
    = [] ->
    output_results
      (search_docs_handler config fetchDocument formatHttpError search max_results)
    = [msg_no_results]).
  { intros search Hnone. unfold search_docs_handler. rewrite Hfetch.
    cbn [bind try_catch output_results]. now rewrite Hnone. }
  split; [exact Hsentinel |]. split; [| reflexivity].
  apply Hsentinel. now rewrite empty_query_finds_nothing.
Qed.

End HostProperties.

(** ** The smart-fetch pipeline *)

Section SmartFetchProperties.

Variable JSON_parse : str -> option json.
Variable client_get : str -> Z -> result json.
Variable axios_get : str -> Z -> result json.
Variable JSON_stringify : json -> str.
Variable openApiToMarkdown : json -> result str.
Variable URL_href : str -> str -> option str.
Variable probeCommonSpecEndpoints : str -> Z -> result (option (str * SpecType)).
Variable isPuppeteerAvailable : bool.
Variable renderSwaggerPage : str -> Z -> RenderResult.

Local Abbreviation fetchWithHttp :=
  (fetchWithHttp JSON_parse client_get JSON_stringify openApiToMarkdown).
Local Abbreviation smartFetch_body :=
  (smartFetch_body JSON_parse client_get axios_get JSON_stringify openApiToMarkdown
     URL_href probeCommonSpecEndpoints isPuppeteerAvailable renderSwaggerPage).
Local Abbreviation smartFetch :=
  (smartFetch JSON_parse client_get axios_get JSON_stringify openApiToMarkdown
     URL_href probeCommonSpecEndpoints isPuppeteerAvailable renderSwaggerPage).

Lemma fetchWithHttp_succeeds url opts r :
  fetchWithHttp url opts = Return r -> success r = true.
Proof.
  unfold fetchWithHttp, bind. destruct (client_get url (httpTimeout opts)) as [data |];
    [| discriminate].
  destruct (is_object data).
  - destruct (isValidOpenApiSpec data).
    + destruct (openApiToMarkdown data); [| discriminate]. now intros [= <-].
    + now intros [= <-].
  - destruct data; try discriminate. now intros [= <-].
Qed.

Lemma attempt_succeeds enabled strategy r :
  attempt enabled strategy = Return (Some r) -> success r = true.
Proof.
  unfold attempt, bind. destruct enabled; [| discriminate].
  destruct strategy as [x |]; [| discriminate].
  destruct (success x) eqn:E; [| discriminate]. now intros [= <-].
Qed.

(** Whatever the body of [smartFetch] returns is a success. *)
Lemma smartFetch_body_succeeds url opts r :
  smartFetch_body url opts = Return r -> success r = true.
Proof.
  unfold smartFetch_body. unfold bind at 1.
  destruct (fetchWithHttp url opts) as [httpResult |] eqn:Ehttp; [| discriminate].
  apply fetchWithHttp_succeeds in Ehttp.
  destruct (negb (ContentType_eqb (contentType httpResult) ct_html)
            || negb (looksLikeSpa (default [] (fetched httpResult)))).
  - now intros [= <-].
  - unfold bind at 1.
    destruct (attempt (tryOpenApiSpec opts) _) as [[swagger |] |] eqn:Es;
      [| | discriminate].
    + apply attempt_succeeds in Es. now intros [= <-].
    + unfold bind at 1.
      destruct (attempt (useHeadlessFallback opts) _) as [[rendered |] |] eqn:Eh;
        [| | discriminate].
      * apply attempt_succeeds in Eh. now intros [= <-].
      * now intros [= <-].
Qed.

(** [smartFetch] fails exactly when something in its body throws, in the
    direct fetch or after it. *)
Lemma smartFetch_fails_iff_thrown url opts :
  success (smartFetch url opts) = false <->
  exists thrown, smartFetch_body url opts = Throw thrown.
Proof.
  unfold smartFetch, try_catch.
  destruct (smartFetch_body url opts) as [r | thrown] eqn:E.
  - apply smartFetch_body_succeeds in E. rewrite E. split; [discriminate |].
    intros [t Ht]. discriminate.
  - split; [intros _; now exists thrown | reflexivity].
Qed.

End SmartFetchProperties.

(** C9, at the page above: the direct fetch succeeds and returns the page
    as HTML, the rendering of the spec throws inside [trySwaggerExtraction],
    and [smartFetch] returns a failure where the direct-fetch result was to
    be the fallback.  No text reaches [JSON.parse] on the way: the page
    starts with [<], and the spec arrives as an object. *)
Theorem smartFetch_fails_after_direct_fetch (JSON_parse : str -> option json) :
  BrokenSpec.fetchWithHttp JSON_parse BrokenSpec.url DEFAULT_OPTIONS =
    Return {| success := true; fetched := Some BrokenSpec.page;
              contentType := ct_html; method := direct; error := None;
              url := BrokenSpec.url; specUrl := None |} /\
  BrokenSpec.smartFetch JSON_parse BrokenSpec.url DEFAULT_OPTIONS =
    {| success := false; fetched := None; contentType := ct_unknown;
       method := direct;
       error := Some (lit "Cannot read properties of null (reading 'get')");
       url := BrokenSpec.url; specUrl := None |}.
Proof. split; vm_compute; reflexivity. Qed.

(** ** The ASCII host meets what is assumed of a host *)

Module AsciiHostFacts.

Lemma no_upper s :
  Forall (fun c => is_upper c = false)
         (AsciiHost.normalizeNFD (AsciiHost.toLowerCase s)).
Proof.
  unfold AsciiHost.normalizeNFD, AsciiHost.toLowerCase.
  induction s as [| c s IH]; simpl; constructor; [| exact IH].
  destruct (is_upper c) eqn:E; [| exact E].
  unfold is_upper in *. apply ScorerFacts.between_spec in E.
  apply ScorerFacts.between_false. lia.
Qed.

Lemma lower_ascii s :
  Forall (fun c => is_ascii c = true) s ->
  AsciiHost.toLowerCase s = AsciiHost.toLowerCase s.
Proof. reflexivity. Qed.

Lemma nfd_ascii s :
  Forall (fun c => is_ascii c = true) s -> AsciiHost.normalizeNFD s = s.
Proof. reflexivity. Qed.

Lemma space_not_upper c : ascii_space c = true -> is_upper c = false.
Proof.
  unfold ascii_space, is_space, is_upper, is_ascii. intros H.
  apply ScorerFacts.between_false. intros Hu.
  apply andb_true_iff in H as [H _].
  rewrite !orb_true_iff, !ScorerFacts.between_spec, !N.eqb_eq in H. lia.
Qed.

Lemma lower_space x sep y :
  sep <> [] -> Forall (fun c => ascii_space c = true) sep ->
  AsciiHost.toLowerCase (x ++ sep ++ y) =
  AsciiHost.toLowerCase x ++ sep ++ AsciiHost.toLowerCase y.
Proof.
  intros _ Hsep. unfold AsciiHost.toLowerCase. rewrite !map_app. do 2 f_equal.
  induction Hsep as [| c sep Hc _ IH]; [reflexivity |].
  simpl. now rewrite (space_not_upper c Hc), IH.
Qed.

Lemma nfd_space x sep y :
  sep <> [] -> Forall (fun c => ascii_space c = true) sep ->
  AsciiHost.normalizeNFD (x ++ sep ++ y) =
  AsciiHost.normalizeNFD x ++ sep ++ AsciiHost.normalizeNFD y.
Proof. reflexivity. Qed.

End AsciiHostFacts.

(** ** The properties at work on the ASCII host *)

Lemma normalizeText_idempotent_witness :
  AsciiHost.normalizeText (AsciiHost.normalizeText shouted)
  = AsciiHost.normalizeText shouted.
Proof.
  exact (normalizeText_idempotent AsciiHost.toLowerCase AsciiHost.normalizeNFD
           AsciiHostFacts.no_upper AsciiHostFacts.lower_ascii
           AsciiHostFacts.nfd_ascii shouted).
Defined.

Lemma score_refines_reference_witness :
  (AsciiHost.calculateRelevanceScore auth_section
     [lit "bearer token"; lit "bearer"; lit "token"]
   == referenceScore AsciiHost.toLowerCase AsciiHost.normalizeNFD auth_section
        [lit "bearer token"; lit "bearer"; lit "token"])%Q /\
  (0 <= AsciiHost.calculateRelevanceScore auth_section
          [lit "bearer token"; lit "bearer"; lit "token"])%Q.
Proof.
  exact (score_refines_reference AsciiHost.toLowerCase AsciiHost.normalizeNFD
           AsciiHostFacts.no_upper auth_section
           [lit "bearer token"; lit "bearer"; lit "token"]).
Defined.

Lemma score_grows_with_occurrences_witness :
  (AsciiHost.calculateRelevanceScore (lit "Send the token.") [lit "token"]
   <= AsciiHost.calculateRelevanceScore
        ((lit "Send the token." ++ lit " " ++ lit "token") ++ [LF] ++ lit "token")
        [lit "token"])%Q.
Proof.
  refine (score_grows_with_occurrences AsciiHost.toLowerCase AsciiHost.normalizeNFD
            AsciiHostFacts.no_upper AsciiHostFacts.lower_space
            AsciiHostFacts.nfd_space (lit "Send the token.") (lit "token")
            [lit " "; [LF]] _).
  repeat constructor; discriminate.
Defined.

(** C5, as stated, fails: the term [ab] added next to the [ab] of the chunk
    makes the word [abab], in which the term is no word; the score goes from
    25/2 to 21/2. *)
Lemma adjacent_occurrence_lowers_score :
  ~ monotone_as_stated AsciiHost.calculateRelevanceScore.
Proof.
  intros H.
  specialize (H (lit "ab") (lit "abab") (lit "ab")
                (ex_intro _ [] (ex_intro _ (lit "ab") (conj eq_refl eq_refl)))).
  vm_compute in H. apply H. reflexivity.
Qed.

Lemma bearer_token_scenario_witness :
  AsciiHost.JSON_parse doc_intro_auth = None /\
  ((exists result,
      results (AsciiHost.searchInDocs doc_intro_auth (lit "bearer token") defaultSearch)
      = [result] /\ includes result auth_section = true) /\
   matchedChunks (AsciiHost.searchInDocs doc_intro_auth (lit "bearer token") defaultSearch)
   = 1 /\
   totalChunks (AsciiHost.searchInDocs doc_intro_auth (lit "bearer token") defaultSearch)
   = 2).
Proof.
  split; [reflexivity |].
  exact (bearer_token_scenario AsciiHost.JSON_parse AsciiHost.toLowerCase
           AsciiHost.normalizeNFD AsciiHost.splitHtmlIntoChunks
           AsciiHost.htmlToSimpleMarkdown AsciiHostFacts.lower_ascii
           AsciiHostFacts.nfd_ascii eq_refl).
Defined.

(** C8, as stated, fails: the tool turns the empty query down. *)
Lemma empty_query_counterexample : ~ answers_empty_query GuideTool.search_docs.
Proof.
  intros (output & Hcall & _). vm_compute in Hcall. discriminate.
Qed.

Lemma empty_query_scenario_witness :
  GuideTool.fetchDocument (docsUrl GuideTool.config) = Return doc_intro_auth /\
  output_results (GuideTool.search_docs_handler [] None) = [msg_no_results] /\
  GuideTool.search_docs [] None = InvalidArguments.
Proof.
  split; [reflexivity |].
  exact (proj2 (proj2 (proj2 (proj2
    (empty_query_scenario AsciiHost.JSON_parse AsciiHost.toLowerCase
       AsciiHost.normalizeNFD AsciiHost.splitHtmlIntoChunks
       AsciiHost.htmlToSimpleMarkdown AsciiHostFacts.lower_ascii
       AsciiHostFacts.nfd_ascii GuideTool.config GuideTool.fetchDocument
       GuideTool.formatHttpError None doc_intro_auth eq_refl))))).
Defined.

(** A query of white space passes the input schema, finds nothing, and is
    answered with the sentence. *)
Example blank_query_gets_sentinel :
  exists output,
    GuideTool.search_docs (lit " ") None = StructuredContent output /\
    output_results output = [msg_no_results] /\ matched_chunks output = 0.
Proof. eexists. split; [vm_compute; reflexivity | split; reflexivity]. Qed.

(** * Further properties of the code *)

(** ** The expanded context *)

Module ContextFacts.

Lemma includes_app_l x s t : includes s t = true -> includes (x ++ s) t = true.
Proof.
  intros H. induction x as [| c x IH]; [exact H |].
  simpl. rewrite IH. apply orb_true_r.
Qed.

Lemma includes_app_mid s t y : includes s t = true -> includes (s ++ y) t = true.
Proof.
  induction s as [| c s IH]; simpl.
  - rewrite orb_false_r. destruct t; [destruct y; reflexivity | discriminate].
  - intros H. apply orb_true_iff in H as [H | H].
    + change (c :: s ++ y) with ((c :: s) ++ y).
      rewrite (ScorerFacts.starts_with_app t (c :: s) y H). reflexivity.
    + rewrite (IH H). apply orb_true_r.
Qed.

End ContextFacts.

(** [getExpandedContext]: an index out of range gives the empty string; in
    range, the context contains the target chunk, and it is the target chunk
    alone or has fewer than [MAX_CONTEXT_SIZE] code units of chunks and at
    most two separators of seven. *)
Theorem expanded_context_bounds (chunks : list str) (targetIndex : nat) :
  match nth_error chunks targetIndex with
  | None => getExpandedContext chunks targetIndex = []
  | Some targetChunk =>
      includes (getExpandedContext chunks targetIndex) targetChunk = true /\
      length (getExpandedContext chunks targetIndex)
      <= Nat.max (length targetChunk) (MAX_CONTEXT_SIZE + 13)
  end.
Proof.
  unfold getExpandedContext.
  destruct (nth_error chunks targetIndex) as [target |]; [| reflexivity].
  set (prev := match targetIndex with O => None | S i => nth_error chunks i end).
  destruct prev as [p |]; destruct (nth_error chunks (S targetIndex)) as [n |].
  - destruct (length target + length p <? MAX_CONTEXT_SIZE) eqn:Ep.
    + destruct (length target + length p + length n <? MAX_CONTEXT_SIZE) eqn:En.
      * apply Nat.ltb_lt in En. split.
        -- cbn [app join]. apply ContextFacts.includes_app_l, ContextFacts.includes_app_l.
           apply ContextFacts.includes_app_mid, ScorerFacts.includes_self.
        -- cbn [app join]. rewrite !length_app.
           change (length (lit "

---

")) with 7. unfold MAX_CONTEXT_SIZE in *. lia.
      * apply Nat.ltb_lt in Ep. split.
        -- cbn [app join]. apply ContextFacts.includes_app_l, ScorerFacts.includes_app_r.
        -- cbn [app join]. rewrite !length_app.
           change (length (lit "

---

")) with 7. unfold MAX_CONTEXT_SIZE in *. lia.
    + destruct (length target + length n <? MAX_CONTEXT_SIZE) eqn:En.
      * apply Nat.ltb_lt in En. split.
        -- cbn [app join]. apply ContextFacts.includes_app_mid, ScorerFacts.includes_self.
        -- cbn [app join]. rewrite !length_app.
           change (length (lit "

---

")) with 7. unfold MAX_CONTEXT_SIZE in *. lia.
      * split; [apply ScorerFacts.includes_self | cbn [app join]; lia].
  - destruct (length target + length p <? MAX_CONTEXT_SIZE) eqn:Ep.
    + apply Nat.ltb_lt in Ep. split.
      * cbn [app join]. apply ContextFacts.includes_app_l, ScorerFacts.includes_app_r.
      * cbn [app join]. rewrite !length_app.
        change (length (lit "

---

")) with 7. unfold MAX_CONTEXT_SIZE in *. lia.
    + split; [apply ScorerFacts.includes_self | cbn [app join]; lia].
  - destruct (length target + length n <? MAX_CONTEXT_SIZE) eqn:En.
    + apply Nat.ltb_lt in En. split.
      * cbn [app join]. apply ContextFacts.includes_app_mid, ScorerFacts.includes_self.
      * cbn [app join]. rewrite !length_app.
        change (length (lit "

---

")) with 7. unfold MAX_CONTEXT_SIZE in *. lia.
    + split; [apply ScorerFacts.includes_self | cbn [app join]; lia].
  - split; [apply ScorerFacts.includes_self | cbn [app join]; lia].
Qed.

(** ** Ranking and selection *)

Module RankingFacts.

Lemma insert_by_score_length x l : length (insert_by_score x l) = S (length l).
Proof.
  induction l as [| y l IH]; simpl; [reflexivity |].
  destruct (Qle_bool (score y) (score x)); simpl; [reflexivity | now rewrite IH].
Qed.

Lemma sort_by_score_length l : length (sort_by_score l) = length l.
Proof.
  unfold sort_by_score. induction l as [| x l IH]; simpl; [reflexivity |].
  now rewrite insert_by_score_length, IH.
Qed.

Lemma mapi_length {A B} (f : A -> nat -> B) l : forall i, length (mapi f i l) = length l.
Proof. induction l as [| x l IH]; intros i; simpl; [reflexivity | now rewrite IH]. Qed.

Lemma insert_by_score_perm x l : Permutation (insert_by_score x l) (x :: l).
Proof.
  induction l as [| y l IH]; simpl; [reflexivity |].
  destruct (Qle_bool (score y) (score x)); [reflexivity |].
  rewrite IH. apply perm_swap.
Qed.

Lemma sort_by_score_perm l : Permutation (sort_by_score l) l.
Proof.
  unfold sort_by_score. induction l as [| x l IH]; simpl; [reflexivity |].
  rewrite insert_by_score_perm. now constructor.
Qed.

Lemma ranks_before_le a b : ranks_before a b -> (score b <= score a)%Q.
Proof.
  intros [H | [H _]]; [now apply Qlt_le_weak | rewrite H; apply Qle_refl].
Qed.

Lemma insert_by_score_ranked x l :
  ForallOrdPairs ranks_before l ->
  Forall (fun y => index x < index y) l ->
  ForallOrdPairs ranks_before (insert_by_score x l).
Proof.
  induction 1 as [| y l Hy Hl IH]; intros Hx; simpl.
  - repeat constructor.
  - apply Forall_cons_iff in Hx as [Hxy Hxl].
    destruct (Qle_bool (score y) (score x)) eqn:E.
    + apply Qle_bool_iff in E.
      assert (Hall : Forall (fun z => (score z <= score x)%Q) (y :: l)).
      { constructor; [exact E |].
        eapply List.Forall_impl; [| exact Hy]. intros z Hz. cbn beta in Hz.
        apply Qle_trans with (score y); [now apply ranks_before_le | exact E]. }
      constructor; [| now constructor].
      apply List.Forall_forall. intros z Hz.
      assert (Hle : (score z <= score x)%Q).
      { rewrite List.Forall_forall in Hall. now apply Hall. }
      assert (Hiz : index x < index z).
      { destruct Hz as [<- | Hz]; [exact Hxy |].
        rewrite List.Forall_forall in Hxl. now apply Hxl. }
      apply Qle_lteq in Hle as [Hlt | Heq]; [now left | right; now split].
    + assert (Hlt : (score x < score y)%Q).
      { apply Qnot_le_lt. intros H. apply Qle_bool_iff in H. congruence. }
      constructor; [| apply IH; exact Hxl].
      apply List.Forall_forall. intros z Hz.
      apply (Permutation_in _ (insert_by_score_perm x l)) in Hz.
      destruct Hz as [<- | Hz]; [now left |].
      rewrite List.Forall_forall in Hy. now apply Hy.
Qed.

Lemma sort_by_score_ranked l :
  ForallOrdPairs (fun a b => index a < index b) l ->
  ForallOrdPairs ranks_before (sort_by_score l).
Proof.
  unfold sort_by_score. induction 1 as [| x l Hx Hl IH]; simpl; [constructor |].
  apply insert_by_score_ranked; [exact IH |].
  apply List.Forall_forall. intros y Hy.
  apply (Permutation_in _ (sort_by_score_perm l)) in Hy.
  rewrite List.Forall_forall in Hx. now apply Hx.
Qed.

Lemma filter_ordered {A} (R : A -> A -> Prop) (keep : A -> bool) l :
  ForallOrdPairs R l -> ForallOrdPairs R (List.filter keep l).
Proof.
  induction 1 as [| x l Hx Hl IH]; simpl; [constructor |].
  destruct (keep x); [| exact IH].
  constructor; [| exact IH].
  apply List.Forall_forall. intros y Hy. apply List.filter_In in Hy as [Hy _].
  rewrite List.Forall_forall in Hx. now apply Hx.
Qed.

Lemma mapi_ordered {A} (f : A -> nat -> DocChunk) l :
  (forall x i, index (f x i) = i) ->
  forall i, ForallOrdPairs (fun a b => index a < index b) (mapi f i l).
Proof.
  intros Hf. induction l as [| x l IH]; intros i; simpl; [constructor |].
  constructor; [| apply IH].
  apply List.Forall_forall. intros c Hc.
  apply (Selection.mapi_index f l Hf) in Hc. rewrite Hf. lia.
Qed.

Lemma mapi_content {A} (f : A -> nat -> DocChunk) (g : DocChunk -> A) l :
  (forall x i, index (f x i) = i /\ g (f x i) = x) ->
  forall i c, In c (mapi f i l) -> nth_error l (index c - i) = Some (g c) /\ i <= index c.
Proof.
  intros Hf. induction l as [| x l IH]; intros i c; simpl; [tauto |].
  intros [<- | H].
  - destruct (Hf x i) as [-> ->]. rewrite Nat.sub_diag. split; [reflexivity | lia].
  - apply IH in H as [H Hi]. split; [| lia].
    replace (index c - i) with (S (index c - S i)) by lia. exact H.
Qed.

Lemma selecting_length chunks m relevant : forall st,
  length (selected (selecting chunks m relevant st))
  <= length (selected st) + length relevant /\
  (Z.of_nat (length (selected (selecting chunks m relevant st)))
   <= Z.max (Z.of_nat (length (selected st))) m)%Z.
Proof.
  induction relevant as [| chunk rest IH]; intros st; simpl; [lia |].
  unfold select.
  destruct (m <=? Z.of_nat (length (selected st)))%Z eqn:E; [lia |].
  apply Z.leb_gt in E.
  destruct (decide (index chunk ∈ usedIndices st)).
  - specialize (IH st). lia.
  - match goal with |- context [selecting _ _ _ ?s] => specialize (IH s) end.
    cbn [selected] in IH. rewrite length_app in IH. simpl in IH. lia.
Qed.

End RankingFacts.

Section SearchResults.

Variable JSON_parse : str -> option json.
Variable toLowerCase : str -> str.
Variable normalizeNFD : str -> str.
Variable splitHtmlIntoChunks : str -> list str.
Variable htmlToSimpleMarkdown : str -> str.

Local Abbreviation splitIntoChunks :=
  (splitIntoChunks JSON_parse splitHtmlIntoChunks htmlToSimpleMarkdown).
Local Abbreviation scoredChunks := (scoredChunks toLowerCase normalizeNFD).
Local Abbreviation relevantChunks := (relevantChunks toLowerCase normalizeNFD).
Local Abbreviation searchInDocs :=
  (searchInDocs JSON_parse toLowerCase normalizeNFD splitHtmlIntoChunks
     htmlToSimpleMarkdown).

(** The chunks that [searchInDocs] ranks are those with a positive score,
    each with its content and its place in the document, ordered by score,
    highest first, and among equal scores by their place in the document. *)
Theorem relevant_chunks_ranked (chunks searchTerms : list str) :
  let relevant := relevantChunks chunks searchTerms in
  ForallOrdPairs ranks_before relevant /\
  Permutation relevant
    (List.filter (fun chunk => gt (score chunk) 0) (scoredChunks chunks searchTerms)) /\
  Forall (fun chunk => (0 < score chunk)%Q /\
                       nth_error chunks (index chunk) = Some (content chunk))
         relevant.
Proof.
  intros relevant. unfold relevant, relevantChunks. split; [| split].
  - apply RankingFacts.sort_by_score_ranked, RankingFacts.filter_ordered.
    apply RankingFacts.mapi_ordered. reflexivity.
  - apply RankingFacts.sort_by_score_perm.
  - apply List.Forall_forall. intros c Hc.
    apply Selection.sort_by_score_In in Hc. apply List.filter_In in Hc as [Hc Hpos].
    split.
    + unfold gt in Hpos. apply negb_true_iff in Hpos.
      apply Qnot_le_lt. intros H. apply Qle_bool_iff in H. congruence.
    + apply (RankingFacts.mapi_content _ content) in Hc as [Hc _];
        [| intros x i; split; reflexivity].
      now rewrite Nat.sub_0_r in Hc.
Qed.



End SearchResults.

(** ** The scorer *)

Module TermFacts.
Import RegexFacts.

(** The pieces of [query.split(/\s+/)] that are not empty are the words of
    the query. *)
Lemma split_spaces_go a : forall b piece at_p skip,
  skip <= run_length is_space a -> skip = 0 \/ piece = [] ->
  List.filter truthy (split_go (plus is_space) b a piece at_p skip)
  = tokens_go piece a.
Proof.
  induction a as [| c a IH]; intros b piece at_p skip Hskip Hpiece.
  - simpl. destruct piece as [| d piece]; [reflexivity |].
    simpl. destruct (rev piece ++ [d]) eqn:E; [| reflexivity].
    now apply app_eq_nil in E as [_ E].
  - cbn [split_go tokens_go]. destruct skip as [| n].
    + rewrite exec_plus. cbn [run_length].
      destruct (is_space c) eqn:Ec.
      * cbn [Nat.leb]. cbn [List.filter].
        assert (Hrest : List.filter truthy
                  (split_go (plus is_space) (c :: b) a [] true (run_length is_space a))
                  = tokens_go [] a) by (apply IH; [lia | now right]).
        rewrite Hrest. destruct piece as [| d piece]; [reflexivity |].
        simpl. destruct (rev piece ++ [d]) eqn:E; [| reflexivity].
        now apply app_eq_nil in E as [_ E].
      * cbn [Nat.leb]. apply IH; [lia | now left].
    + cbn [run_length] in Hskip. destruct (is_space c) eqn:Ec; [| lia].
      destruct Hpiece as [| ->]; [discriminate |].
      apply IH; [lia | now right].
Qed.

Lemma split_spaces s : List.filter truthy (split (plus is_space) s) = tokens s.
Proof.
  unfold split, tokens. destruct s as [| c s]; [reflexivity |].
  apply split_spaces_go; [lia | now left].
Qed.

Lemma filter_longer (n : nat) (l : list str) :
  List.filter (fun w => n <? length w) (List.filter truthy l)
  = List.filter (fun w => n <? length w) l.
Proof.
  induction l as [| w l IH]; [reflexivity |].
  simpl. destruct w as [| c w]; simpl; [exact IH | now rewrite IH].
Qed.

End TermFacts.

(** [extractSearchTerms] gives the query itself, whatever it is, and after
    it the words of the query, its maximal runs without white space, that
    have more than two code units, in their order. *)
Theorem search_terms_are_query_and_words (query : str) :
  extractSearchTerms query
  = query :: List.filter (fun word => 2 <? length word) (tokens query).
Proof.
  unfold extractSearchTerms. f_equal.
  now rewrite <- TermFacts.split_spaces, TermFacts.filter_longer.
Qed.

Section ScorerMore.
Local Open Scope Q_scope.

Variable toLowerCase : str -> str.
Variable normalizeNFD : str -> str.

Local Abbreviation normalizeText := (normalizeText toLowerCase normalizeNFD).
Local Abbreviation scoreTerm := (scoreTerm toLowerCase normalizeNFD).
Local Abbreviation calculateRelevanceScore :=
  (calculateRelevanceScore toLowerCase normalizeNFD).

Hypothesis no_upper :
  forall s, Forall (fun c => is_upper c = false) (normalizeNFD (toLowerCase s)).

Lemma scoreTerm_adds normalizedChunk score term :
  scoreTerm normalizedChunk score term
  == score + scoreTerm normalizedChunk 0 term.
Proof using Type.
  unfold scoreTerm.
  destruct (negb (truthy (normalizeText term))); [ring |].
  destruct (includes normalizedChunk (normalizeText term)); ring.
Qed.

Lemma sumQ_perm (l l' : list Q) : Permutation l l' -> sumQ l == sumQ l'.
Proof using Type.
  induction 1 as [| x l l' _ IH | x y l | l l' l'' _ IH1 _ IH2]; cbn [sumQ].
  - reflexivity.
  - now rewrite IH.
  - ring.
  - now rewrite IH1.
Qed.

(** The order of the search terms does not count: two lists with the same
    terms, each as many times, give a chunk the same score.  The terms add
    to one sum, of multiples of one half, before the bonuses multiply it. *)
Theorem score_ignores_term_order (chunk : str) (searchTerms reordered : list str) :
  Permutation searchTerms reordered ->
  calculateRelevanceScore chunk searchTerms
  == calculateRelevanceScore chunk reordered.
Proof using Type.
  intros Hperm. unfold calculateRelevanceScore.
  rewrite !applyBonuses_factors.
  rewrite !(fold_left_sumQ _ (scoreTerm (normalizeText chunk) 0))
    by apply scoreTerm_adds.
  rewrite (sumQ_perm _ _ (Permutation_map _ Hperm)). reflexivity.
Qed.

(** A normalized text is a list of words joined by single spaces, each word
    not empty and made of [a-z], [0-9] and [_] only. *)
Theorem normalized_text_shape (s : str) :
  exists ws, normalizeText s = join (lit " ") ws /\ Forall plain_word ws.
Proof using no_upper.
  exists (tokens (raw toLowerCase normalizeNFD s)). split.
  - apply normalizeText_words.
  - now apply tokens_raw_plain.
Qed.

End ScorerMore.

Lemma normalized_text_shape_witness :
  exists ws, AsciiHost.normalizeText shouted = join (lit " ") ws /\ Forall plain_word ws.
Proof.
  exact (normalized_text_shape AsciiHost.toLowerCase AsciiHost.normalizeNFD
           AsciiHostFacts.no_upper shouted).
Defined.

Lemma score_ignores_term_order_witness :
  (AsciiHost.calculateRelevanceScore auth_section [lit "bearer"; lit "token"]
   == AsciiHost.calculateRelevanceScore auth_section [lit "token"; lit "bearer"])%Q.
Proof.
  exact (score_ignores_term_order AsciiHost.toLowerCase AsciiHost.normalizeNFD
           auth_section [lit "bearer"; lit "token"] [lit "token"; lit "bearer"]
           (perm_swap _ _ _)).
Defined.

(** ** The format detector *)

Section FormatMore.
Local Open Scope Q_scope.

Variable JSON_parse : str -> option json.

Local Abbreviation detectDocumentFormat := (detectDocumentFormat JSON_parse).
Local Abbreviation checkJson := (checkJson JSON_parse).
Local Abbreviation parses := (parses JSON_parse).
Local Abbreviation isHtmlDocument := (isHtmlDocument JSON_parse).
Local Abbreviation isJsonDocument := (isJsonDocument JSON_parse).
Local Abbreviation isMarkdownDocument := (isMarkdownDocument JSON_parse).

Lemma gt_spec (x y : Q) : gt x y = true <-> y < x.
Proof.
  unfold gt. rewrite negb_true_iff. split.
  - intros H. apply Qnot_le_lt. intros Hle. apply Qle_bool_iff in Hle. congruence.
  - intros H. destruct (Qle_bool x y) eqn:E; [| reflexivity].
    apply Qle_bool_iff in E. apply Qlt_not_le in H. contradiction.
Qed.

Lemma Qmin1_le (x : Q) : Qmin1 x <= 1.
Proof.
  unfold Qmin1. destruct (Qle_bool x 1) eqn:E; [now apply Qle_bool_iff | apply Qle_refl].
Qed.

Lemma checkHtml_result content :
  format (checkHtml content) = html /\ confidence (checkHtml content) <= 1.
Proof.
  unfold checkHtml. repeat match goal with |- context [if ?c then _ else _] => destruct c end; (split; [reflexivity | apply Qmin1_le]).
Qed.

Lemma checkMarkdown_result content :
  format (checkMarkdown content) = markdown /\ confidence (checkMarkdown content) <= 1.
Proof.
  unfold checkMarkdown. repeat match goal with |- context [if ?c then _ else _] => destruct c end; (split; [reflexivity | apply Qmin1_le]).
Qed.

Lemma checkJson_result content :
  format (checkJson content) = json_format /\ confidence (checkJson content) <= 1.
Proof.
  unfold checkJson. destruct (JSON_parse content);
    repeat match goal with |- context [if ?c then _ else _] => destruct c end; (split; [reflexivity | apply Qmin1_le]).
Qed.

(** What [detectDocumentFormat] returns is one of four things. *)
Lemma detection_cases document :
  let d := detectDocumentFormat document in
  (d = checkJson (trim document) /\ 8 # 10 < confidence d) \/
  (d = checkHtml (trim document) /\ 6 # 10 < confidence d /\
   ~ 8 # 10 < confidence (checkJson (trim document))) \/
  (d = checkMarkdown (trim document) /\ 5 # 10 < confidence d /\
   ~ 8 # 10 < confidence (checkJson (trim document))) \/
  (d = textFallback /\ ~ 8 # 10 < confidence (checkJson (trim document))).
Proof.
  intros d. unfold d, detectDocumentFormat.
  destruct (gt (confidence (checkJson (trim document))) (8 # 10)) eqn:Ej.
  { left. split; [reflexivity | now apply gt_spec]. }
  assert (Hj : ~ 8 # 10 < confidence (checkJson (trim document))).
  { intros H. apply gt_spec in H. congruence. }
  destruct (gt (confidence (checkHtml (trim document))) (6 # 10)) eqn:Eh.
  { right. left. split; [reflexivity | split; [now apply gt_spec | exact Hj]]. }
  destruct (gt (confidence (checkMarkdown (trim document))) (5 # 10)) eqn:Em.
  { right. right. left. split; [reflexivity | split; [now apply gt_spec | exact Hj]]. }
  right. right. right. split; [reflexivity | exact Hj].
Qed.

Lemma detection_thresholds (document : str) :
  let d := detectDocumentFormat document in
  match format d with
  | json_format => 8 # 10 < confidence d
  | html => 6 # 10 < confidence d
  | markdown => 5 # 10 < confidence d
  | text_format => confidence d == 5 # 10
  end.
Proof.
  intros d. destruct (detection_cases document) as [[E H] | [[E [H _]] | [[E [H _]] | [E _]]]];
    fold d in E, H || fold d in E.
  - destruct (checkJson_result (trim document)) as [Hf _]. rewrite <- E in Hf.
    now rewrite Hf.
  - destruct (checkHtml_result (trim document)) as [Hf _]. rewrite <- E in Hf.
    now rewrite Hf.
  - destruct (checkMarkdown_result (trim document)) as [Hf _]. rewrite <- E in Hf.
    now rewrite Hf.
  - rewrite E. reflexivity.
Qed.

(** The confidence that [detectDocumentFormat] reports is between 0.5 and 1:
    above 0.8 for JSON, above 0.6 for HTML, above 0.5 for Markdown, and 0.5
    for plain text. *)
Theorem detection_confidence_range (document : str) :
  let d := detectDocumentFormat document in
  (5 # 10 <= confidence d /\ confidence d <= 1) /\
  match format d with
  | json_format => 8 # 10 < confidence d
  | html => 6 # 10 < confidence d
  | markdown => 5 # 10 < confidence d
  | text_format => confidence d == 5 # 10
  end.
Proof.
  intros d. pose proof (detection_thresholds document) as Ht. cbv zeta in Ht. fold d in Ht.
  split; [| exact Ht]. split.
  - destruct (format d); lra.
  - destruct (detection_cases document) as [[E _] | [[E _] | [[E _] | [E _]]]];
      fold d in E; rewrite E.
    + apply checkJson_result.
    + apply checkHtml_result.
    + apply checkMarkdown_result.
    + discriminate.
Qed.

(** A document is taken for JSON exactly when its trimmed text starts with
    a brace or a bracket and [JSON.parse] accepts it, whatever it holds. *)
Theorem json_detected_iff (document : str) :
  format (detectDocumentFormat document) = json_format
  <-> head_is (one_of "[{") (trim document) = true /\ parses (trim document) = true.
Proof.
  assert (Hconf : confidence (checkJson (trim document))
                  == jsonConfidence (head_is (one_of "[{") (trim document))
                                    (parses (trim document))).
  { rewrite (checkJson_confidence JSON_parse), startsWithJsonChar_head.
    now rewrite trimStart_trim. }
  split.
  - intros Hf.
    destruct (detection_cases document) as [[E H] | [[E _] | [[E _] | [E _]]]].
    + rewrite E, Hconf in H. unfold jsonConfidence in H.
      destruct (head_is (one_of "[{") (trim document));
        destruct (parses (trim document)); try (split; reflexivity);
        exfalso; revert H; apply Qle_not_lt; discriminate.
    + rewrite E in Hf. destruct (checkHtml_result (trim document)) as [Hh _]. congruence.
    + rewrite E in Hf. destruct (checkMarkdown_result (trim document)) as [Hm _].
      congruence.
    + rewrite E in Hf. discriminate.
  - intros [Hs Hp]. rewrite Hs, Hp in Hconf. unfold jsonConfidence in Hconf.
    destruct (detection_cases document) as [[E H] | [[_ [_ Hn]] | [[_ [_ Hn]] | [_ Hn]]]].
    + rewrite E. apply checkJson_result.
    + exfalso. apply Hn. rewrite Hconf. reflexivity.
    + exfalso. apply Hn. rewrite Hconf. reflexivity.
    + exfalso. apply Hn. rewrite Hconf. reflexivity.
Qed.

(** Each of the exported predicates holds exactly when [detectDocumentFormat]
    names its format: the second test, of the confidence, never fails.  So
    no two of them hold of one document. *)
Theorem format_predicates_follow_detection (document : str) :
  let d := detectDocumentFormat document in
  isHtmlDocument document = DocumentFormat_eqb (format d) html /\
  isJsonDocument document = DocumentFormat_eqb (format d) json_format /\
  isMarkdownDocument document = DocumentFormat_eqb (format d) markdown.
Proof.
  intros d. unfold isHtmlDocument, isJsonDocument, isMarkdownDocument. fold d.
  pose proof (detection_thresholds document) as H. cbv zeta in H. fold d in H.
  destruct (format d); cbn [DocumentFormat_eqb andb]; repeat split; try reflexivity.
  - apply gt_spec. lra.
  - apply gt_spec. lra.
  - apply gt_spec. lra.
Qed.

End FormatMore.

Section ChunkingOptionsMore.

Variable JSON_parse : str -> option json.
Variable splitHtmlIntoChunks : str -> list str.
Variable htmlToSimpleMarkdown : str -> str.

Local Abbreviation detectFormat := (detectFormat JSON_parse).
Local Abbreviation splitIntoChunks :=
  (splitIntoChunks JSON_parse splitHtmlIntoChunks htmlToSimpleMarkdown).

Lemma detectFormat_format document enableHtml enableJson :
  detectFormat document enableHtml enableJson
  = format (detectDocumentFormat JSON_parse document).
Proof.
  unfold detectFormat.
  destruct (format (detectDocumentFormat JSON_parse document)); cbn [DocumentFormat_eqb andb];
    try reflexivity.
  - now destruct (enableHtml && _).
  - now destruct (enableJson && _).
Qed.

(** The options [enableHtmlFallback] and [enableJsonFallback] change nothing:
    with or without them the chunking strategy is that of the detected
    format, or of [forceFormat] when it is given, and the chunks are the
    same. *)
Theorem fallback_flags_have_no_effect (document : str) (options : ChunkingOptions) :
  splitIntoChunks document options
  = splitIntoChunks document
      {| forceFormat := forceFormat options;
         enableHtmlFallback := None; enableJsonFallback := None |}.
Proof.
  unfold splitIntoChunks. cbn [forceFormat enableHtmlFallback enableJsonFallback].
  destruct (forceFormat options); [reflexivity |].
  now rewrite !detectFormat_format.
Qed.

End ChunkingOptionsMore.

(** ** The HTML chunker: sizes of the groups *)

Module HtmlChunkerFacts.
Import HtmlChunker Coverage HtmlGrouping.

Lemma length_trimStart s : length (trimStart s) <= length s.
Proof.
  induction s as [| c s IH]; simpl; [lia |].
  destruct (is_space c); simpl; lia.
Qed.

Lemma length_trim s : length (trim s) <= length (trimStart s).
Proof.
  unfold trim, trimEnd. rewrite length_rev.
  etransitivity; [apply length_trimStart |]. now rewrite length_rev.
Qed.

Lemma length_trim_le s : length (trim s) <= length s.
Proof. etransitivity; [apply length_trim | apply length_trimStart]. Qed.

Lemma trimStart_nil_blank s : trimStart s = [] -> blank s.
Proof.
  induction s as [| c s IH]; simpl; [constructor |].
  destruct (is_space c) eqn:E; [| discriminate].
  intros H. constructor; [exact E | exact (IH H)].
Qed.

Lemma trim_nil_blank s : truthy (trim s) = false -> blank s.
Proof.
  intros H. assert (Ht : trim s = []) by (destruct (trim s); [reflexivity | discriminate]).
  unfold trim, trimEnd in Ht.
  apply (f_equal (@rev N)) in Ht. rewrite rev_involutive in Ht. simpl in Ht.
  apply trimStart_nil_blank, NormalFacts.blank_rev in Ht.
  rewrite rev_involutive in Ht.
  apply trimStart_nil_blank.
  pose proof (trimStart_head s) as Hh.
  destruct (trimStart s) as [| c t]; [reflexivity |].
  apply Forall_cons_iff in Ht as [Hc _]. simpl in Hh. congruence.
Qed.

Lemma groupText_grouped texts st text :
  In text texts ->
  Forall (grouped texts) (fst st) ->
  (length (snd st) <= MAX_CHUNK_SIZE \/ In (snd st) texts) ->
  Forall (grouped texts) (fst (groupText st text)) /\
  (length (snd (groupText st text)) <= MAX_CHUNK_SIZE
   \/ In (snd (groupText st text)) texts).
Proof.
  destruct st as [chunks cur]. cbn [fst snd]. intros Ht Hchunks Hcur.
  unfold groupText.
  destruct ((MAX_CHUNK_SIZE <? length (cur ++ (if truthy cur then lit " " else []) ++ text))
            && truthy cur) eqn:E; cbn [fst snd].
  - split; [| now right].
    apply Forall_app. split; [exact Hchunks |]. constructor; [| constructor].
    destruct Hcur as [Hle | Hin].
    + left. pose proof (length_trim_le cur). lia.
    + right. now exists cur.
  - split; [exact Hchunks |].
    destruct cur as [| d cur]; [right; exact Ht |].
    cbn [truthy] in E. rewrite andb_true_r in E. apply Nat.ltb_ge in E. now left.
Qed.

Lemma fold_groupText_grouped texts l : forall st,
  incl l texts ->
  Forall (grouped texts) (fst st) ->
  (length (snd st) <= MAX_CHUNK_SIZE \/ In (snd st) texts) ->
  Forall (grouped texts) (flush (fold_left groupText l st)).
Proof.
  induction l as [| text l IH]; intros st Hl Hchunks Hcur; simpl.
  - destruct st as [chunks cur]. unfold flush.
    destruct (truthy (trim cur)); [| exact Hchunks].
    apply Forall_app. split; [exact Hchunks |]. constructor; [| constructor].
    cbn [snd] in Hcur. destruct Hcur as [Hle | Hin].
    + left. pose proof (length_trim_le cur). lia.
    + right. now exists cur.
  - assert (Ht : In text texts) by (apply Hl; now left).
    destruct (groupText_grouped texts st text Ht Hchunks Hcur) as [H1 H2].
    apply IH; [intros x Hx; apply Hl; now right | exact H1 | exact H2].
Qed.

Lemma groupTextIntoChunks_grouped texts :
  Forall (grouped texts) (groupTextIntoChunks texts).
Proof.
  unfold groupTextIntoChunks. apply fold_groupText_grouped.
  - apply incl_refl.
  - constructor.
  - left. simpl. unfold MAX_CHUNK_SIZE. lia.
Qed.

Lemma subdivideContent_sectioned sections section :
  In section sections -> MAX_CHUNK_SIZE < length (content section) ->
  Forall (HtmlSections.sectioned sections) (subdivideContent (content section)).
Proof.
  intros Hin Hbig. unfold subdivideContent.
  set (paragraphs := List.filter nonblank (split Patterns.paragraphs (content section))).
  set (sentences := List.filter nonblank (split Patterns.sentences (content section))).
  assert (H : forall texts,
    (forall t, In t texts -> In t (split Patterns.paragraphs (content section)) \/
                            In t (split Patterns.sentences (content section))) ->
    Forall (HtmlSections.sectioned sections) (groupTextIntoChunks texts)).
  { intros texts Htexts.
    eapply List.Forall_impl; [| apply groupTextIntoChunks_grouped].
    intros c [Hle | (text & Ht & ->)]; [now left |].
    destruct (Nat.le_gt_cases (length text) MAX_CHUNK_SIZE) as [Hsmall | Hlong].
    - left. pose proof (length_trim_le text). lia.
    - right. exists section, text. repeat split; auto. }
  destruct (1 <? length paragraphs).
  - apply H. intros t Ht. left. now apply List.filter_In in Ht as [Ht _].
  - apply H. intros t Ht. right. now apply List.filter_In in Ht as [Ht _].
Qed.

Lemma groupSection_sectioned sections st section :
  In section sections ->
  Forall (HtmlSections.sectioned sections) (fst st) ->
  length (trimStart (snd st)) <= MAX_CHUNK_SIZE ->
  Forall (HtmlSections.sectioned sections) (fst (groupSection st section)) /\
  length (trimStart (snd (groupSection st section))) <= MAX_CHUNK_SIZE.
Proof.
  destruct st as [chunks cur]. cbn [fst snd]. intros Hin Hchunks Hcur.
  assert (Hpush : Forall (HtmlSections.sectioned sections) (chunks ++ [trim cur])).
  { apply Forall_app. split; [exact Hchunks |]. constructor; [| constructor].
    left. pose proof (length_trim cur). lia. }
  unfold groupSection.
  destruct (MAX_CHUNK_SIZE <? length (content section)) eqn:Ebig.
  - apply Nat.ltb_lt in Ebig.
    pose proof (subdivideContent_sectioned sections section Hin Ebig) as Hsub.
    destruct (truthy (trim cur)); cbn [fst snd].
    + split; [| simpl; unfold MAX_CHUNK_SIZE; lia].
      apply Forall_app. split; [exact Hpush | exact Hsub].
    + split; [| exact Hcur]. apply Forall_app. split; [exact Hchunks | exact Hsub].
  - apply Nat.ltb_ge in Ebig.
    destruct (MAX_CHUNK_SIZE <? length (cur ++ (if truthy cur then [LF; LF] else []) ++ content section))
      eqn:Eex; cbn [andb].
    + destruct (truthy (trim cur)) eqn:Etrim; cbn [fst snd].
      * split; [exact Hpush |]. pose proof (length_trimStart (content section)). lia.
      * split; [exact Hchunks |].
        apply trim_nil_blank in Etrim.
        rewrite app_assoc, NormalFacts.trimStart_blank.
        -- pose proof (length_trimStart (content section)). lia.
        -- apply Forall_app. split; [exact Etrim |].
           destruct (truthy cur); repeat constructor.
    + cbn [fst snd]. split; [exact Hchunks |]. apply Nat.ltb_ge in Eex.
      etransitivity; [apply length_trimStart | exact Eex].
Qed.

Lemma fold_groupSection_sectioned sections l : forall st,
  incl l sections ->
  Forall (HtmlSections.sectioned sections) (fst st) ->
  length (trimStart (snd st)) <= MAX_CHUNK_SIZE ->
  Forall (HtmlSections.sectioned sections) (flush (fold_left groupSection l st)).
Proof.
  induction l as [| section l IH]; intros st Hl Hchunks Hcur; simpl.
  - destruct st as [chunks cur]. unfold flush.
    destruct (truthy (trim cur)); [| exact Hchunks].
    apply Forall_app. split; [exact Hchunks |]. constructor; [| constructor].
    left. cbn [snd] in Hcur. pose proof (length_trim cur). lia.
  - assert (Hs : In section sections) by (apply Hl; now left).
    destruct (groupSection_sectioned sections st section Hs Hchunks Hcur) as [H1 H2].
    apply IH; [intros x Hx; apply Hl; now right | exact H1 | exact H2].
Qed.

End HtmlChunkerFacts.

(** [groupTextIntoChunks] counts the joining space before it compares with
    the cap: every chunk it returns is within [MAX_CHUNK_SIZE], or is one of
    the texts, trimmed, that is over the cap by itself. *)
Theorem grouped_texts_within_cap (texts : list str) :
  Forall (fun chunk =>
            length chunk <= MAX_CHUNK_SIZE \/
            exists text, In text texts /\ MAX_CHUNK_SIZE < length text /\
                         chunk = trim text)
         (HtmlChunker.groupTextIntoChunks texts).
Proof.
  eapply List.Forall_impl; [| apply HtmlChunkerFacts.groupTextIntoChunks_grouped].
  intros c [Hle | (text & Hin & ->)]; [now left |].
  destruct (Nat.le_gt_cases (length text) MAX_CHUNK_SIZE) as [Hsmall | Hbig].
  - left. pose proof (HtmlChunkerFacts.length_trim_le text). lia.
  - right. now exists text.
Qed.

(** [groupSectionsIntoChunks] keeps its chunks within the cap: every chunk it
    returns is within [MAX_CHUNK_SIZE], or is a paragraph or a sentence,
    trimmed, of a section over the cap, that is over the cap by itself. *)
Theorem grouped_sections_within_cap (sections : list HtmlChunker.HtmlSection) :
  Forall (HtmlSections.sectioned sections) (HtmlChunker.groupSectionsIntoChunks sections).
Proof.
  unfold HtmlChunker.groupSectionsIntoChunks.
  apply HtmlChunkerFacts.fold_groupSection_sectioned.
  - apply incl_refl.
  - constructor.
  - simpl. unfold MAX_CHUNK_SIZE. lia.
Qed.

(** ** Stripping tags *)

Module TagFacts.
Import HtmlPatterns HtmlChunker Tags RegexFacts.

Lemma orelse_None_r {A} (x : option A) : orelse x None = x.
Proof. now destruct x. Qed.

Lemma exec_allTags b a : exec allTags b a = tag_length a.
Proof.
  unfold exec, allTags. cbn [seq run].
  destruct a as [| c [| d a2]]; cbn [tag_length].
  - reflexivity.
  - destruct (ch "<" c); reflexivity.
  - destruct (ch "<" c); cbn [andb]; [| reflexivity].
    cbn [plus run rep Nat.eqb pred option_map]. rewrite orelse_None_r.
    destruct (not_ch ">" d); [| reflexivity].
    rewrite rep_greedy_disjoint.
    + destruct (skipn (run_length (not_ch ">") a2) a2) as [| g a3] eqn:Es; [reflexivity |].
      destruct (ch ">" g); [| reflexivity].
      f_equal. apply (f_equal (@length N)) in Es. rewrite length_skipn in Es.
      simpl in Es. simpl. pose proof (run_length_le (not_ch ">") a2). lia.
    + intros b0 c0 a0 H. unfold not_ch in H. apply negb_true_iff in H. now rewrite H.
Qed.

Lemma closes_skipn n s : closes (skipn n s) = true -> closes s = true.
Proof.
  revert s. induction n as [| n IH]; intros s; [now rewrite skipn_O |].
  destruct s as [| c s]; simpl; [discriminate |].
  intros H. rewrite (IH s H). apply orb_true_r.
Qed.

(** The text left after a run of code units other than [>] starts with the
    first [>] of the text, if there is one. *)
Lemma closes_run s :
  closes s = true ->
  exists g rest, skipn (run_length (not_ch ">") s) s = g :: rest /\ ch ">" g = true.
Proof.
  induction s as [| c s IH]; simpl; [discriminate |].
  unfold not_ch at 1. destruct (ch ">" c) eqn:E; simpl.
  - intros _. now exists c, s.
  - exact IH.
Qed.

(** What [replace] leaves is taken from what it had not passed over. *)
Lemma replace_go_closes r a : forall b skip,
  closes (replace_go r [] b a skip) = true -> closes (skipn skip a) = true.
Proof.
  induction a as [| c a IH]; intros b skip.
  - destruct skip; simpl; [| discriminate]. destruct (exec r b []) as [[| n] |]; discriminate.
  - destruct skip as [| n]; cbn [replace_go skipn].
    + destruct (exec r b (c :: a)) as [[| n] |]; cbn [app closes existsb].
      * intros H. apply orb_true_iff in H as [H | H]; [now rewrite H |].
        apply IH in H. rewrite skipn_O in H. unfold closes in H. rewrite H. apply orb_true_r.
      * intros H. apply IH, closes_skipn in H. unfold closes in H. rewrite H. apply orb_true_r.
      * intros H. apply orb_true_iff in H as [H | H]; [now rewrite H |].
        apply IH in H. rewrite skipn_O in H. unfold closes in H. rewrite H. apply orb_true_r.
    + apply IH.
Qed.

Lemma stripTags_go a : forall b skip b',
  test_go allTags b' (replace_go allTags [] b a skip) = false.
Proof.
  induction a as [| c a IH]; intros b skip b'.
  - destruct skip; cbn [replace_go]; [rewrite exec_allTags; cbn [tag_length app] |];
      cbn [test_go]; now rewrite exec_allTags.
  - destruct skip as [| n]; cbn [replace_go]; [| apply IH].
    rewrite exec_allTags.
    destruct (tag_length (c :: a)) as [[| m] |] eqn:Et.
    + exfalso. cbn [tag_length] in Et. destruct a as [| d a2]; [discriminate |].
      destruct (ch "<" c && not_ch ">" d); [| discriminate].
      destruct (skipn _ a2); [discriminate |]. destruct (ch ">" n); discriminate.
    + cbn [app]. apply IH.
    + cbn [app test_go]. rewrite exec_allTags, IH.
      destruct (tag_length (c :: replace_go allTags [] (c :: b) a 0)) eqn:Eo; [| reflexivity].
      exfalso. cbn [tag_length] in Eo.
      destruct (replace_go allTags [] (c :: b) a 0) as [| d o2] eqn:Eout; [discriminate |].
      destruct (ch "<" c) eqn:Ec; cbn [andb] in Eo; [| discriminate].
      destruct (not_ch ">" d) eqn:Ed; [| discriminate].
      assert (Hcl : closes a = true).
      { apply (replace_go_closes allTags a (c :: b) 0). rewrite Eout.
        cbn [closes existsb]. apply orb_true_iff. right.
        destruct (skipn (run_length (not_ch ">") o2) o2) as [| g rest] eqn:Es; [discriminate |].
        destruct (ch ">" g) eqn:Eg; [| discriminate].
        apply (closes_skipn (run_length (not_ch ">") o2)). rewrite Es. simpl. now rewrite Eg. }
      cbn [tag_length] in Et. rewrite Ec in Et. cbn [andb] in Et.
      destruct a as [| d' a2]; [discriminate |].
      destruct (not_ch ">" d') eqn:Ed'.
      * cbn [closes existsb] in Hcl. unfold not_ch in Ed'. apply negb_true_iff in Ed'.
        rewrite Ed' in Hcl. cbn [orb] in Hcl.
        destruct (closes_run a2 Hcl) as (g & rest & Hs & Hg).
        rewrite Hs, Hg in Et. discriminate.
      * cbn [replace_go] in Eout. rewrite exec_allTags in Eout.
        assert (Hd : tag_length (d' :: a2) = None).
        { cbn [tag_length]. destruct a2; [reflexivity |].
          unfold not_ch in Ed'. apply negb_false_iff in Ed'.
          assert (Hne : ch "<" d' = false).
          { unfold ch in *. apply N.eqb_eq in Ed'. subst d'. reflexivity. }
          now rewrite Hne. }
        rewrite Hd in Eout. injection Eout as -> _. congruence.
Qed.

Lemma replace_go_no_match r by_ a : forall b,
  test_go r b a = false -> replace_go r by_ b a 0 = a.
Proof.
  induction a as [| c a IH]; intros b; cbn [test_go replace_go].
  - destruct (exec r b []); [discriminate | reflexivity].
  - destruct (exec r b (c :: a)); [discriminate |]. intros H. now rewrite IH.
Qed.

End TagFacts.

(** [stripTags] leaves no tag: what it returns has no match of the pattern
    of tags in it, and stripping it again changes nothing. *)
Theorem stripTags_leaves_no_tag (html : str) :
  test HtmlPatterns.allTags (HtmlChunker.stripTags html) = false /\
  HtmlChunker.stripTags (HtmlChunker.stripTags html) = HtmlChunker.stripTags html.
Proof.
  assert (H : test HtmlPatterns.allTags (HtmlChunker.stripTags html) = false)
    by apply TagFacts.stripTags_go.
  split; [exact H |].
  unfold HtmlChunker.stripTags at 1. unfold replace_all.
  now apply TagFacts.replace_go_no_match.
Qed.

(** ** The configuration *)

(** [maskToken] shows the first ten and the last four code units of a token
    of more than fourteen, and nothing of what is between them; of a token
    of fourteen code units or fewer it shows nothing. *)
Theorem masked_token_shows_ends_only (first middle last : str) :
  length first = 10 -> length last = 4 ->
  Config.maskToken (first ++ middle ++ last)
  = if truthy middle then first ++ lit "..." ++ last else lit "***".
Proof.
  intros Hf Hl. unfold Config.maskToken. rewrite !length_app, Hf, Hl.
  destruct middle as [| c middle]; [reflexivity |].
  cbn [truthy length].
  destruct (10 + (S (length middle) + 4) <=? 14) eqn:E; [apply Nat.leb_le in E; lia |].
  rewrite firstn_app, Hf, Nat.sub_diag, firstn_O, app_nil_r.
  rewrite <- Hf at 1. rewrite firstn_all. do 2 f_equal.
  rewrite app_assoc, skipn_app.
  replace (10 + (S (length middle) + 4) - 4 - length (first ++ c :: middle)) with 0
    by (rewrite length_app; simpl; lia).
  rewrite skipn_O, skipn_all2; [reflexivity |].
  rewrite length_app. simpl. lia.
Qed.

Lemma masked_token_shows_ends_only_witness :
  Config.maskToken (lit "eyJhbGciOi" ++ lit "JIUzI1NiIsInR5cCI6" ++ lit "XVCJ")
  = lit "eyJhbGciOi" ++ lit "..." ++ lit "XVCJ".
Proof.
  exact (masked_token_shows_ends_only (lit "eyJhbGciOi") (lit "JIUzI1NiIsInR5cCI6")
           (lit "XVCJ") eq_refl eq_refl).
Defined.

(** [loadConfig] exits with code 1, after listing what is missing, exactly
    when the URL of the documentation or the token is unset or empty.  A
    configuration that it returns has both as the environment gives them,
    at most 10 and at least 1 results by default (3 when the variable is
    unset or empty), and a timeout of 1000 ms at least (10000 when unset or
    empty); each number is [NaN] when its variable does not start with an
    integer. *)
Theorem loaded_config_is_valid (env : Config.Environment) :
  match Config.loadConfig env with
  | Config.Exit code errors =>
      code = 1%Z /\ errors <> [] /\
      (Config.falsy (Config.MCP_DOCS_URL env) = true
       \/ Config.falsy (Config.MCP_JWT_TOKEN env) = true)
  | Config.Loaded config =>
      (Config.MCP_DOCS_URL env = Some (Config.docsUrl config)
       /\ Config.docsUrl config <> []) /\
      (Config.MCP_JWT_TOKEN env = Some (Config.jwtToken config)
       /\ Config.jwtToken config <> []) /\
      match Config.defaultMaxResults config with
      | Some n => (1 <= n <= 10)%Z
      | None =>
          Config.parseInt (Config.or_else (Config.MCP_DEFAULT_MAX_RESULTS env) (lit "3"))
          = None
      end /\
      match Config.requestTimeout config with
      | Some n => (1000 <= n)%Z
      | None =>
          Config.parseInt (Config.or_else (Config.MCP_REQUEST_TIMEOUT env) (lit "10000"))
          = None
      end /\
      (Config.falsy (Config.MCP_DEFAULT_MAX_RESULTS env) = true ->
       Config.defaultMaxResults config = Some 3%Z) /\
      (Config.falsy (Config.MCP_REQUEST_TIMEOUT env) = true ->
       Config.requestTimeout config = Some 10000%Z)
  end.
Proof.
  unfold Config.loadConfig.
  destruct (Config.falsy (Config.MCP_DOCS_URL env)) eqn:Ed;
    destruct (Config.falsy (Config.MCP_JWT_TOKEN env)) eqn:Ej; cbn [app length Nat.ltb Nat.leb].
  - repeat split; [discriminate | now left].
  - repeat split; [discriminate | now left].
  - repeat split; [discriminate | now right].
  - cbn [Config.docsUrl Config.jwtToken Config.defaultMaxResults Config.requestTimeout].
    assert (Hset : forall v, Config.falsy v = false ->
                             v = Some (default [] v) /\ default [] v <> []).
    { intros [s |]; simpl; [| discriminate]. destruct s; [discriminate |].
      intros _. split; [reflexivity | discriminate]. }
    assert (Hunset : forall v fallback, Config.falsy v = true ->
                                        Config.or_else v fallback = fallback).
    { intros [s |] fallback; simpl; [| reflexivity]. now destruct s. }
    split; [now apply Hset |]. split; [now apply Hset |].
    split; [| split; [| split]].
    + unfold Config.clamp, Config.Math_min, Config.Math_max.
      destruct (Config.parseInt _); simpl; [lia | reflexivity].
    + unfold Config.Math_max. destruct (Config.parseInt _); simpl; [lia | reflexivity].
    + intros H. now rewrite (Hunset _ _ H).
    + intros H. now rewrite (Hunset _ _ H).
Qed.

(** ** Probing for a spec *)

Module ProbeFacts.
Import SwaggerDetector.

Lemma starts_with_eq x : forall y,
  starts_with x y = true -> length x = length y -> x = y.
Proof.
  induction x as [| c x IH]; intros [| d y]; simpl; try discriminate; [reflexivity |].
  intros H Hl. apply andb_true_iff in H as [Hc H]. apply N.eqb_eq in Hc. subst d.
  f_equal. apply IH; [exact H | lia].
Qed.

Lemma str_eqb_eq x y : str_eqb x y = true <-> x = y.
Proof.
  unfold str_eqb. split.
  - intros H. apply andb_true_iff in H as [Hl H]. apply Nat.eqb_eq in Hl.
    now apply starts_with_eq.
  - intros ->. now rewrite Nat.eqb_refl, ScorerFacts.starts_with_refl.
Qed.

Lemma seen_spec x seen : existsb (str_eqb x) seen = true <-> In x seen.
Proof.
  rewrite existsb_exists. split.
  - intros (y & Hy & E). apply str_eqb_eq in E. now subst y.
  - intros H. exists x. split; [exact H | now apply str_eqb_eq].
Qed.

Lemma unique_In l : forall seen x,
  In x (unique seen l) <-> In x l /\ ~ In x seen.
Proof.
  induction l as [| y l IH]; intros seen x; simpl; [tauto |].
  destruct (existsb (str_eqb y) seen) eqn:E.
  - apply seen_spec in E. rewrite IH. split; [tauto |].
    intros [[-> | H] Hn]; tauto.
  - assert (Hy : ~ In y seen) by (rewrite <- seen_spec; congruence).
    simpl. rewrite IH. simpl. split.
    + intros [<- | [H Hn]]; [tauto |]. split; [tauto |]. tauto.
    + intros [[<- | H] Hn]; [tauto |].
      destruct (str_eqb y x) eqn:Eyx.
      * apply str_eqb_eq in Eyx. now left.
      * right. split; [exact H |]. intros [-> | Hs]; [| tauto].
        rewrite (proj2 (str_eqb_eq x x) eq_refl) in Eyx. discriminate.
Qed.

Lemma unique_NoDup l : forall seen, List.NoDup (unique seen l).
Proof.
  induction l as [| y l IH]; intros seen; simpl; [constructor |].
  destruct (existsb (str_eqb y) seen); [apply IH |].
  constructor; [| apply IH].
  rewrite unique_In. simpl. tauto.
Qed.

Lemma unique_length l : forall seen, length (unique seen l) <= length l.
Proof.
  induction l as [| y l IH]; intros seen; simpl; [lia |].
  destruct (existsb (str_eqb y) seen); simpl; [specialize (IH seen) | specialize (IH (y :: seen))]; lia.
Qed.

Lemma starts_with_prefix x y : starts_with x (x ++ y) = true.
Proof. induction x as [| c x IH]; simpl; [reflexivity |]. now rewrite N.eqb_refl. Qed.

Lemma generateSpecUrls_origin (base : URL) :
  Forall (fun url => starts_with (origin base) url = true) (generateSpecUrls base).
Proof.
  unfold generateSpecUrls.
  set (pathname := if _ && _ then _ else _).
  set (pathParts := List.filter truthy _).
  match goal with |- context [unique [] ?l] => set (all := l) end.
  apply List.Forall_forall. intros u Hu.
  apply unique_In in Hu as [Hu _].
  assert (Hall : Forall (fun url => starts_with (origin base) url = true) all).
  { unfold all.
    assert (H1 : Forall (fun url => starts_with (origin base) url = true)
              (map (fun suffix =>
                      if starts_with (lit "../") suffix
                      then origin base ++ slash
                           ++ join slash (removelast pathParts)
                           ++ slash ++ skipn 3 suffix
                      else origin base ++ pathname ++ slash ++ suffix)
                   RELATIVE_SPEC_SUFFIXES)).
    { apply List.Forall_forall. intros x Hx. apply in_map_iff in Hx as (s & <- & _).
      destruct (starts_with (lit "../") s); apply starts_with_prefix. }
    assert (H2 : forall (mid : str) files,
              Forall (fun url => starts_with (origin base) url = true)
                (map (fun file => origin base ++ slash ++ mid ++ slash ++ file) files)).
    { intros mid files. apply List.Forall_forall. intros x Hx.
      apply in_map_iff in Hx as (s & <- & _). apply starts_with_prefix. }
    destruct (0 <? length pathParts); destruct (2 <=? length pathParts);
      repeat (apply Forall_app; split); auto. }
  rewrite List.Forall_forall in Hall. now apply Hall.
Qed.

End ProbeFacts.

(** The URLs that [generateSpecUrls] lists are all on the origin of the
    page, no URL is listed twice, and there are 21 at most. *)
Theorem generated_spec_urls (base : SwaggerDetector.URL) :
  let urls := SwaggerDetector.generateSpecUrls base in
  Forall (fun url => starts_with (SwaggerDetector.origin base) url = true) urls /\
  List.NoDup urls /\ length urls <= 21.
Proof.
  intros urls. split; [apply ProbeFacts.generateSpecUrls_origin | split].
  - apply ProbeFacts.unique_NoDup.
  - unfold urls, SwaggerDetector.generateSpecUrls.
    set (pathParts := List.filter truthy _).
    etransitivity; [apply ProbeFacts.unique_length |].
    destruct (0 <? length pathParts); destruct (2 <=? length pathParts);
      rewrite ?length_app, !length_map; simpl; lia.
Qed.

Section ProbeProperties.

Variable axios_head : str -> Z -> result (option str).
Variable URL_parse : str -> option SwaggerDetector.URL.

Local Abbreviation tryFetchSpec := (SwaggerDetector.tryFetchSpec axios_head).
Local Abbreviation firstSpec := (SwaggerDetector.firstSpec axios_head).
Local Abbreviation probeCommonSpecEndpoints :=
  (SwaggerDetector.probeCommonSpecEndpoints axios_head URL_parse).

Lemma tryFetchSpec_found specUrl timeout found :
  tryFetchSpec specUrl timeout = Some found ->
  fst found = specUrl /\ exists header, axios_head specUrl timeout = Return header.
Proof.
  unfold tryFetchSpec, try_catch, bind.
  destruct (axios_head specUrl timeout) as [header |]; [| discriminate].
  intros H. split; [| now exists header].
  repeat match type of H with
         | (if ?c then _ else _) = _ => destruct c
         end; try discriminate; now injection H as <-.
Qed.

Lemma firstSpec_found urls timeout found :
  firstSpec urls timeout = Some found ->
  In (fst found) urls /\ exists header, axios_head (fst found) timeout = Return header.
Proof.
  induction urls as [| u urls IH]; simpl; [discriminate |].
  destruct (tryFetchSpec u timeout) as [f |] eqn:E.
  - intros [= <-]. apply tryFetchSpec_found in E as [E H]. rewrite E. split; [now left | exact H].
  - intros H. apply IH in H as [H1 H2]. split; [now right | exact H2].
Qed.

(** [probeCommonSpecEndpoints] throws only when the address of the page is
    no URL.  The spec URL that it finds, if any, is on the origin of the
    page, among the candidates, and answered the [HEAD] request with status
    200. *)
Theorem probe_stays_on_origin (baseUrl : str) (timeout : Z) :
  match URL_parse baseUrl with
  | None => exists thrown, probeCommonSpecEndpoints baseUrl timeout = Throw thrown
  | Some base =>
      exists result,
        probeCommonSpecEndpoints baseUrl timeout = Return result /\
        match result with
        | None => True
        | Some (specUrl, _) =>
            starts_with (SwaggerDetector.origin base) specUrl = true /\
            In specUrl
               (SwaggerDetector.generateSpecUrls base
                ++ map (fun endpoint => SwaggerDetector.origin base ++ endpoint)
                       SwaggerDetector.ROOT_SPEC_ENDPOINTS) /\
            exists header, axios_head specUrl timeout = Return header
        end
  end.
Proof.
  unfold probeCommonSpecEndpoints.
  destruct (URL_parse baseUrl) as [base |]; [| eexists; reflexivity].
  eexists. split; [reflexivity |].
  destruct (firstSpec (SwaggerDetector.generateSpecUrls base) timeout) as [[u t] |] eqn:E1.
  - apply firstSpec_found in E1 as [Hin Hhead]. cbn [fst] in Hin, Hhead.
    split; [| split; [apply in_or_app; now left | exact Hhead]].
    pose proof (ProbeFacts.generateSpecUrls_origin base) as H.
    rewrite List.Forall_forall in H. now apply H.
  - destruct (firstSpec (map (fun endpoint => SwaggerDetector.origin base ++ endpoint)
                              SwaggerDetector.ROOT_SPEC_ENDPOINTS) timeout)
      as [[u t] |] eqn:E2; [| exact I].
    apply firstSpec_found in E2 as [Hin Hhead]. cbn [fst] in Hin, Hhead.
    split; [| split; [apply in_or_app; now right | exact Hhead]].
    apply in_map_iff in Hin as (e & <- & _). apply ProbeFacts.starts_with_prefix.
Qed.

End ProbeProperties.

(** ** The [search_docs] tool *)

Section ToolProperties.

Variable JSON_parse : str -> option json.
Variable toLowerCase : str -> str.
Variable normalizeNFD : str -> str.
Variable splitHtmlIntoChunks : str -> list str.
Variable htmlToSimpleMarkdown : str -> str.
Variable config : MCPConfig.
Variable fetchDocument : str -> result str.
Variable formatHttpError : option str -> str -> str.

Local Abbreviation searchInDocs :=
  (searchInDocs JSON_parse toLowerCase normalizeNFD splitHtmlIntoChunks
     htmlToSimpleMarkdown).
Local Abbreviation search_docs_handler :=
  (search_docs_handler JSON_parse toLowerCase normalizeNFD splitHtmlIntoChunks
     htmlToSimpleMarkdown config fetchDocument formatHttpError).
Local Abbreviation search_docs :=
  (search_docs JSON_parse toLowerCase normalizeNFD splitHtmlIntoChunks
     htmlToSimpleMarkdown config fetchDocument formatHttpError).

Lemma handler_counts (document searchQuery : str) (n : Z) :
  let found := searchInDocs document searchQuery (options_of_number n) in
  length (results found) <= matchedChunks found <= totalChunks found /\
  length (results found) <= 3.
Proof.
  intros found. unfold found, searchInDocs, selectBestResults.
  cbn [results matchedChunks totalChunks maxResults options_of_number default].
  match goal with |- context [selecting ?c ?m ?r ?st] =>
    destruct (RankingFacts.selecting_length c m r st) as [H1 H2] end.
  cbn [selected length] in H1, H2. split; [split |].
  - exact H1.
  - unfold relevantChunks. rewrite RankingFacts.sort_by_score_length.
    etransitivity; [apply List.filter_length_le |].
    unfold scoredChunks. now rewrite RankingFacts.mapi_length.
  - lia.
Qed.

(** A call of the tool is turned down exactly when the query is empty or
    [max_results] is given and outside 1..10.  Otherwise [max_results] and
    the configured default have no effect on the output: the handler passes
    the number where [searchInDocs] takes its options, so the limit is
    always 3.  The output carries the query and the configured URL, and:
    when the document cannot be fetched, no results, zero counts and the
    formatted error; when it is fetched, no error, at least one entry (the
    fixed sentence when nothing matched) and three at most, and no more
    matched chunks than chunks. *)
Theorem tool_output_shape (search : str) (max_results : option Z) :
  match search_docs search max_results with
  | InvalidArguments =>
      search = [] \/ exists n, max_results = Some n /\ (n < 1 \/ 10 < n)%Z
  | StructuredContent out =>
      search <> [] /\
      (forall n, max_results = Some n -> (1 <= n <= 10)%Z) /\
      (forall other, out = search_docs_handler search other) /\
      query out = search /\ docs_url out = docsUrl config /\
      match fetchDocument (docsUrl config) with
      | Throw thrown =>
          output_results out = [] /\ total_chunks out = 0 /\ matched_chunks out = 0 /\
          output_error out = Some (formatHttpError thrown (docsUrl config))
      | Return document =>
          output_error out = None /\
          1 <= length (output_results out) <= 3 /\
          matched_chunks out <= total_chunks out /\
          (matched_chunks out = 0 -> output_results out = [msg_no_results])
      end
  end.
Proof.
  unfold search_docs, inputSchema.
  destruct (1 <=? length search) eqn:Es; cbn [andb].
  2: { left. apply Nat.leb_gt in Es. destruct search; [reflexivity | simpl in Es; lia]. }
  apply Nat.leb_le in Es.
  assert (Hs : search <> []) by (intros ->; simpl in Es; lia).
  assert (Hout : forall (ok : forall n, max_results = Some n -> (1 <= n <= 10)%Z),
    let out := search_docs_handler search max_results in
    search <> [] /\
    (forall n, max_results = Some n -> (1 <= n <= 10)%Z) /\
    (forall other, out = search_docs_handler search other) /\
    query out = search /\ docs_url out = docsUrl config /\
    match fetchDocument (docsUrl config) with
    | Throw thrown =>
        output_results out = [] /\ total_chunks out = 0 /\ matched_chunks out = 0 /\
        output_error out = Some (formatHttpError thrown (docsUrl config))
    | Return document =>
        output_error out = None /\
        1 <= length (output_results out) <= 3 /\
        matched_chunks out <= total_chunks out /\
        (matched_chunks out = 0 -> output_results out = [msg_no_results])
    end).
  { intros ok out. split; [exact Hs |]. split; [exact ok |].
    split; [intros other; reflexivity |].
    unfold out, search_docs_handler.
    destruct (fetchDocument (docsUrl config)) as [document | thrown];
      cbn [bind try_catch query docs_url output_results total_chunks matched_chunks
           output_error].
    2: { repeat split. }
    set (n := default (defaultMaxResults config) max_results).
    destruct (handler_counts document search n) as [[H1 H2] H3].
    cbv zeta in H1, H2, H3.
    split; [reflexivity |]. split; [reflexivity |]. split; [reflexivity |].
    destruct (0 <? length (results (searchInDocs document search (options_of_number n))))
      eqn:E.
    - apply Nat.ltb_lt in E. split; [lia |]. split; [lia |]. intros H0. lia.
    - split; [simpl; lia |]. split; [lia |]. reflexivity. }
  destruct max_results as [n |].
  - destruct ((1 <=? n)%Z) eqn:E1; cbn [andb].
    + destruct ((n <=? 10)%Z) eqn:E2.
      * apply Hout. intros m [= <-]. apply Z.leb_le in E1, E2. lia.
      * right. exists n. split; [reflexivity |]. apply Z.leb_gt in E2. lia.
    + right. exists n. split; [reflexivity |]. apply Z.leb_gt in E1. lia.
  - apply Hout. intros n H. discriminate.
Qed.

End ToolProperties.

(** ** More on the smart-fetch pipeline *)

Section SmartFetchMore.

Variable JSON_parse : str -> option json.
Variable client_get : str -> Z -> result json.
Variable axios_get : str -> Z -> result json.
Variable JSON_stringify : json -> str.
Variable openApiToMarkdown : json -> result str.
Variable URL_href : str -> str -> option str.
Variable probeCommonSpecEndpoints : str -> Z -> result (option (str * SpecType)).
Variable isPuppeteerAvailable : bool.
Variable renderSwaggerPage : str -> Z -> RenderResult.

Local Abbreviation detectContentType := (detectContentType JSON_parse).
Local Abbreviation fetchWithHttp :=
  (fetchWithHttp JSON_parse client_get JSON_stringify openApiToMarkdown).
Local Abbreviation tryProbe :=
  (tryProbe JSON_parse axios_get openApiToMarkdown probeCommonSpecEndpoints).
Local Abbreviation trySwaggerExtraction :=
  (trySwaggerExtraction JSON_parse axios_get openApiToMarkdown URL_href
     probeCommonSpecEndpoints).
Local Abbreviation tryHeadlessRender :=
  (tryHeadlessRender isPuppeteerAvailable renderSwaggerPage).
Local Abbreviation smartFetch_body :=
  (smartFetch_body JSON_parse client_get axios_get JSON_stringify openApiToMarkdown
     URL_href probeCommonSpecEndpoints isPuppeteerAvailable renderSwaggerPage).
Local Abbreviation smartFetch :=
  (smartFetch JSON_parse client_get axios_get JSON_stringify openApiToMarkdown
     URL_href probeCommonSpecEndpoints isPuppeteerAvailable renderSwaggerPage).

Lemma failed_well_formed by_method pageUrl m message :
  well_formed by_method pageUrl (failed m message pageUrl).
Proof. intros H. discriminate. Qed.

Lemma openapi_result_well_formed pageUrl markdown found :
  well_formed (eq openapi_spec) pageUrl (openapi_result pageUrl markdown found).
Proof.
  intros _. cbn. repeat split; try discriminate; try congruence. now exists markdown.
Qed.

Lemma detectContentType_known content : detectContentType content <> ct_unknown.
Proof.
  unfold detectContentType.
  repeat match goal with |- context [if ?c then _ else _] => destruct c end;
    discriminate.
Qed.

Lemma fetchWithHttp_well_formed pageUrl opts r :
  fetchWithHttp pageUrl opts = Return r -> well_formed (eq direct) pageUrl r.
Proof.
  unfold fetchWithHttp, bind.
  destruct (client_get pageUrl (httpTimeout opts)) as [data |]; [| discriminate].
  assert (Hd : direct = openapi_spec -> False) by discriminate.
  destruct (is_object data).
  - destruct (isValidOpenApiSpec data).
    + destruct (openApiToMarkdown data) as [markdown |]; [| discriminate].
      intros [= <-] _. cbn. repeat split; try discriminate; try congruence. eauto.
    + intros [= <-] _. cbn. repeat split; try discriminate; try congruence. eauto.
  - destruct data; try discriminate. intros [= <-] _. cbn.
    repeat split; try discriminate; try congruence; [eauto |].
    apply detectContentType_known.
Qed.

Lemma tryProbe_well_formed pageUrl opts r :
  tryProbe pageUrl opts = Return r -> well_formed (eq openapi_spec) pageUrl r.
Proof.
  unfold tryProbe, bind.
  destruct (probeCommonEndpoints opts);
    [| intros [= <-]; apply failed_well_formed].
  destruct (probeCommonSpecEndpoints pageUrl (httpTimeout opts / 2)) as [[[u t] |] |];
    [| intros [= <-]; apply failed_well_formed | discriminate].
  destruct (valid_spec _) as [spec |]; [| intros [= <-]; apply failed_well_formed].
  destruct (openApiToMarkdown spec) as [markdown |]; [| discriminate].
  intros [= <-]. apply openapi_result_well_formed.
Qed.

Lemma trySwaggerExtraction_well_formed pageUrl html opts r :
  trySwaggerExtraction pageUrl html opts = Return r ->
  well_formed (eq openapi_spec) pageUrl r.
Proof.
  unfold trySwaggerExtraction.
  destruct (negb (isSwagger _)); [intros [= <-]; apply failed_well_formed |].
  destruct (truthy_url _) as [detectedUrl |]; [| apply tryProbe_well_formed].
  destruct (valid_spec _) as [spec |]; [| apply tryProbe_well_formed].
  unfold bind. destruct (openApiToMarkdown spec) as [markdown |]; [| discriminate].
  intros [= <-]. apply openapi_result_well_formed.
Qed.

Lemma tryHeadlessRender_returns pageUrl opts :
  exists r, tryHeadlessRender pageUrl opts = Return r /\
            well_formed (eq headless) pageUrl r.
Proof.
  unfold tryHeadlessRender.
  destruct (negb isPuppeteerAvailable);
    [eexists; split; [reflexivity | apply failed_well_formed] |].
  destruct (render_success _);
    [| eexists; split; [reflexivity | apply failed_well_formed]].
  destruct (truthy_url _) as [text |];
    [| eexists; split; [reflexivity | apply failed_well_formed]].
  eexists; split; [reflexivity |]. intros _. cbn.
  repeat split; try discriminate; try congruence. now exists text.
Qed.

Lemma attempt_well_formed by_method pageUrl enabled strategy r :
  (forall x, strategy = Return x -> well_formed by_method pageUrl x) ->
  attempt enabled strategy = Return (Some r) ->
  success r = true /\ well_formed by_method pageUrl r.
Proof.
  intros Hs. unfold attempt, bind. destruct enabled; [| discriminate].
  destruct strategy as [x |]; [| discriminate].
  destruct (success x) eqn:E; [| discriminate].
  intros [= <-]. split; [exact E | now apply Hs].
Qed.

Lemma attempt_returns enabled strategy :
  (exists x, strategy = Return x) -> exists r, attempt enabled strategy = Return r.
Proof.
  intros [x ->]. unfold attempt, bind. destruct enabled; eexists; reflexivity.
Qed.

Lemma well_formed_weaken (P Q : FetchMethod -> Prop) pageUrl r :
  (forall m, P m -> Q m) -> well_formed P pageUrl r -> well_formed Q pageUrl r.
Proof.
  intros HPQ H Hs. destruct (H Hs) as (H1 & H2 & H3 & H4 & H5 & H6).
  repeat split; auto; apply H5.
Qed.

(** What the body returns is the direct result, or a result of another
    method that succeeded. *)
Lemma smartFetch_body_returns pageUrl opts r :
  smartFetch_body pageUrl opts = Return r ->
  success r = true /\ well_formed (fun _ => True) pageUrl r /\
  exists httpResult, fetchWithHttp pageUrl opts = Return httpResult /\
                     (method r = direct -> r = httpResult).
Proof.
  unfold smartFetch_body. unfold bind at 1.
  destruct (fetchWithHttp pageUrl opts) as [httpResult |] eqn:Ehttp; [| discriminate].
  pose proof (fetchWithHttp_succeeds _ _ _ _ _ _ _ Ehttp) as Hok.
  pose proof (fetchWithHttp_well_formed _ _ _ Ehttp) as Hwf.
  destruct (negb (ContentType_eqb (contentType httpResult) ct_html)
            || negb (looksLikeSpa (default [] (fetched httpResult)))).
  { intros [= <-]. split; [exact Hok |]. split; [| now exists httpResult].
    eapply well_formed_weaken; [| exact Hwf]. auto. }
  unfold bind at 1.
  destruct (attempt (tryOpenApiSpec opts) _) as [[swagger |] |] eqn:Es;
    [| | discriminate].
  { intros [= <-].
    apply (attempt_well_formed (eq openapi_spec) pageUrl) in Es as [Hs Hw];
      [| apply trySwaggerExtraction_well_formed].
    split; [exact Hs |]. split; [eapply well_formed_weaken; [| exact Hw]; auto |].
    exists httpResult. split; [reflexivity |].
    destruct (Hw Hs) as (_ & _ & _ & _ & _ & Hm). congruence. }
  unfold bind at 1.
  destruct (tryHeadlessRender_returns pageUrl opts) as (x & Ex & Hx).
  destruct (attempt (useHeadlessFallback opts) _) as [[rendered |] |] eqn:Eh;
    [| | discriminate].
  - intros [= <-].
    apply (attempt_well_formed (eq headless) pageUrl) in Eh as [Hs Hw];
      [| intros y Hy; rewrite Ex in Hy; now injection Hy as <-].
    split; [exact Hs |]. split; [eapply well_formed_weaken; [| exact Hw]; auto |].
    exists httpResult. split; [reflexivity |].
    destruct (Hw Hs) as (_ & _ & _ & _ & _ & Hm). congruence.
  - intros [= <-]. split; [exact Hok |]. split; [| now exists httpResult].
    eapply well_formed_weaken; [| exact Hwf]. auto.
Qed.

(** Whatever happens, [smartFetch] returns a result for the address asked
    for.  A success has content, no error and a known content type; a
    failure has no content, content type [unknown], method [direct] and a
    message.  A spec URL is reported exactly when the method is
    [openapi_spec]. *)
Theorem smartFetch_result_shape (pageUrl : str) (opts : SmartFetchOptions) :
  let r := smartFetch pageUrl opts in
  url r = pageUrl /\
  (specUrl r <> None <-> method r = openapi_spec) /\
  if success r
  then error r = None /\ (exists content, fetched r = Some content) /\
       contentType r <> ct_unknown
  else fetched r = None /\ contentType r = ct_unknown /\ method r = direct /\
       exists message, error r = Some message.
Proof.
  intros r. unfold r, smartFetch, try_catch.
  destruct (smartFetch_body pageUrl opts) as [x | thrown] eqn:E.
  - apply smartFetch_body_returns in E as (Hs & Hw & _).
    destruct (Hw Hs) as (H1 & H2 & H3 & H4 & H5 & _). rewrite Hs. tauto.
  - cbn. repeat split; try discriminate; try congruence. eauto.
Qed.

(** When rendering a spec and probing for one never throw, [smartFetch]
    fails only if the direct fetch does, and then with the message of the
    direct fetch; otherwise it succeeds, and a result of method [direct] is
    the result of the direct fetch itself. *)
Theorem smartFetch_fails_only_with_direct_fetch
    (pageUrl : str) (opts : SmartFetchOptions) :
  (forall spec, exists markdown, openApiToMarkdown spec = Return markdown) ->
  (forall address timeout,
     exists found, probeCommonSpecEndpoints address timeout = Return found) ->
  match fetchWithHttp pageUrl opts with
  | Throw thrown =>
      smartFetch pageUrl opts =
        {| success := false; fetched := None; contentType := ct_unknown;
           method := direct; error := Some (default msg_unknown_error thrown);
           url := pageUrl; specUrl := None |}
  | Return httpResult =>
      success (smartFetch pageUrl opts) = true /\
      (method (smartFetch pageUrl opts) = direct ->
       smartFetch pageUrl opts = httpResult)
  end.
Proof.
  intros Hrender Hprobe.
  assert (Hp : exists r, tryProbe pageUrl opts = Return r).
  { unfold tryProbe, bind.
    destruct (probeCommonEndpoints opts); [| eexists; reflexivity].
    destruct (Hprobe pageUrl (httpTimeout opts / 2)%Z) as [[[u t] |] ->];
      [| eexists; reflexivity].
    destruct (valid_spec _) as [spec |]; [| eexists; reflexivity].
    destruct (Hrender spec) as [markdown ->]. eexists; reflexivity. }
  assert (Hx : forall html, exists r, trySwaggerExtraction pageUrl html opts = Return r).
  { intros html. unfold trySwaggerExtraction.
    destruct (negb (isSwagger _)); [eexists; reflexivity |].
    destruct (truthy_url _) as [detectedUrl |]; [| exact Hp].
    destruct (valid_spec _) as [spec |]; [| exact Hp].
    unfold bind. destruct (Hrender spec) as [markdown ->]. eexists; reflexivity. }
  destruct (fetchWithHttp pageUrl opts) as [httpResult | thrown] eqn:Ehttp.
  - assert (Hbody : exists r, smartFetch_body pageUrl opts = Return r).
    { unfold smartFetch_body. unfold bind at 1.
      rewrite Ehttp.
      destruct (negb _ || negb _); [eexists; reflexivity |].
      unfold bind at 1.
      destruct (attempt_returns (tryOpenApiSpec opts) _
                  (Hx (default [] (fetched httpResult)))) as [[s |] ->];
        [eexists; reflexivity |].
      unfold bind at 1.
      destruct (tryHeadlessRender_returns pageUrl opts) as (x & Ex & _).
      destruct (attempt_returns (useHeadlessFallback opts) _
                  (ex_intro _ x Ex)) as [[s |] ->]; eexists; reflexivity. }
    destruct Hbody as [r Hr]. unfold smartFetch, try_catch.
    rewrite Hr. apply smartFetch_body_returns in Hr as (Hs & _ & h & Hh & Hm).
    rewrite Ehttp in Hh. injection Hh as <-. split; [exact Hs | exact Hm].
  - unfold smartFetch, smartFetch_body, try_catch.
    unfold bind at 1. now rewrite Ehttp.
Qed.

End SmartFetchMore.

Lemma smartFetch_fails_only_with_direct_fetch_witness :
  success
    (smartFetch AsciiHost.JSON_parse BrokenSpec.client_get BrokenSpec.axios_get
       BrokenSpec.JSON_stringify (fun _ => Return (lit "## Endpoints"))
       BrokenSpec.URL_href BrokenSpec.probeCommonSpecEndpoints false
       BrokenSpec.renderSwaggerPage BrokenSpec.url DEFAULT_OPTIONS) = true.
Proof.
  pose proof (smartFetch_fails_only_with_direct_fetch
           AsciiHost.JSON_parse BrokenSpec.client_get BrokenSpec.axios_get
           BrokenSpec.JSON_stringify (fun _ => Return (lit "## Endpoints"))
           BrokenSpec.URL_href BrokenSpec.probeCommonSpecEndpoints false
           BrokenSpec.renderSwaggerPage BrokenSpec.url DEFAULT_OPTIONS
           (fun spec => ex_intro _ (lit "## Endpoints") eq_refl)
           (fun address timeout => ex_intro _ None eq_refl)) as H.
  change (fetchWithHttp AsciiHost.JSON_parse BrokenSpec.client_get
            BrokenSpec.JSON_stringify (fun _ => Return (lit "## Endpoints"))
            BrokenSpec.url DEFAULT_OPTIONS)
    with (Return {| success := true; fetched := Some BrokenSpec.page;
                    contentType := ct_html; method := direct; error := None;
                    url := BrokenSpec.url; specUrl := None |}) in H.
  exact (proj1 H).
Defined.

(** ** Escaping *)

Module EscapeFacts.

Lemma escapeRegex_chars s :
  escapeRegex s = flat_map (fun c => if regex_syntax c then [backslash; c] else [c]) s.
Proof.
  unfold escapeRegex, replace_with.
  assert (H : forall b,
    replace_with_go (Chr regex_syntax) (fun found => backslash :: found) b s 0 =
    flat_map (fun c => if regex_syntax c then [backslash; c] else [c]) s).
  { induction s as [| c s IH]; intros b; simpl; [reflexivity |].
    rewrite RegexFacts.exec_Chr. destruct (regex_syntax c); simpl; now rewrite IH. }
  apply H.
Qed.

Lemma escapeRegex_plain s :
  Forall (fun c => regex_syntax c = false) s -> escapeRegex s = s.
Proof.
  rewrite escapeRegex_chars. induction 1 as [| c s Hc _ IH]; simpl; [reflexivity |].
  now rewrite Hc, IH.
Qed.

Lemma word_char_no_syntax c : is_word c = true -> regex_syntax c = false.
Proof.
  unfold is_word, is_upper, is_lower, is_digit, between, regex_syntax.
  cbn [one_of]. unfold ch, chr. intros H.
  repeat match goal with
         | |- context [N.eqb c ?y] =>
             let y' := eval cbv in y in
             change y with y'; destruct (N.eqb_spec c y'); [exfalso | cbn [orb]]
         end; [.. | reflexivity]; subst c; discriminate.
Qed.

End EscapeFacts.

Section Escaping.

Variable toLowerCase : str -> str.
Variable normalizeNFD : str -> str.

Local Abbreviation normalizeText := (normalizeText toLowerCase normalizeNFD).

(** [escapeRegex] puts one backslash before each code unit that a pattern
    reads as syntax and keeps the others.  The words of a normalized term,
    for which [calculateWordMatchScore] builds its patterns, have no such
    code unit: escaping leaves each of them as it is. *)
Theorem escaping_keeps_normalized_words (text term : str) :
  escapeRegex text =
    flat_map (fun c => if regex_syntax c then [backslash; c] else [c]) text /\
  Forall (fun word => escapeRegex word = word)
         (split_str space_separator (normalizeText term)).
Proof.
  split; [apply EscapeFacts.escapeRegex_chars |].
  rewrite (normalizeText_words toLowerCase normalizeNFD).
  set (raw_term := raw toLowerCase normalizeNFD term).
  pose proof (NormalFacts.tokens_words raw_term) as Hw.
  pose proof (NormalFacts.tokens_Forall _ _ (raw_chars toLowerCase normalizeNFD term)) as Hc.
  fold raw_term in Hc.
  destruct (tokens raw_term) as [| w ws] eqn:E.
  - constructor; [reflexivity | constructor].
  - rewrite NormalFacts.split_str_join; [| exact Hw | discriminate].
    rewrite List.Forall_forall in *. intros word Hin.
    apply EscapeFacts.escapeRegex_plain. apply List.Forall_forall. intros c Hcw.
    apply EscapeFacts.word_char_no_syntax.
    specialize (Hc word Hin). rewrite List.Forall_forall in Hc. apply Hc; [exact Hcw |].
    destruct (Hw word Hin) as [_ Hns]. rewrite List.Forall_forall in Hns. now apply Hns.
Qed.

End Escaping.

(** ** Short documents *)

Module PieceFacts.

Lemma split_go_piece_length r a : forall b piece at_p skip,
  Forall (fun p => length p <= length piece + length a)
         (split_go r b a piece at_p skip).
Proof.
  induction a as [| c a IH]; intros b piece at_p skip; cbn [split_go].
  - constructor; [rewrite length_rev; lia | constructor].
  - assert (Hrev : length (rev piece) <= length piece + length (c :: a))
      by (rewrite length_rev; lia).
    assert (Hrest : forall piece' at_p' skip',
      length piece' <= S (length piece) ->
      Forall (fun p => length p <= length piece + length (c :: a))
             (split_go r (c :: b) a piece' at_p' skip')).
    { intros piece' at_p' skip' Hp.
      eapply List.Forall_impl; [| apply IH]. cbn beta. simpl. intros p Hle. lia. }
    destruct skip as [| n]; [| apply Hrest; simpl; lia].
    destruct (exec r b (c :: a)) as [[| n] |].
    + destruct at_p; [apply Hrest; simpl; lia |].
      constructor; [exact Hrev | apply Hrest; simpl; lia].
    + constructor; [exact Hrev | apply Hrest; simpl; lia].
    + apply Hrest; simpl; lia.
Qed.

Lemma split_piece_length r s :
  Forall (fun p => length p <= length s) (split r s).
Proof.
  unfold split. destruct s as [| c s].
  - destruct (exec r [] []); [constructor |]. constructor; [apply Nat.le_refl | constructor].
  - apply (split_go_piece_length r (c :: s) [] [] true 0).
Qed.

Lemma filter_none {A} (f : A -> bool) l :
  Forall (fun x => f x = false) l -> List.filter f l = [].
Proof.
  induction 1 as [| x l Hx _ IH]; simpl; [reflexivity |]. now rewrite Hx.
Qed.

Lemma filter_pieces (f : str -> bool) n l :
  Forall (fun p => length p <= n) l -> Forall (fun p => length p <= n) (List.filter f l).
Proof.
  intros H. apply List.Forall_forall. intros p Hp.
  apply List.filter_In in Hp as [Hp _]. rewrite List.Forall_forall in H. now apply H.
Qed.

Lemma initialChunks_length document :
  Forall (fun chunk => length chunk <= length document) (initialChunks document).
Proof.
  unfold initialChunks.
  destruct (1 <? length (List.filter nonblank (split headers document)));
    [apply filter_pieces, split_piece_length |].
  destruct (1 <? length (List.filter nonblank (split horizontalRules document)));
    apply filter_pieces, split_piece_length.
Qed.

End PieceFacts.

(** A document of at most [MIN_CHUNK_SIZE] = 10 code units gives no chunk at
    all on the Markdown and plain-text path: each of its pieces is dropped
    as too small. *)
Theorem short_document_has_no_chunks (document : str) :
  length document <= MIN_CHUNK_SIZE -> splitMarkdownDocument document = [].
Proof.
  intros Hshort. unfold splitMarkdownDocument.
  apply PieceFacts.filter_none.
  pose proof (PieceFacts.initialChunks_length document) as Hinit.
  unfold refineChunks. apply List.Forall_forall. intros c Hc.
  apply in_flat_map in Hc as (chunk & Hchunk & Hc).
  rewrite List.Forall_forall in Hinit. specialize (Hinit chunk Hchunk).
  unfold refineChunk in Hc.
  assert (Hcap : (length chunk <=? MAX_CHUNK_SIZE) = true).
  { apply Nat.leb_le. etransitivity; [exact Hinit |]. etransitivity; [exact Hshort |].
    unfold MIN_CHUNK_SIZE, MAX_CHUNK_SIZE. lia. }
  rewrite Hcap in Hc. destruct Hc as [<- | []].
  unfold bigEnough. apply Nat.ltb_ge.
  etransitivity; [apply HtmlChunkerFacts.length_trim_le |]. lia.
Qed.

Lemma short_document_has_no_chunks_witness :
  splitMarkdownDocument (lit "# Title") = [].
Proof.
  apply short_document_has_no_chunks. unfold MIN_CHUNK_SIZE. simpl. lia.
Defined.
